(** * Scene graph of the ECS exercise: entities, components, scenes

    A shallow embedding of
      - [Exercice_1/3-ECS/src/entity.ts]   (class [Entity]),
      - [Exercice_1/3-ECS/src/components.ts] (class [ComponentFactory]),
      - [Exercice_1/3-ECS/src/scene.ts]    (class [Scene], one level of children),
      - the recursive revision of [scene.ts] (class [Scene], any depth),
    together with the properties of the scene-graph specification.

    Conventions of the embedding.
      - A JavaScript object used as a dictionary is an association list with
        pairwise distinct keys, kept in the order [for ... in] and
        [Object.keys] enumerate it.  Keys inherited from [Object.prototype]
        are not represented: a lookup sees own keys only.
      - A call either returns or throws: [Completion].
      - Objects created by [new] are values; a component carries the
        identity [cid] it received at allocation, so that "the same
        instance" is equality of components.  The back reference
        [owner] of a component is not represented, no operation below
        reads it.
      - A promise is a term [Promise] over the promises handed back by
        components and visitors; [status] gives its state once all pending
        reactions have run, as a function of the state of those. *)

From Stdlib Require Import List String Bool Arith Lia.
Import ListNotations.
Local Open Scope string_scope.
Local Open Scope list_scope.

Set Implicit Arguments.
Set Warnings "-register-all".

(** ** JavaScript objects used as dictionaries *)

Module Dict.

Definition t (V : Type) : Type := list (string * V).

(** [d[k]], [None] standing for [undefined].  Own keys only: for a name
    inherited from [Object.prototype] and not stored in [d], JavaScript
    gives the inherited member.  Where a statement below depends on the
    lookup of a name that may not be stored, it is about names with
    [own_name]. *)
Fixpoint get {V : Type} (k : string) (d : t V) : option V :=
  match d with
  | [] => None
  | (k', v) :: tl => if String.eqb k k' then Some v else get k tl
  end.

(** [d[k] = v]: an existing key keeps its place, a new one goes last.
    JavaScript enumerates keys that look like array indices first and in
    ascending order, wherever they were inserted; the constructors below
    insert the keys of a description in the order they enumerate them, and
    then "last" is also the place of the new key in the enumeration.
    [d['__proto__'] = v] stores no key, it replaces the prototype of [d].
    Where a statement below depends on what an assignment stores, it is
    about names with [ordinary_key]. *)
Fixpoint set {V : Type} (k : string) (v : V) (d : t V) : t V :=
  match d with
  | [] => [(k, v)]
  | (k', v') :: tl =>
      if String.eqb k k' then (k, v) :: tl else (k', v') :: set k v tl
  end.

(** [Object.keys(d)], also the order of [for (k in d)]. *)
Definition keys {V : Type} (d : t V) : list string := map fst d.

(** No key occurs twice. *)
Fixpoint distinct (l : list string) : bool :=
  match l with
  | [] => true
  | k :: tl => negb (existsb (String.eqb k) tl) && distinct tl
  end.

End Dict.

(** ** Calls that return or throw *)

Inductive JsError : Type :=
| TypeError                 (* a member of [undefined], [new undefined(..)] *)
| Error (msg : string).     (* [throw new Error(msg)] *)

Inductive Completion (A : Type) : Type :=
| Normal (a : A)
| Throw (e : JsError).

Arguments Normal {A} a.
Arguments Throw {A} e.

(** ** Components, entities, scenes *)

(** [IComponent]: the type tag, and the identity of the instance. *)
Record IComponent : Type := mkComponent { __type : string; cid : nat }.

(** The configuration payload of a component is opaque to the scene. *)
Definition Payload : Type := string.

(** [class Entity]: [components] is an array, [children] a dictionary. *)
Inductive Entity : Type :=
  mkEntity { components : list IComponent; children : list (string * Entity) }.

(** [class Scene]: the dictionary [scenes] of the root entities. *)
Record Scene : Type := mkScene { scenes : Dict.t Entity }.

(** [IEntityDesc] and [ISceneDesc]. *)
Inductive IEntityDesc : Type :=
  mkEntityDesc { desc_components : list (string * Payload);
                 desc_children : list (string * IEntityDesc) }.

Definition ISceneDesc : Type := Dict.t IEntityDesc.

(** ** Promises *)

Inductive Promise : Type :=
| Plain                        (* not a promise: the [undefined] of a void setup *)
| External (p : nat)           (* the promise a component or a visitor returned *)
| Rejected (e : JsError)       (* [new Promise(executor)] whose executor threw *)
| AfterAll (ps : list Promise) (* resolved by [Promise.all(ps).then(...)] *)
| AfterAny (ps : list Promise). (* resolved by [p.then(...)], for each p of ps *)

Inductive Status : Type := Pending | Fulfilled | Failed.

Definition is_fulfilled (s : Status) : bool :=
  match s with Fulfilled => true | _ => false end.

(** State of a promise, given the state [st] of the external ones.  No
    promise constructor of the scene installs a rejection handler or
    calls [reject]: a failure among [ps] leaves the outer promise pending. *)
Fixpoint status (st : nat -> Status) (p : Promise) : Status :=
  match p with
  | Plain => Fulfilled
  | External n => st n
  | Rejected _ => Failed
  | AfterAll ps =>
      if forallb (fun q => is_fulfilled (status st q)) ps then Fulfilled else Pending
  | AfterAny ps =>
      if existsb (fun q => is_fulfilled (status st q)) ps then Fulfilled else Pending
  end.

(** What [setup] hands back: nothing, a promise, or an exception. *)
Inductive SetupResult : Type :=
| SVoid
| SPromise (p : nat)
| SThrow (e : JsError).

(** What a scene walker hands back: a promise ([ISceneWalker]), or an
    exception. *)
Inductive VisitResult : Type :=
| VPromise (p : nat)
| VThrow (e : JsError).

(** ** The state of the process *)

(** One call of [setup], with the value of [Scene.current] it could see. *)
Record SetupCall : Type := mkSetupCall {
  sc_component : IComponent;
  sc_payload : Payload;
  sc_current : option Scene;
  sc_result : SetupResult
}.

Record World : Type := mkWorld {
  current : option Scene;            (* [static current: Scene] *)
  nextId : nat;                      (* identity of the next allocation *)
  setups : list SetupCall;           (* the calls of [setup], oldest first *)
  visits : list (Entity * string)    (* the calls of a walker, oldest first *)
}.

Definition M (A : Type) : Type := World -> Completion A * World.

Definition ret {A : Type} (a : A) : M A := fun w => (Normal a, w).

Definition throw {A : Type} (e : JsError) : M A := fun w => (Throw e, w).

Definition bind {A B : Type} (c : M A) (k : A -> M B) : M B :=
  fun w =>
    match c w with
    | (Normal a, w') => k a w'
    | (Throw e, w') => (Throw e, w')
    end.

Declare Scope js_scope.
Delimit Scope js_scope with js.
Notation "x <- c ;; k" := (bind c (fun x => k))
  (at level 100, c at next level, right associativity) : js_scope.
Notation "' pat <- c ;; k" := (bind c (fun x => match x with pat => k end))
  (at level 100, pat pattern, c at next level, right associativity) : js_scope.
Notation "c ;;; k" := (bind c (fun _ => k))
  (at level 100, right associativity) : js_scope.
Local Open Scope js_scope.

(** [for (x of l) acc = f(acc, x)], stopping at the first exception. *)
Definition foldM {A B : Type} (f : B -> A -> M B) : list A -> B -> M B :=
  fix go (l : list A) (b : B) : M B :=
    match l with
    | [] => ret b
    | x :: tl => fun w =>
        match f b x w with
        | (Normal b', w') => go tl b' w'
        | (Throw e, w') => (Throw e, w')
        end
    end.

(** [new Promise(executor)] where the executor computes the promise that
    resolves the new one: an exception in the executor rejects it. *)
Definition new_Promise (executor : M Promise) : M Promise :=
  fun w =>
    match executor w with
    | (Normal p, w') => (Normal p, w')
    | (Throw e, w') => (Normal (Rejected e), w')
    end.

Definition fresh : M nat :=
  fun w => (Normal (nextId w),
            mkWorld (current w) (S (nextId w)) (setups w) (visits w)).

Definition get_current : M (option Scene) := fun w => (Normal (current w), w).

Definition set_current (s : Scene) : M unit :=
  fun w => (Normal tt, mkWorld (Some s) (nextId w) (setups w) (visits w)).

(** ** [ComponentFactory] and the test double *)

(** [ComponentFactory.componentCreators]: the registered type names.  The
    table also inherits the name [constructor], under which [new] finds
    [Object] and returns the owner itself: that name is not in this list,
    and the statements below about unknown types leave it out. *)
Definition componentCreators : list string :=
  ["Position"; "Texture"; "Motion"; "Collider"; "Joystick"; "TextureAtlas";
   "Score"; "Referee"].

Definition factory_creators (type : string) : bool :=
  existsb (String.eqb type) componentCreators.

(** [registerMock()]: every type name yields a [TestComponent]. *)
Definition mock_creators (type : string) : bool := true.

Section WithCreator.

(** [Entity.componentCreator], given by the type names it can build:
    [factory_creators] for [ComponentFactory.create], [mock_creators] for
    the test double.  Both stamp the new component with the requested
    type; [ComponentFactory.create] throws on an unknown name
    ([new undefined(owner)]). *)
Variable creators : string -> bool.

Definition componentCreator (type : string) : M IComponent :=
  if creators type
  then (id <- fresh ;; ret (mkComponent type id))
  else throw TypeError.

(** ** [class Entity] *)

Definition new_Entity : Entity := mkEntity [] [].

(** [addComponent(type)]: the new component and the entity after the
    [push]. *)
Definition addComponent (type : string) (this : Entity) : M (IComponent * Entity) :=
  newComponent <- componentCreator type ;;
  ret (newComponent,
       mkEntity (components this ++ [newComponent]) (children this)).

End WithCreator.

(** The [forEach] of [getComponent]: every component of the requested type
    overwrites [foundComp]. *)
Definition getComponent_loop (type : string) (cs : list IComponent)
    (foundComp : option IComponent) : option IComponent :=
  fold_left
    (fun found component =>
       if String.eqb (__type component) type then Some component else found)
    cs foundComp.

(** [getComponent(type)]: [foundComp] starts as [this.components[0]]. *)
Definition getComponent (type : string) (this : Entity) : Completion (option IComponent) :=
  Normal (getComponent_loop type (components this) (hd_error (components this))).

(** [addChild(objectName, child)]. *)
Definition addChild (objectName : string) (child : Entity) (this : Entity) : Entity :=
  mkEntity (components this) (Dict.set objectName child (children this)).

(** [getChild(objectName)]. *)
Definition getChild (objectName : string) (this : Entity) : option Entity :=
  Dict.get objectName (children this).

(** The first defined result of [f] along [l]: a loop that returns from
    inside its body. *)
Definition first_some {A B : Type} (f : A -> option B) : list A -> option B :=
  fix go (l : list A) : option B :=
    match l with
    | [] => None
    | x :: tl => match f x with Some b => Some b | None => go tl end
    end.

(** The last defined result of [f] along [l], or [found]: a loop that
    overwrites a variable and does not stop. *)
Definition last_some {A B : Type} (f : A -> option B) (l : list A)
    (found : option B) : option B :=
  fold_left (fun acc x => match f x with Some b => Some b | None => acc end) l found.

Section WithCallbacks.

Variable creators : string -> bool.

(** The components' [setup], which may read [Scene.current]. *)
Variable setup : IComponent -> Payload -> option Scene -> SetupResult.

(** The walker handed to [walk]. *)
Variable fn : Entity -> string -> VisitResult.

(** [comp.setup(desc)], recorded. *)
Definition call_setup (comp : IComponent) (desc : Payload) : M Promise :=
  fun w =>
    let r := setup comp desc (current w) in
    let w' := mkWorld (current w) (nextId w)
                      (setups w ++ [mkSetupCall comp desc (current w) r])
                      (visits w) in
    match r with
    | SVoid => (Normal Plain, w')
    | SPromise p => (Normal (External p), w')
    | SThrow e => (Throw e, w')
    end.

(** [fn(entity, name)], recorded. *)
Definition call_fn (entity : Entity) (name : string) : M Promise :=
  fun w =>
    let w' := mkWorld (current w) (nextId w) (setups w)
                      (visits w ++ [(entity, name)]) in
    match fn entity name with
    | VPromise p => (Normal (External p), w')
    | VThrow e => (Throw e, w')
    end.

(** [x.getComponent(type).setup(desc)] on a possibly undefined [x]. *)
Definition setup_component (x : option Entity) (type : string) (desc : Payload)
    : M Promise :=
  match x with
  | None => throw TypeError
  | Some entity =>
      match getComponent type entity with
      | Throw e => throw e
      | Normal None => throw TypeError
      | Normal (Some comp) => call_setup comp desc
      end
  end.

(** [Entity.walkChildren(fn)]: the walker's results are dropped. *)
Definition walkChildren (this : Entity) : M unit :=
  foldM (fun _ kv => _ <- call_fn (snd kv) (fst kv) ;; ret tt) (children this) tt.

(** The [addComponent] loop shared by all constructors. *)
Definition addComponents (descs : list (string * Payload)) (entity : Entity)
    : M Entity :=
  foldM (fun e kv => r <- addComponent creators (fst kv) e ;; ret (snd r))
        descs entity.

End WithCallbacks.

(** ** [class Scene], recursive revision *)

Module SceneRec.

Section WithCallbacks.

Variable creators : string -> bool.
Variable setup : IComponent -> Payload -> option Scene -> SetupResult.
Variable fn : Entity -> string -> VisitResult.

(** [construChildrenRecurse(ent)]. *)
Fixpoint construChildrenRecurse (ent : IEntityDesc) : M Entity :=
  entity <- addComponents creators (desc_components ent) new_Entity ;;
  entity <- foldM (fun e kv =>
                     child <- construChildrenRecurse (snd kv) ;;
                     ret (addChild (fst kv) child e))
                  (desc_children ent) entity ;;
  ret entity.

(** The constructor.  [this.scenes[obj]] is stored first and completed
    in place; nothing reads [this.scenes] meanwhile, so the completed
    entity is stored here. *)
Definition new_Scene (description : ISceneDesc) : M Scene :=
  scenes <- foldM (fun scenes kv =>
              entity <- addComponents creators (desc_components (snd kv)) new_Entity ;;
              entity <- foldM (fun e ckv =>
                                 child <- construChildrenRecurse (snd ckv) ;;
                                 ret (addChild (fst ckv) child e))
                              (desc_children (snd kv)) entity ;;
              ret (Dict.set (fst kv) entity scenes))
            description [] ;;
  ret (mkScene scenes).

(** [findRecurse(objectName, ent)]. *)
Fixpoint findRecurse (objectName : string) (ent : Entity) : option Entity :=
  match getChild objectName ent with
  | Some foundObject => Some foundObject
  | None => first_some (fun kv => findRecurse objectName (snd kv)) (children ent)
  end.

(** [findObject(objectName)].  The tests [!= undefined] are lookups by
    [Dict.get]: own keys only. *)
Definition findObject (objectName : string) (this : Scene) : Completion Entity :=
  match Dict.get objectName (scenes this) with
  | Some e => Normal e
  | None =>
      match first_some (fun kv => findRecurse objectName (snd kv)) (scenes this) with
      | Some foundObject => Normal foundObject
      | None => Throw (Error ("Did not find the object " ++ objectName))
      end
  end.

(** [Scene.current.findObject(objectName)]. *)
Definition current_findObject (objectName : string) : M Entity :=
  cur <- get_current ;;
  match cur with
  | None => throw TypeError
  | Some scene =>
      match findObject objectName scene with
      | Normal e => ret e
      | Throw e => throw e
      end
  end.

(** [setupChildrenRecurse(child, desc)] on a defined [child].  Its own
    [setupPromises] stays empty: neither the results of [setup] nor the
    promises of the recursive calls are pushed. *)
Fixpoint setupChildrenRecurse (child : Entity) (desc : option IEntityDesc)
    : M Promise :=
  new_Promise (
    match desc with
    | None => throw TypeError
    | Some d =>
        _ <- foldM (fun _ kv =>
                      _ <- setup_component setup (Some child) (fst kv) (snd kv) ;;
                      ret tt)
                   (desc_components d) tt ;;
        _ <- foldM (fun _ kv =>
                      _ <- setupChildrenRecurse (snd kv)
                             (Dict.get (fst kv) (desc_children d)) ;;
                      ret tt)
                   (children child) tt ;;
        ret (AfterAll [])
    end).

(** [setupChildrenRecurse] as [create] calls it: [getChild] may have
    returned [undefined], and then the executor throws at once. *)
Definition setupChildrenRecurse_opt (child : option Entity) (desc : IEntityDesc)
    : M Promise :=
  match child with
  | Some e => setupChildrenRecurse e (Some desc)
  | None => ret (Rejected TypeError)
  end.

(** [Scene.create(description)]: the promise it returns. *)
Definition create (description : ISceneDesc) : M Promise :=
  new_Promise (
    scene <- new_Scene description ;;
    _ <- set_current scene ;;
    setupPromises <-
      foldM (fun promises kv =>
               promises <-
                 foldM (fun ps ckv =>
                          e <- current_findObject (fst kv) ;;
                          p <- setup_component setup (Some e) (fst ckv) (snd ckv) ;;
                          ret (ps ++ [p]))
                       (desc_components (snd kv)) promises ;;
               foldM (fun ps ckv =>
                        e <- current_findObject (fst kv) ;;
                        p <- setupChildrenRecurse_opt (getChild (fst ckv) e) (snd ckv) ;;
                        ret (ps ++ [p]))
                     (desc_children (snd kv)) promises)
            description [] ;;
    ret (AfterAll setupPromises)).

(** [walkChildrenRecurse(children, fn, name)]: only the walker's own
    promise resolves the result, the recursive calls are dropped. *)
Fixpoint walkChildrenRecurse (entity : Entity) (name : string) : M Promise :=
  new_Promise (
    p <- call_fn fn entity name ;;
    _ <- foldM (fun _ kv =>
                  _ <- walkChildrenRecurse (snd kv) (fst kv) ;; ret tt)
               (children entity) tt ;;
    ret (AfterAny [p])).

(** [walk(fn)]: per root, a promise resolved by the walker's promise
    or by any child's. *)
Definition walk (this : Scene) : M Promise :=
  new_Promise (
    promises <-
      foldM (fun promises kv =>
               p <- new_Promise (
                      p0 <- call_fn fn (snd kv) (fst kv) ;;
                      ps <- foldM (fun ps ckv =>
                                     q <- walkChildrenRecurse (snd ckv) (fst ckv) ;;
                                     ret (ps ++ [q]))
                                  (children (snd kv)) [] ;;
                      ret (AfterAny (p0 :: ps))) ;;
               ret (promises ++ [p]))
            (scenes this) [] ;;
    ret (AfterAll promises)).

End WithCallbacks.

End SceneRec.

(** ** [class Scene] of [scene.ts]: one level of children *)

Module SceneFlat.

Section WithCallbacks.

Variable creators : string -> bool.
Variable setup : IComponent -> Payload -> option Scene -> SetupResult.
Variable fn : Entity -> string -> VisitResult.

(** The constructor: the children of a root are created with their
    components, the children of a child are not read at all. *)
Definition new_Scene (description : ISceneDesc) : M Scene :=
  scenes <- foldM (fun scenes kv =>
              entity <- addComponents creators (desc_components (snd kv)) new_Entity ;;
              entity <- foldM (fun e ckv =>
                                 myChild <- addComponents creators
                                              (desc_components (snd ckv)) new_Entity ;;
                                 ret (addChild (fst ckv) myChild e))
                              (desc_children (snd kv)) entity ;;
              ret (Dict.set (fst kv) entity scenes))
            description [] ;;
  ret (mkScene scenes).

(** [findObject(objectName)]: a root of that name, else the child of
    that name of the last root that has one, else [undefined]. *)
Definition findObject (objectName : string) (this : Scene) : option Entity :=
  match Dict.get objectName (scenes this) with
  | Some e => Some e
  | None => last_some (fun kv => getChild objectName (snd kv)) (scenes this) None
  end.

(** [Scene.current.findObject(objectName)]. *)
Definition current_findObject (objectName : string) : M (option Entity) :=
  cur <- get_current ;;
  match cur with
  | None => throw TypeError
  | Some scene => ret (findObject objectName scene)
  end.

(** [x.getChild(name)] on a possibly undefined [x]. *)
Definition getChild_of (x : option Entity) (name : string) : M (option Entity) :=
  match x with
  | None => throw TypeError
  | Some e => ret (getChild name e)
  end.

(** [Scene.create(description)]: the promise it returns. *)
Definition create (description : ISceneDesc) : M Promise :=
  new_Promise (
    scene <- new_Scene description ;;
    _ <- set_current scene ;;
    setupPromises <-
      foldM (fun promises kv =>
               promises <-
                 foldM (fun ps ckv =>
                          e <- current_findObject (fst kv) ;;
                          p <- setup_component setup e (fst ckv) (snd ckv) ;;
                          ret (ps ++ [p]))
                       (desc_components (snd kv)) promises ;;
               foldM (fun ps ckv =>
                        foldM (fun ps cckv =>
                                 e <- current_findObject (fst kv) ;;
                                 c <- getChild_of e (fst ckv) ;;
                                 p <- setup_component setup c (fst cckv) (snd cckv) ;;
                                 ret (ps ++ [p]))
                              (desc_components (snd ckv)) ps)
                     (desc_children (snd kv)) promises)
            description [] ;;
    ret (AfterAll setupPromises)).

(** [walk(fn)]: per root, [walkChildren(fn)] and then the walker on the
    root, whose promise alone resolves the root's promise. *)
Definition walk (this : Scene) : M Promise :=
  new_Promise (
    promises <-
      foldM (fun promises kv =>
               p <- new_Promise (
                      _ <- walkChildren fn (snd kv) ;;
                      p0 <- call_fn fn (snd kv) (fst kv) ;;
                      ret (AfterAny [p0])) ;;
               ret (promises ++ [p]))
            (scenes this) [] ;;
    ret (AfterAll promises)).

End WithCallbacks.

End SceneFlat.

(** ** Descriptions: names, paths, well-formedness *)

(** The entity names below an entity description, at any depth. *)
Fixpoint desc_names (d : IEntityDesc) : list string :=
  flat_map (fun kv => fst kv :: desc_names (snd kv)) (desc_children d).

(** Every entity name of a scene description, roots included. *)
Definition scene_names (description : ISceneDesc) : list string :=
  flat_map (fun kv => fst kv :: desc_names (snd kv)) description.

(** The description found by following child names from [d]. *)
Fixpoint desc_at (path : list string) (d : IEntityDesc) : option IEntityDesc :=
  match path with
  | [] => Some d
  | k :: rest =>
      match Dict.get k (desc_children d) with
      | Some c => desc_at rest c
      | None => None
      end
  end.

(** The entity found by following child names from [e] with [getChild]. *)
Fixpoint entity_at (path : list string) (e : Entity) : option Entity :=
  match path with
  | [] => Some e
  | k :: rest =>
      match getChild k e with
      | Some c => entity_at rest c
      | None => None
      end
  end.

(** A description is an object: no key twice in a component map or in a
    children map, at any depth. *)
Fixpoint wf_desc (d : IEntityDesc) : bool :=
  Dict.distinct (Dict.keys (desc_components d)) &&
  Dict.distinct (Dict.keys (desc_children d)) &&
  forallb (fun kv => wf_desc (snd kv)) (desc_children d).

Definition wf_scene_desc (description : ISceneDesc) : bool :=
  Dict.distinct (Dict.keys description) &&
  forallb (fun kv => wf_desc (snd kv)) description.

(** [e] has exactly the structure [d] describes: one component per entry of
    the component map, of that type and in that order, and under each child
    name an entity with the structure of the child's description. *)
Fixpoint mirrors (d : IEntityDesc) (e : Entity) : Prop :=
  map __type (components e) = Dict.keys (desc_components d) /\
  Dict.keys (children e) = Dict.keys (desc_children d) /\
  (fix all (ds : list (string * IEntityDesc)) : Prop :=
     match ds with
     | [] => True
     | kv :: tl =>
         (exists c, getChild (fst kv) e = Some c /\ mirrors (snd kv) c) /\ all tl
     end) (desc_children d).

(** All entities below [e] with the names they are stored under, parents
    before children, siblings in enumeration order. *)
Fixpoint descendants (e : Entity) : list (Entity * string) :=
  flat_map (fun kv => (snd kv, fst kv) :: descendants (snd kv)) (children e).

(** All entities of a scene with their names. *)
Definition scene_entities (s : Scene) : list (Entity * string) :=
  flat_map (fun kv => (snd kv, fst kv) :: descendants (snd kv)) (scenes s).

(** The empty world: no active scene, nothing allocated or called. *)
Definition world0 : World := mkWorld None 0 [] [].

(** ** Sample inputs *)

Module Samples.

(** An entity that already owns one [Position] component. *)
Definition positioned : Entity := mkEntity [mkComponent "Position" 0] [].

(** The world after that allocation. *)
Definition world1 : World := mkWorld None 1 [] [].

End Samples.

(** ** Notions used by the properties *)

(** The process state apart from the allocator is the same. *)
Definition same_process (w w' : World) : Prop :=
  current w' = current w /\ setups w' = setups w /\ visits w' = visits w.

(** [scene] is the active scene and every call of [setup] after the calls
    [before] could see it as such. *)
Definition sees (scene : Scene) (before : list SetupCall) (w : World) : Prop :=
  current w = Some scene /\
  exists calls, setups w = before ++ calls /\
                Forall (fun c => sc_current c = Some scene) calls.

Section CreateTurn.

Variable setup : IComponent -> Payload -> option Scene -> SetupResult.

(** One turn of the outer loop of [create]: a root's components, then
    its children. *)
Definition create_turn (promises : list Promise) (kv : string * IEntityDesc)
    : M (list Promise) :=
  bind (foldM (fun ps ckv =>
                 bind (SceneRec.current_findObject (fst kv))
                   (fun e => bind (setup_component setup (Some e) (fst ckv) (snd ckv))
                               (fun p => ret (ps ++ [p]))))
              (desc_components (snd kv)) promises)
    (fun promises =>
       foldM (fun ps ckv =>
                bind (SceneRec.current_findObject (fst kv))
                  (fun e => bind (SceneRec.setupChildrenRecurse_opt setup
                                    (getChild (fst ckv) e) (snd ckv))
                              (fun p => ret (ps ++ [p]))))
             (desc_children (snd kv)) promises).

End CreateTurn.

(** ** Sample descriptions, callbacks and promise states *)

Module Inputs.

(** The end-to-end scenario: root [A] with a child [B]. *)
Definition parent_child : ISceneDesc :=
  [("A", mkEntityDesc [("Position", "{x:0,y:0}")]
           [("B", mkEntityDesc [("Position", "{x:1,y:1}")] [])])].

(** Three levels: [A] has the child [B], which has the child [C]. *)
Definition three_levels : ISceneDesc :=
  [("A", mkEntityDesc []
           [("B", mkEntityDesc []
                    [("C", mkEntityDesc [("Position", "{x:2,y:2}")] [])])])].

(** A root without components whose child [B] loads a texture. *)
Definition child_texture : ISceneDesc :=
  [("A", mkEntityDesc [] [("B", mkEntityDesc [("Texture", "ball.png")] [])])].

(** A single root that loads a texture. *)
Definition root_texture : ISceneDesc :=
  [("A", mkEntityDesc [("Texture", "missing.png")] [])].

(** Two roots, each with a child named [x]. *)
Definition two_parents : ISceneDesc :=
  [("A", mkEntityDesc [] [("x", mkEntityDesc [("Position", "a")] [])]);
   ("B", mkEntityDesc [] [("x", mkEntityDesc [("Motion", "b")] [])])].

(** Every [setup] returns nothing. *)
Definition setup_void (c : IComponent) (desc : Payload) (cur : option Scene)
    : SetupResult := SVoid.

(** Every [setup] returns the promise 0, as a texture waiting for its image. *)
Definition setup_async (c : IComponent) (desc : Payload) (cur : option Scene)
    : SetupResult := SPromise 0.

(** Every [setup] throws. *)
Definition setup_throw (c : IComponent) (desc : Payload) (cur : option Scene)
    : SetupResult := SThrow (Error "setup failed").

(** A walker that returns the promise 0 on [A], 1 on [B], 2 elsewhere. *)
Definition walker_by_name (e : Entity) (name : string) : VisitResult :=
  if String.eqb name "A" then VPromise 0
  else if String.eqb name "B" then VPromise 1
  else VPromise 2.

(** No external promise has completed yet. *)
Definition all_pending (p : nat) : Status := Pending.

(** Every external promise has failed. *)
Definition all_failed (p : nat) : Status := Failed.

(** Only the external promise [n] has completed. *)
Definition only_fulfilled (n : nat) (p : nat) : Status :=
  if Nat.eqb p n then Fulfilled else Pending.

(** A scene that was active before a build, and the world where it is. *)
Definition old_scene : Scene := mkScene [("Old", new_Entity)].
Definition old_world : World := mkWorld (Some old_scene) 0 [] [].

(** The scenes the two constructors build from the descriptions above. *)
Definition parent_child_scene : Scene :=
  mkScene [("A", mkEntity [mkComponent "Position" 0]
                   [("B", mkEntity [mkComponent "Position" 1] [])])].

Definition root_texture_scene : Scene :=
  mkScene [("A", mkEntity [mkComponent "Texture" 0] [])].

End Inputs.

Module Built.

(** [three_levels] as [scene.ts] builds it: [B] has no child. *)
Definition three_levels_flat : Scene :=
  mkScene [("A", mkEntity [] [("B", mkEntity [] [])])].

(** [three_levels] as the recursive revision builds it. *)
Definition three_levels_rec : Scene :=
  mkScene [("A", mkEntity []
                   [("B", mkEntity []
                            [("C", mkEntity [mkComponent "Position" 0] [])])])].

(** [child_texture], built. *)
Definition child_texture : Scene :=
  mkScene [("A", mkEntity [] [("B", mkEntity [mkComponent "Texture" 0] [])])].

(** [two_parents], built (both revisions agree at this depth). *)
Definition two_parents : Scene :=
  mkScene [("A", mkEntity [] [("x", mkEntity [mkComponent "Position" 0] [])]);
           ("B", mkEntity [] [("x", mkEntity [mkComponent "Motion" 1] [])])].

(** The promise [walk] of the recursive revision returns on the scenes
    [parent_child_scene] and [three_levels_rec] with [walker_by_name]. *)
Definition walk_promise : Promise :=
  AfterAll [AfterAny [External 0; AfterAny [External 1]]].

End Built.

(** ** [Entity.walkComponent] *)

(** A component walker either returns (its result is dropped) or throws. *)
Definition IComponentWalker : Type := IComponent -> string -> option JsError.

(** The [forEach] of [walkComponent]: the calls made so far are [calls]. *)
Fixpoint walkComponent_loop (fn : IComponentWalker) (cs : list IComponent)
    (calls : list (IComponent * string))
    : list (IComponent * string) * Completion unit :=
  match cs with
  | [] => (calls, Normal tt)
  | comp :: tl =>
      let calls' := calls ++ [(comp, __type comp)] in
      match fn comp (__type comp) with
      | Some e => (calls', Throw e)
      | None => walkComponent_loop fn tl calls'
      end
  end.

(** [walkComponent(fn)]: the calls of [fn] it makes, and how it ends. *)
Definition walkComponent (fn : IComponentWalker) (this : Entity)
    : list (IComponent * string) * Completion unit :=
  walkComponent_loop fn (components this) [].

(** ** More notions used by the properties *)

(** Every component type a description names, at any depth. *)
Fixpoint desc_types (d : IEntityDesc) : list string :=
  Dict.keys (desc_components d)
  ++ flat_map (fun kv => desc_types (snd kv)) (desc_children d).

Definition scene_types (description : ISceneDesc) : list string :=
  flat_map (fun kv => desc_types (snd kv)) description.

(** [e] has the components [d] describes and, under each child name of
    [d], an entity with the components of that child and no children. *)
Definition mirrors_one_level (d : IEntityDesc) (e : Entity) : Prop :=
  map __type (components e) = Dict.keys (desc_components d) /\
  Dict.keys (children e) = Dict.keys (desc_children d) /\
  Forall (fun kv =>
            exists c, getChild (fst kv) e = Some c /\
                      map __type (components c) = Dict.keys (desc_components (snd kv)) /\
                      children c = [])
         (desc_children d).

(** The direct children of an entity as a walker receives them. *)
Definition child_visits (e : Entity) : list (Entity * string) :=
  map (fun kv => (snd kv, fst kv)) (children e).

(** What [walk] of [scene.ts] visits: per root, its children, then itself. *)
Definition one_level_visits (s : Scene) : list (Entity * string) :=
  flat_map (fun kv => child_visits (snd kv) ++ [(snd kv, fst kv)]) (scenes s).

(** The promises handed back by the calls of [setup] in [calls]. *)
Definition issued_promises (calls : list SetupCall) : list nat :=
  flat_map (fun c => match sc_result c with SPromise n => [n] | _ => [] end) calls.





(** A description that names a component type [ComponentFactory] lacks. *)
Definition unknown_type_desc : ISceneDesc :=
  [("A", mkEntityDesc [("Position", "{x:0,y:0}")]
           [("B", mkEntityDesc [("Sprite", "{}")] [])])].

(** After the calls [before], the promise of every later call of [setup]
    is among the promises [ps]. *)
Definition joined (before : list SetupCall) (ps : list Promise) (w : World) : Prop :=
  exists calls, setups w = before ++ calls /\
                forall n, In n (issued_promises calls) -> In (External n) ps.

(** ** [LayerComponent] of the client *)

From Stdlib Require Import ZArith.

Module Layer.

(** A value stored in a [Uint16Array]: kept modulo 2^16. *)
Definition uint16 (z : Z) : Z := Z.modulo z 65536.

(** [new Uint16Array(l)]. *)
Definition Uint16Array_of (l : list Z) : list Z := map uint16 l.

(** [new Uint16Array(n)]: [n] zeros. *)
Definition Uint16Array_new (n : nat) : list Z := repeat 0%Z n.

(** [dst.set(src, offset)]: a [RangeError] when [src] does not fit. *)
Definition typed_set (src : list Z) (offset : nat) (dst : list Z)
    : Completion (list Z) :=
  if Nat.leb (offset + List.length src) (List.length dst)
  then Normal (firstn offset dst ++ src ++ skipn (offset + List.length src) dst)
  else Throw (Error "RangeError").

(** [indicesCalculated] of the sprite number [i]. *)
Definition indicesCalculated (i : nat) : list Z :=
  let i := Z.of_nat i in
  Uint16Array_of [0 + i * 4; 1 + i * 4; 2 + i * 4; 2 + i * 4; 3 + i * 4; 0 + i * 4]%Z.

(** The loop of [display] over the sprites number [i], [i+1], ... of
    which [todo] are left, as far as [allindices] goes. *)
Fixpoint display_loop (todo : nat) (i : nat) (allindices : list Z)
    : Completion (list Z) :=
  match todo with
  | O => Normal allindices
  | S todo' =>
      match typed_set (indicesCalculated i) (6 * i) allindices with
      | Normal allindices' => display_loop todo' (S i) allindices'
      | Throw e => Throw e
      end
  end.

(** [allindices] as [display] hands it to [GL.bufferData], for a layer of
    [n] sprites ([display] returns before it when there is no sprite).  The
    writes to [allvertices] of the same loop are not represented. *)
Definition display_indices (n : nat) : Completion (list Z) :=
  display_loop n 0 (Uint16Array_new (6 * n)).

(** What [listSprites] reads of a component: whether it is an instance of
    [SpriteComponent], and its [enabled] flag. *)
Record Comp : Type := mkComp { is_sprite : bool; enabled : bool; comp_id : nat }.

(** What [listSprites] reads of an entity of the client: its [active]
    flag, its components and its children. *)
Inductive Node : Type :=
  mkNode { active : bool; comps : list Comp; kids : list (string * Node) }.

(** Modelled from the spec: [walkComponent] of the client's [Entity], whose
    source is not at hand, applies the visitor to each component in
    insertion order.  The visitor acts on the array [acc] it closes over. *)
Definition walkComponent {A : Type} (visitor : A -> Comp -> A) (this : Node)
    (acc : A) : A :=
  fold_left visitor (comps this) acc.

(** Modelled from the spec: [walkChildren] of the client's [Entity], whose
    source is not at hand, applies the visitor to each direct child in
    insertion order.  The visitor acts on the array [acc] it closes over. *)
Definition walkChildren {A : Type} (visitor : A -> Node -> A) (this : Node)
    (acc : A) : A :=
  fold_left (fun a kv => visitor a (snd kv)) (kids this) acc.

(** [listSpritesRecur(sprites, entity)]: [sprites] is one array, pushed to
    in place and handed down. *)
Fixpoint listSpritesRecur (sprites : list Comp) (entity : Node) : list Comp :=
  walkChildren
    (fun sprites child =>
       if negb (active child) then sprites
       else
         listSpritesRecur
           (walkComponent
              (fun sprites comp =>
                 if is_sprite comp && enabled comp then sprites ++ [comp]
                 else sprites)
              child sprites)
           child)
    entity sprites.

(** [listSprites()] of a layer owned by [owner]: one run of
    [listSpritesRecur] on the owner per direct child of the owner. *)
Definition listSprites (owner : Node) : list Comp :=
  walkChildren (fun sprites _ => listSpritesRecur sprites owner) owner [].

(** The enabled sprites of the active entities below [e], parents before
    children; an inactive entity hides all that is below it. *)
Fixpoint visible_sprites (e : Node) : list Comp :=
  flat_map (fun kv =>
              if active (snd kv)
              then filter (fun c => is_sprite c && enabled c) (comps (snd kv))
                   ++ visible_sprites (snd kv)
              else [])
           (kids e).

End Layer.

(** ** Names for which an object is a plain dictionary *)

From Stdlib Require Import Ascii.

(** The names every object inherits from [Object.prototype].  Reading
    such a name from a dictionary that has no own key of that name gives
    the inherited member and not [undefined]; assigning to [__proto__]
    replaces the prototype and stores no key.  [Dict.get] and [Dict.set]
    represent own keys only: they are the code's [d[k]] and [d[k] = v]
    for every other name. *)
Definition inherited_names : list string :=
  ["constructor"; "toString"; "toLocaleString"; "valueOf"; "hasOwnProperty";
   "isPrototypeOf"; "propertyIsEnumerable"; "__proto__"; "__defineGetter__";
   "__defineSetter__"; "__lookupGetter__"; "__lookupSetter__"].

(** [name] is not inherited from [Object.prototype]. *)
Definition own_name (name : string) : bool :=
  negb (existsb (String.eqb name) inherited_names).

Definition is_digit (c : ascii) : bool :=
  Nat.leb 48 (nat_of_ascii c) && Nat.leb (nat_of_ascii c) 57.

Fixpoint all_digits (s : string) : bool :=
  match s with
  | EmptyString => true
  | String c rest => is_digit c && all_digits rest
  end.

(** [name] is written with digits only.  The names JavaScript enumerates
    first and in ascending order, wherever they were inserted, are among
    these. *)
Definition digits_only (name : string) : bool :=
  negb (String.eqb name "") && all_digits name.

(** Assigning under [name] stores an own key, enumerated after the keys
    stored before it: as [Dict.set] has it. *)
Definition ordinary_key (name : string) : bool :=
  negb (String.eqb name "__proto__") && negb (digits_only name).

(** The names of the roots of a description and of their direct children. *)
Definition top_names (description : ISceneDesc) : list string :=
  flat_map (fun kv => fst kv :: Dict.keys (desc_children (snd kv))) description.

(** ** One turn of the outer loop of [create] in [scene.ts] *)

Section FlatCreateTurn.

Variable setup : IComponent -> Payload -> option Scene -> SetupResult.

(** A root's components, then the components of its direct children. *)
Definition flat_create_turn (promises : list Promise) (kv : string * IEntityDesc)
    : M (list Promise) :=
  bind (foldM (fun ps ckv =>
                 bind (SceneFlat.current_findObject (fst kv))
                   (fun e => bind (setup_component setup e (fst ckv) (snd ckv))
                               (fun p => ret (ps ++ [p]))))
              (desc_components (snd kv)) promises)
    (fun promises =>
       foldM (fun ps ckv =>
                foldM (fun ps cckv =>
                         bind (SceneFlat.current_findObject (fst kv))
                           (fun e =>
                              bind (SceneFlat.getChild_of e (fst ckv))
                                (fun c =>
                                   bind (setup_component setup c (fst cckv) (snd cckv))
                                     (fun p => ret (ps ++ [p])))))
                      (desc_components (snd ckv)) ps)
             (desc_children (snd kv)) promises).

End FlatCreateTurn.

(** ** More sample inputs *)

Module Inputs2.

(** A root with a referee component, above a child [B] and a grandchild
    [C] that the referee's [setup] looks up. *)
Definition referee_three_levels : ISceneDesc :=
  [("A", mkEntityDesc [("Referee", "{players:[],ball:'C'}")]
           [("B", mkEntityDesc []
                    [("C", mkEntityDesc [("Position", "{x:2,y:2}")] [])])])].

(** [referee_three_levels] as [scene.ts] builds it. *)
Definition referee_flat : Scene :=
  mkScene [("A", mkEntity [mkComponent "Referee" 0] [("B", mkEntity [] [])])].

(** [referee_three_levels] as the recursive revision builds it. *)
Definition referee_rec : Scene :=
  mkScene [("A", mkEntity [mkComponent "Referee" 0]
                   [("B", mkEntity []
                            [("C", mkEntity [mkComponent "Position" 1] [])])])].

(** Only the texture [missing.png] fails to load: its [setup] hands back
    the promise 1, every other [setup] the promise 0. *)
Definition setup_one_missing (c : IComponent) (desc : Payload) (cur : option Scene)
    : SetupResult :=
  if String.eqb desc "missing.png" then SPromise 1 else SPromise 0.

(** Only the [setup] configured with [missing.png] throws. *)
Definition setup_one_throws (c : IComponent) (desc : Payload) (cur : option Scene)
    : SetupResult :=
  if String.eqb desc "missing.png" then SThrow (Error "setup failed") else SVoid.

(** Two roots with a texture each, of which the second is missing. *)
Definition two_textures : ISceneDesc :=
  [("A", mkEntityDesc [("Texture", "ball.png")] []);
   ("B", mkEntityDesc [("Texture", "missing.png")] [])].

Definition two_textures_scene : Scene :=
  mkScene [("A", mkEntity [mkComponent "Texture" 0] []);
           ("B", mkEntity [mkComponent "Texture" 1] [])].

(** Only the promise 1 has failed, the others are completed. *)
Definition only_failed_1 (p : nat) : Status :=
  if Nat.eqb p 1 then Failed else Fulfilled.

(** Every promise is completed. *)
Definition all_fulfilled (p : nat) : Status := Fulfilled.

End Inputs2.

(** * Properties *)

(** ** Entities *)

Section EntityFacts.

Variable creators : string -> bool.

Lemma getComponent_loop_app (type : string) (l1 l2 : list IComponent)
    (found : option IComponent) :
  getComponent_loop type (l1 ++ l2) found
  = getComponent_loop type l2 (getComponent_loop type l1 found).
Proof. unfold getComponent_loop. apply fold_left_app. Qed.

Lemma getComponent_loop_absent (type : string) (l : list IComponent)
    (found : option IComponent) :
  (forall c, In c l -> __type c <> type) ->
  getComponent_loop type l found = found.
Proof.
  revert found. induction l as [|c l IH]; intros found Hno; [reflexivity|].
  simpl. destruct (String.eqb_spec (__type c) type) as [E|_].
  - exfalso. apply (Hno c); [left; reflexivity | exact E].
  - apply IH. intros c' Hin. apply Hno. right. exact Hin.
Qed.

(** [getComponent] yields the last component of the requested type. *)
Lemma getComponent_last (type : string) (this : Entity)
    (before after : list IComponent) (c : IComponent) :
  components this = before ++ c :: after ->
  __type c = type ->
  (forall c', In c' after -> __type c' <> type) ->
  getComponent type this = Normal (Some c).
Proof.
  intros Hsplit Htype Hafter. unfold getComponent. rewrite Hsplit.
  rewrite getComponent_loop_app. simpl.
  rewrite Htype, String.eqb_refl.
  rewrite getComponent_loop_absent by exact Hafter. reflexivity.
Qed.

(** What a call of [addComponent] does when it returns. *)
Lemma addComponent_inv (type : string) (this this' : Entity) (w w' : World)
    (c : IComponent) :
  addComponent creators type this w = (Normal (c, this'), w') ->
  creators type = true /\
  c = mkComponent type (nextId w) /\
  this' = mkEntity (components this ++ [c]) (children this) /\
  w' = mkWorld (current w) (S (nextId w)) (setups w) (visits w).
Proof.
  unfold addComponent, componentCreator, bind, fresh, ret, throw.
  destruct (creators type); simpl; intros H; inversion H; subst.
  repeat split; reflexivity.
Qed.

Lemma addComponent_throws (type : string) (this : Entity) (w : World) :
  creators type = false ->
  addComponent creators type this w = (Throw TypeError, w).
Proof.
  intros H. unfold addComponent, componentCreator, bind, throw. rewrite H.
  reflexivity.
Qed.

(** The [addComponent] loop appends, allocates upwards, and touches
    nothing else. *)
Lemma addComponents_inv (descs : list (string * Payload)) :
  forall (entity entity' : Entity) (w w' : World),
    addComponents creators descs entity w = (Normal entity', w') ->
    exists added,
      components entity' = components entity ++ added /\
      map __type added = Dict.keys descs /\
      children entity' = children entity /\
      nextId w' = nextId w + List.length descs /\
      current w' = current w /\ setups w' = setups w /\ visits w' = visits w /\
      forallb creators (Dict.keys descs) = true.
Proof.
  induction descs as [|[k p] descs IH]; intros entity entity' w w' H.
  - inversion H; subst. exists []. rewrite app_nil_r.
    repeat split; simpl; auto.
  - unfold addComponents in H. simpl in H. unfold bind at 1 in H.
    destruct (addComponent creators k entity w) as [[[c e1]|err] w1] eqn:Hadd;
      [|discriminate].
    apply addComponent_inv in Hadd. destruct Hadd as (Hk & Hc & He1 & Hw1).
    simpl in H. apply IH in H.
    destruct H as (added & Hcomp & Hty & Hch & Hid & Hcur & Hset & Hvis & Hall).
    exists (c :: added). subst e1 w1; simpl in *.
    rewrite Hcomp, <- app_assoc. simpl.
    repeat split; auto.
    + rewrite Hty. subst c. reflexivity.
    + lia.
    + rewrite Hk. exact Hall.
Qed.


End EntityFacts.



(** C10.  When [addComponent(t)] was called on an entity more than once,
    whatever was added in between and whatever components of other types
    were added since, [getComponent(t)] returns the instance the latest of
    these calls created; it is another instance than the one the first
    call created, which is still in the array.  And whatever the history
    of an entity: if its array holds several components of type [t],
    [getComponent(t)] returns the one that comes last in the array. *)
Theorem getComponent_returns_latest (creators : string -> bool) (t : string) :
  (forall (others later : list (string * Payload))
          (e e1 e2 e3 e4 : Entity) (w w1 w2 w3 w4 : World) (c1 c3 : IComponent),
      addComponent creators t e w = (Normal (c1, e1), w1) ->
      addComponents creators others e1 w1 = (Normal e2, w2) ->
      addComponent creators t e2 w2 = (Normal (c3, e3), w3) ->
      addComponents creators later e3 w3 = (Normal e4, w4) ->
      ~ In t (Dict.keys later) ->
      getComponent t e4 = Normal (Some c3) /\ c3 <> c1 /\ In c1 (components e4)) /\
  (forall (e : Entity) (before mid after : list IComponent)
          (first latest : IComponent),
      components e = before ++ first :: mid ++ latest :: after ->
      __type first = t ->
      __type latest = t ->
      (forall c, In c after -> __type c <> t) ->
      getComponent t e = Normal (Some latest)).
Proof.
  split.
  - intros others later e e1 e2 e3 e4 w w1 w2 w3 w4 c1 c3 H1 H2 H3 H4 Hlater.
    apply addComponent_inv in H1. destruct H1 as (_ & Hc1 & He1 & Hw1).
    apply addComponents_inv in H2.
    destruct H2 as (added & Hcomp & _ & _ & Hid & _).
    apply addComponent_inv in H3. destruct H3 as (_ & Hc3 & He3 & _).
    apply addComponents_inv in H4.
    destruct H4 as (added' & Hcomp' & Hty' & _).
    assert (E4 : components e4 = components e2 ++ c3 :: added').
    { rewrite Hcomp', He3. simpl. rewrite <- app_assoc. reflexivity. }
    split; [|split].
    + apply getComponent_last with (before := components e2) (after := added').
      * exact E4.
      * rewrite Hc3. reflexivity.
      * intros c' Hin E. apply Hlater. rewrite <- Hty', <- E.
        apply in_map. exact Hin.
    + subst c1 c3 w1. simpl in Hid. intros E. inversion E. lia.
    + rewrite E4, Hcomp, He1. simpl.
      rewrite !in_app_iff. left. left. right. left. reflexivity.
  - intros e before mid after first latest Hsplit _ Hlatest Hafter.
    apply getComponent_last with (before := before ++ first :: mid) (after := after).
    + rewrite Hsplit, <- app_assoc. reflexivity.
    + exact Hlatest.
    + exact Hafter.
Qed.

Lemma getComponent_returns_latest_witness :
  (getComponent "Position"
     (mkEntity [mkComponent "Position" 0; mkComponent "Position" 1;
                mkComponent "Motion" 2; mkComponent "Position" 3;
                mkComponent "Texture" 4; mkComponent "Motion" 5] [])
   = Normal (Some (mkComponent "Position" 3)) /\
   mkComponent "Position" 3 <> mkComponent "Position" 1 /\
   In (mkComponent "Position" 1)
      [mkComponent "Position" 0; mkComponent "Position" 1;
       mkComponent "Motion" 2; mkComponent "Position" 3;
       mkComponent "Texture" 4; mkComponent "Motion" 5]) /\
  getComponent "Position"
    (mkEntity [mkComponent "Position" 0; mkComponent "Position" 1;
               mkComponent "Motion" 2] [("B", new_Entity)])
  = Normal (Some (mkComponent "Position" 1)).
Proof.
  destruct (@getComponent_returns_latest factory_creators "Position")
    as (Hhistory & Hstate).
  split.
  - apply (Hhistory
             [("Motion", "{}")] [("Texture", "ball.png"); ("Motion", "{}")]
             Samples.positioned
             (mkEntity [mkComponent "Position" 0; mkComponent "Position" 1] [])
             (mkEntity [mkComponent "Position" 0; mkComponent "Position" 1;
                        mkComponent "Motion" 2] [])
             (mkEntity [mkComponent "Position" 0; mkComponent "Position" 1;
                        mkComponent "Motion" 2; mkComponent "Position" 3] [])
             (mkEntity [mkComponent "Position" 0; mkComponent "Position" 1;
                        mkComponent "Motion" 2; mkComponent "Position" 3;
                        mkComponent "Texture" 4; mkComponent "Motion" 5] [])
             Samples.world1 (mkWorld None 2 [] []) (mkWorld None 3 [] [])
             (mkWorld None 4 [] []) (mkWorld None 6 [] []));
      try reflexivity.
    intros [E|[E|[]]]; discriminate E.
  - apply (Hstate
             (mkEntity [mkComponent "Position" 0; mkComponent "Position" 1;
                        mkComponent "Motion" 2] [("B", new_Entity)])
             [] [] [mkComponent "Motion" 2]
             (mkComponent "Position" 0) (mkComponent "Position" 1));
      try reflexivity.
    intros c [E|[]]. subst c. discriminate.
Defined.

(** C6, as stated, fails: on an entity that already owns a [Position]
    component, a second [addComponent("Position")] returns normally, with
    a second instance pushed behind the first. *)
Lemma addComponent_duplicate_counterexample :
  In (mkComponent "Position" 0) (components Samples.positioned) /\
  addComponent factory_creators "Position" Samples.positioned Samples.world1
  = (Normal (mkComponent "Position" 1,
             mkEntity [mkComponent "Position" 0; mkComponent "Position" 1] []),
     mkWorld None 2 [] []).
Proof. split; [left; reflexivity | reflexivity]. Qed.

(** C6, amended.  If a component of type [t] is already present on [e] and
    the component creator knows [t], a second [e.addComponent(t)] returns
    normally: it pushes a new instance of type [t] behind the components
    already there, which stay as they are. *)
Theorem addComponent_duplicate_appends (creators : string -> bool) (t : string)
    (e : Entity) (w : World) (c0 : IComponent) :
  creators t = true ->
  In c0 (components e) -> __type c0 = t ->
  let c := mkComponent t (nextId w) in
  addComponent creators t e w
  = (Normal (c, mkEntity (components e ++ [c]) (children e)),
     mkWorld (current w) (S (nextId w)) (setups w) (visits w)).
Proof.
  intros Hreg _ _ c. unfold addComponent, componentCreator, bind, fresh, ret.
  rewrite Hreg. reflexivity.
Qed.

Lemma addComponent_duplicate_appends_witness :
  addComponent mock_creators "TestComp" (mkEntity [mkComponent "TestComp" 0] [])
    Samples.world1
  = (Normal (mkComponent "TestComp" 1,
             mkEntity [mkComponent "TestComp" 0; mkComponent "TestComp" 1] []),
     mkWorld None 2 [] []).
Proof.
  apply (@addComponent_duplicate_appends mock_creators "TestComp"
           (mkEntity [mkComponent "TestComp" 0] []) Samples.world1
           (mkComponent "TestComp" 0)).
  - reflexivity.
  - left. reflexivity.
  - reflexivity.
Defined.

(** C7, as stated, fails: with no [Motion] component present,
    [getComponent("Motion")] returns normally, [undefined] on an entity
    without components, and the [Position] component on an entity that
    owns only that one. *)
Lemma getComponent_absent_counterexample :
  getComponent "Motion" new_Entity = Normal None /\
  getComponent "Motion" Samples.positioned = Normal (Some (mkComponent "Position" 0)).
Proof. split; reflexivity. Qed.

(** C7, amended.  If no component of type [t] is present on [e],
    [e.getComponent(t)] raises nothing; on an entity without any component
    it returns [undefined]. *)
Theorem getComponent_absent_returns (t : string) (e : Entity) :
  (forall c, In c (components e) -> __type c <> t) ->
  exists r, getComponent t e = Normal r /\ (components e = [] -> r = None).
Proof.
  intros Hno. unfold getComponent.
  rewrite getComponent_loop_absent by exact Hno.
  eexists. split; [reflexivity|]. intros E. rewrite E. reflexivity.
Qed.

Lemma getComponent_absent_returns_witness :
  getComponent "Motion" new_Entity = Normal None.
Proof.
  destruct (@getComponent_absent_returns "Motion" new_Entity) as (r & Hr & Hnone).
  - intros c [].
  - rewrite Hr, (Hnone eq_refl). reflexivity.
Defined.

(** ** Dictionaries *)

Section DictFacts.

Context {V : Type}.

Lemma existsb_eqb_In (k : string) (l : list string) :
  existsb (String.eqb k) l = true <-> In k l.
Proof.
  rewrite existsb_exists. split.
  - intros (x & Hin & E). apply String.eqb_eq in E. subst x. exact Hin.
  - intros Hin. exists k. split; [exact Hin | apply String.eqb_refl].
Qed.

Lemma distinct_NoDup (l : list string) :
  Dict.distinct l = true <-> NoDup l.
Proof.
  induction l as [|k l IH]; simpl.
  - split; [constructor | reflexivity].
  - rewrite andb_true_iff, negb_true_iff, IH. split.
    + intros [Hk Hl]. constructor; [|exact Hl].
      intros Hin. apply existsb_eqb_In in Hin. congruence.
    + intros H. inversion H as [|? ? Hk Hl]; subst. split; [|exact Hl].
      destruct (existsb (String.eqb k) l) eqn:E; [|reflexivity].
      apply existsb_eqb_In in E. contradiction.
Qed.

Lemma get_In (k : string) (d : Dict.t V) (v : V) :
  Dict.get k d = Some v -> In (k, v) d.
Proof.
  induction d as [|[k' v'] d IH]; simpl; [discriminate|].
  destruct (String.eqb_spec k k') as [->|_].
  - intros H. inversion H. left. reflexivity.
  - intros H. right. apply IH. exact H.
Qed.

Lemma get_None (k : string) (d : Dict.t V) :
  Dict.get k d = None <-> ~ In k (Dict.keys d).
Proof.
  induction d as [|[k' v'] d IH]; simpl.
  - tauto.
  - destruct (String.eqb_spec k k') as [->|Hne].
    + split; [discriminate | intros H; exfalso; apply H; left; reflexivity].
    + rewrite IH. split; [intros H [E|Hin]; [congruence | tauto] | tauto].
Qed.


Lemma get_set_same (k : string) (v : V) (d : Dict.t V) :
  Dict.get k (Dict.set k v d) = Some v.
Proof.
  induction d as [|[k' v'] d IH]; simpl.
  - rewrite String.eqb_refl. reflexivity.
  - destruct (String.eqb_spec k k') as [->|Hne]; simpl.
    + rewrite String.eqb_refl. reflexivity.
    + destruct (String.eqb_spec k k'); [contradiction | exact IH].
Qed.

Lemma get_set_other (k k0 : string) (v : V) (d : Dict.t V) :
  k0 <> k -> Dict.get k0 (Dict.set k v d) = Dict.get k0 d.
Proof.
  intros Hne. induction d as [|[k' v'] d IH]; simpl.
  - destruct (String.eqb_spec k0 k); [contradiction | reflexivity].
  - destruct (String.eqb_spec k k') as [->|Hk]; simpl.
    + destruct (String.eqb_spec k0 k'); [contradiction | reflexivity].
    + rewrite IH. reflexivity.
Qed.

(** A new key is enumerated last. *)
Lemma keys_set_new (k : string) (v : V) (d : Dict.t V) :
  ~ In k (Dict.keys d) -> Dict.keys (Dict.set k v d) = Dict.keys d ++ [k].
Proof.
  induction d as [|[k' v'] d IH]; simpl; intros Hn; [reflexivity|].
  destruct (String.eqb_spec k k') as [->|_].
  - exfalso. apply Hn. left. reflexivity.
  - simpl. f_equal. apply IH. tauto.
Qed.

End DictFacts.

(** ** Loops *)

Section LoopFacts.

Context {A B : Type}.
Variable f : B -> A -> M B.

(** A property of the world that every turn keeps is kept by the loop,
    also when the loop is left by an exception. *)
Lemma foldM_world (P : World -> Prop) (l : list A) :
  (forall x b w r w', In x l -> P w -> f b x w = (r, w') -> P w') ->
  forall b w r w', P w -> foldM f l b w = (r, w') -> P w'.
Proof.
  induction l as [|x l IH]; intros Hstep b w r w' HP H.
  - inversion H; subst. exact HP.
  - simpl in H. destruct (f b x w) as [[b1|e] w1] eqn:Hf.
    + apply (IH (fun y b0 w0 r0 w0' Hy => Hstep y b0 w0 r0 w0' (or_intror Hy))
               b1 w1 r w'); [|exact H].
      apply (Hstep x b w (Normal b1) w1); [left; reflexivity | exact HP | exact Hf].
    + inversion H; subst.
      apply (Hstep x b w (Throw e) w'); [left; reflexivity | exact HP | exact Hf].
Qed.

(** A loop that runs to its end: an invariant over the turns done. *)
Lemma foldM_prefix (Q : list A -> B -> World -> Prop) (l : list A) :
  (forall pre x post b w b' w',
      l = pre ++ x :: post -> Q pre b w -> f b x w = (Normal b', w') ->
      Q (pre ++ [x]) b' w') ->
  forall b w b' w', Q [] b w -> foldM f l b w = (Normal b', w') -> Q l b' w'.
Proof.
  intros Hstep.
  assert (G : forall post pre b w b' w',
             l = pre ++ post -> Q pre b w ->
             foldM f post b w = (Normal b', w') -> Q l b' w').
  { induction post as [|x post IH]; intros pre b w b' w' El HQ H.
    - inversion H; subst. rewrite app_nil_r. exact HQ.
    - simpl in H. destruct (f b x w) as [[b1|e] w1] eqn:Hf; [|discriminate].
      apply (IH (pre ++ [x]) b1 w1 b' w').
      + rewrite <- app_assoc. exact El.
      + apply (Hstep pre x post b w b1 w1); assumption.
      + exact H. }
  intros b w b' w' HQ H. apply (G l [] b w b' w'); [reflexivity | exact HQ | exact H].
Qed.

(** A loop one of whose turns always ends in an exception does so too. *)
Lemma foldM_throws (P : World -> Prop) (l : list A) (x0 : A) :
  In x0 l ->
  (forall x b w r w', In x l -> P w -> f b x w = (r, w') -> P w') ->
  (forall b w, P w -> exists e w', f b x0 w = (Throw e, w')) ->
  forall b w, P w -> exists e w', foldM f l b w = (Throw e, w').
Proof.
  induction l as [|x l IH]; intros Hin Hstep Hx0 b w HP; [destruct Hin|].
  simpl. destruct (f b x w) as [[b1|e] w1] eqn:Hf.
  - destruct Hin as [->|Hin].
    + destruct (Hx0 b w HP) as (e & w' & E). congruence.
    + apply IH; [exact Hin | | exact Hx0 |].
      * intros y b0 w0 r0 w0' Hy. apply Hstep. right. exact Hy.
      * apply (Hstep x b w (Normal b1) w1); [left; reflexivity | exact HP | exact Hf].
  - eauto.
Qed.

End LoopFacts.

Lemma foldM_ext {A B : Type} (f g : B -> A -> M B) (l : list A) :
  (forall b x w, In x l -> f b x w = g b x w) ->
  forall b w, foldM f l b w = foldM g l b w.
Proof.
  induction l as [|x l IH]; intros Hfg b w; [reflexivity|].
  simpl. rewrite (Hfg b x w) by (left; reflexivity).
  destruct (g b x w) as [[b1|e] w1]; [|reflexivity].
  apply IH. intros b0 y w0 Hy. apply Hfg. right. exact Hy.
Qed.

Lemma first_some_In {A B : Type} (f : A -> option B) (l : list A) (b : B) :
  first_some f l = Some b -> exists x, In x l /\ f x = Some b.
Proof.
  induction l as [|x l IH]; simpl; [discriminate|].
  destruct (f x) as [b0|] eqn:E.
  - intros H. inversion H; subst. exists x. split; [left; reflexivity | exact E].
  - intros H. destruct (IH H) as (y & Hy & Ey). exists y. split; [right|]; assumption.
Qed.

Lemma first_some_None {A B : Type} (f : A -> option B) (l : list A) :
  first_some f l = None <-> forall x, In x l -> f x = None.
Proof.
  induction l as [|x l IH]; simpl.
  - split; [intros _ x [] | reflexivity].
  - destruct (f x) as [b0|] eqn:E.
    + split; [discriminate|]. intros H.
      specialize (H x (or_introl eq_refl)). congruence.
    + rewrite IH. split.
      * intros H y [<-|Hy]; [exact E | apply H; exact Hy].
      * intros H y Hy. apply H. right. exact Hy.
Qed.

(** ** Induction on descriptions and on entities *)

Lemma IEntityDesc_induction (P : IEntityDesc -> Prop) :
  (forall cs ch, Forall (fun kv => P (snd kv)) ch -> P (mkEntityDesc cs ch)) ->
  forall d, P d.
Proof.
  intros Hstep. fix IH 1. intros [cs ch]. apply Hstep.
  induction ch as [|kv ch IHch]; constructor; [apply IH | exact IHch].
Qed.

Lemma Entity_induction (P : Entity -> Prop) :
  (forall cs ch, Forall (fun kv => P (snd kv)) ch -> P (mkEntity cs ch)) ->
  forall e, P e.
Proof.
  intros Hstep. fix IH 1. intros [cs ch]. apply Hstep.
  induction ch as [|kv ch IHch]; constructor; [apply IH | exact IHch].
Qed.

(** ** Construction of the scene, recursive revision *)

(** Splits a hypothesis on [bind c k w] along the outcome of [c w]. *)
Ltac bind_inv H :=
  unfold bind in H at 1;
  match type of H with
  | (match ?c ?w with _ => _ end) = _ =>
      let a := fresh "a" in
      let err := fresh "err" in
      let w1 := fresh "w" in
      let E := fresh "E" in
      destruct (c w) as [[a|err] w1] eqn:E; [|try discriminate H]
  end.

Lemma same_process_refl (w : World) : same_process w w.
Proof. repeat split. Qed.

Lemma same_process_trans (w1 w2 w3 : World) :
  same_process w1 w2 -> same_process w2 w3 -> same_process w1 w3.
Proof.
  intros (A1 & A2 & A3) (B1 & B2 & B3).
  repeat split; congruence.
Qed.

Lemma mirrors_unfold (d : IEntityDesc) (e : Entity) :
  mirrors d e <->
  map __type (components e) = Dict.keys (desc_components d) /\
  Dict.keys (children e) = Dict.keys (desc_children d) /\
  Forall (fun kv => exists c, getChild (fst kv) e = Some c /\ mirrors (snd kv) c)
         (desc_children d).
Proof.
  destruct d as [cs ch]. simpl.
  enough (G : forall l,
             (fix all (ds : list (string * IEntityDesc)) : Prop :=
                match ds with
                | [] => True
                | kv :: tl =>
                    (exists c, getChild (fst kv) e = Some c /\ mirrors (snd kv) c)
                    /\ all tl
                end) l
             <-> Forall (fun kv => exists c, getChild (fst kv) e = Some c
                                             /\ mirrors (snd kv) c) l).
  { rewrite (G ch). tauto. }
  induction l as [|kv l IH].
  - split; [constructor | trivial].
  - rewrite IH. split.
    + intros [H1 H2]. constructor; assumption.
    + intros H. inversion H; subst. split; assumption.
Qed.

Lemma wf_desc_unfold (d : IEntityDesc) :
  wf_desc d = true <->
  NoDup (Dict.keys (desc_components d)) /\
  NoDup (Dict.keys (desc_children d)) /\
  Forall (fun kv => wf_desc (snd kv) = true) (desc_children d).
Proof.
  destruct d as [cs ch]. simpl.
  rewrite !andb_true_iff, !distinct_NoDup, forallb_forall, Forall_forall.
  tauto.
Qed.

Lemma wf_scene_desc_unfold (description : ISceneDesc) :
  wf_scene_desc description = true <->
  NoDup (Dict.keys description) /\
  Forall (fun kv => wf_desc (snd kv) = true) description.
Proof.
  unfold wf_scene_desc.
  rewrite andb_true_iff, distinct_NoDup, forallb_forall, Forall_forall.
  tauto.
Qed.

Section SceneRecConstruction.

Variable creators : string -> bool.

Lemma addComponent_same_process (type : string) (e : Entity) (w w' : World)
    (r : Completion (IComponent * Entity)) :
  addComponent creators type e w = (r, w') -> same_process w w'.
Proof.
  unfold addComponent, componentCreator, bind, fresh, ret, throw.
  destruct (creators type); simpl; intros H; inversion H; subst;
    repeat split.
Qed.

Lemma addComponents_same_process (descs : list (string * Payload))
    (e : Entity) (w w' : World) (r : Completion Entity) :
  addComponents creators descs e w = (r, w') -> same_process w w'.
Proof.
  unfold addComponents.
  apply (foldM_world _ (fun w0 => same_process w w0)); [|apply same_process_refl].
  intros x b w0 r0 w0' _ HP H. bind_inv H.
  - inversion H; subst.
    eapply same_process_trans; [exact HP | eapply addComponent_same_process; eauto].
  - inversion H; subst.
    eapply same_process_trans; [exact HP | eapply addComponent_same_process; eauto].
Qed.

Lemma construChildrenRecurse_unfold (ent : IEntityDesc) :
  SceneRec.construChildrenRecurse creators ent
  = bind (addComponents creators (desc_components ent) new_Entity)
      (fun entity =>
         bind (foldM (fun e kv =>
                        bind (SceneRec.construChildrenRecurse creators (snd kv))
                             (fun child => ret (addChild (fst kv) child e)))
                     (desc_children ent) entity)
              (fun entity => ret entity)).
Proof. destruct ent; reflexivity. Qed.

(** Construction allocates components and nothing else. *)
Lemma construChildrenRecurse_same_process (ent : IEntityDesc) :
  forall (w w' : World) (r : Completion Entity),
    SceneRec.construChildrenRecurse creators ent w = (r, w') -> same_process w w'.
Proof.
  induction ent as [cs ch IH] using IEntityDesc_induction.
  intros w w' r H. rewrite construChildrenRecurse_unfold in H. simpl in H.
  assert (L : forall e w1 r1 w1',
             foldM (fun e kv =>
                      bind (SceneRec.construChildrenRecurse creators (snd kv))
                           (fun child => ret (addChild (fst kv) child e)))
                   ch e w1 = (r1, w1') -> same_process w1 w1').
  { intros e w1 r1 w1'.
    apply (foldM_world _ (fun w0 => same_process w1 w0));
      [|apply same_process_refl].
    intros x b w0 r0 w0' Hx HP Hf.
    rewrite Forall_forall in IH. specialize (IH x Hx).
    bind_inv Hf; inversion Hf; subst;
      (eapply same_process_trans; [exact HP | eapply IH; eauto]). }
  bind_inv H.
  - apply addComponents_same_process in E.
    eapply same_process_trans; [exact E|]. clear E.
    bind_inv H; inversion H; subst; eapply L; eauto.
  - inversion H; subst. eapply addComponents_same_process; eauto.
Qed.

(** The entity built from a description has the described structure,
    at every depth. *)
Lemma construChildrenRecurse_mirrors (ent : IEntityDesc) :
  wf_desc ent = true ->
  forall (w w' : World) (e : Entity),
    SceneRec.construChildrenRecurse creators ent w = (Normal e, w') ->
    mirrors ent e.
Proof.
  induction ent as [cs ch IH] using IEntityDesc_induction.
  intros Hwf w w' e H.
  apply wf_desc_unfold in Hwf. simpl in Hwf. destruct Hwf as (_ & Hnd & Hwfch).
  rewrite construChildrenRecurse_unfold in H. simpl in H.
  bind_inv H. apply addComponents_inv in E.
  destruct E as (added & Hcomp & Hty & Hch & _).
  bind_inv H. inversion H; subst a0 w1. clear H.
  simpl in Hcomp, Hch.
  pose (Q := fun (pre : list (string * IEntityDesc)) (e0 : Entity) (_ : World) =>
               components e0 = added /\
               Dict.keys (children e0) = Dict.keys pre /\
               Forall (fun kv => exists c, getChild (fst kv) e0 = Some c
                                           /\ mirrors (snd kv) c) pre).
  assert (HQ : Q ch e w').
  { revert E. apply foldM_prefix.
    - intros pre x post b w1 b' w1' Ech (Q1 & Q2 & Q3) Hf.
      bind_inv Hf. inversion Hf; subst b' w1'. clear Hf.
      assert (Hx : In x ch) by (rewrite Ech; apply in_elt).
      rewrite Forall_forall in IH, Hwfch.
      pose proof (IH x Hx (Hwfch x Hx) _ _ _ E) as Hm.
      assert (Hfresh : ~ In (fst x) (Dict.keys pre)).
      { rewrite Ech in Hnd. unfold Dict.keys in Hnd. rewrite map_app in Hnd.
        simpl in Hnd. apply NoDup_remove_2 in Hnd.
        intros Hin. apply Hnd. apply in_or_app. left. exact Hin. }
      unfold Q, addChild, getChild. simpl. split; [exact Q1|]. split.
      + rewrite keys_set_new by (rewrite Q2; exact Hfresh).
        rewrite Q2. unfold Dict.keys. rewrite map_app. reflexivity.
      + apply Forall_app. split.
        * rewrite Forall_forall in Q3 |- *. intros kv Hkv.
          destruct (Q3 kv Hkv) as (c & Hc & Hmc). exists c. split; [|exact Hmc].
          rewrite get_set_other; [exact Hc|].
          intros Eq. apply Hfresh. rewrite <- Eq.
          unfold Dict.keys. apply in_map. exact Hkv.
        * constructor; [|constructor].
          exists a0. split; [apply get_set_same | exact Hm].
    - unfold Q. rewrite Hcomp, Hch. simpl. repeat split. constructor. }
  destruct HQ as (Q1 & Q2 & Q3).
  apply mirrors_unfold. simpl. rewrite Q1. repeat split; assumption.
Qed.

End SceneRecConstruction.

Section SceneRecScene.

Variable creators : string -> bool.

(** The constructor builds every root as [construChildrenRecurse] builds
    a child. *)
Lemma new_Scene_unfold (description : ISceneDesc) (w : World) :
  SceneRec.new_Scene creators description w
  = bind (foldM (fun scenes kv =>
                   bind (SceneRec.construChildrenRecurse creators (snd kv))
                        (fun entity => ret (Dict.set (fst kv) entity scenes)))
                description [])
         (fun scenes => ret (mkScene scenes)) w.
Proof.
  unfold SceneRec.new_Scene. unfold bind at 1. unfold bind at 4.
  rewrite (foldM_ext _
             (fun scenes kv =>
                bind (SceneRec.construChildrenRecurse creators (snd kv))
                     (fun entity => ret (Dict.set (fst kv) entity scenes))));
    [reflexivity|].
  intros b x w0 _. rewrite construChildrenRecurse_unfold. unfold bind.
  destruct (addComponents creators (desc_components (snd x)) new_Entity w0)
    as [[e1|err] w1]; [|reflexivity].
  match goal with
  | |- context [foldM ?f ?l e1 w1] => destruct (foldM f l e1 w1) as [[e2|err] w2]
  end; reflexivity.
Qed.

Lemma new_Scene_same_process (description : ISceneDesc) (w w' : World)
    (r : Completion Scene) :
  SceneRec.new_Scene creators description w = (r, w') -> same_process w w'.
Proof.
  rewrite new_Scene_unfold. intros H.
  assert (L : forall r1 w1,
             foldM (fun scenes kv =>
                      bind (SceneRec.construChildrenRecurse creators (snd kv))
                           (fun entity => ret (Dict.set (fst kv) entity scenes)))
                   description [] w = (r1, w1) -> same_process w w1).
  { intros r1 w1.
    apply (foldM_world _ (fun w0 => same_process w w0));
      [|apply same_process_refl].
    intros x b w0 r0 w0' _ HP Hf.
    bind_inv Hf; inversion Hf; subst;
      (eapply same_process_trans;
       [exact HP | eapply construChildrenRecurse_same_process; eauto]). }
  bind_inv H; inversion H; subst; eapply L; eauto.
Qed.

(** Every root of the description is a root of the scene, under its name
    and in the order of the description, with the described structure. *)
Lemma new_Scene_roots (description : ISceneDesc) (w w' : World) (s : Scene) :
  wf_scene_desc description = true ->
  SceneRec.new_Scene creators description w = (Normal s, w') ->
  Dict.keys (scenes s) = Dict.keys description /\
  Forall (fun kv => exists e, Dict.get (fst kv) (scenes s) = Some e
                              /\ mirrors (snd kv) e) description.
Proof.
  intros Hwf H. apply wf_scene_desc_unfold in Hwf. destruct Hwf as (Hnd & Hwf).
  rewrite new_Scene_unfold in H. bind_inv H. inversion H; subst s w0. clear H.
  simpl. revert E.
  apply (foldM_prefix _
           (fun pre (sc : Dict.t Entity) (_ : World) =>
              Dict.keys sc = Dict.keys pre /\
              Forall (fun kv => exists e, Dict.get (fst kv) sc = Some e
                                          /\ mirrors (snd kv) e) pre)).
  - intros pre x post b w1 b' w1' Ed (Q1 & Q2) Hf.
    bind_inv Hf. inversion Hf; subst b' w1'. clear Hf.
    assert (Hx : In x description) by (rewrite Ed; apply in_elt).
    rewrite Forall_forall in Hwf.
    pose proof (construChildrenRecurse_mirrors creators (snd x) (Hwf x Hx) _ E) as Hm.
    assert (Hfresh : ~ In (fst x) (Dict.keys pre)).
    { rewrite Ed in Hnd. unfold Dict.keys in Hnd. rewrite map_app in Hnd.
      simpl in Hnd. apply NoDup_remove_2 in Hnd.
      intros Hin. apply Hnd. apply in_or_app. left. exact Hin. }
    split.
    + rewrite keys_set_new by (rewrite Q1; exact Hfresh).
      rewrite Q1. unfold Dict.keys. rewrite map_app. reflexivity.
    + apply Forall_app. split.
      * rewrite Forall_forall in Q2 |- *. intros kv Hkv.
        destruct (Q2 kv Hkv) as (c & Hc & Hmc). exists c. split; [|exact Hmc].
        rewrite get_set_other; [exact Hc|].
        intros Eq. apply Hfresh. rewrite <- Eq.
        unfold Dict.keys. apply in_map. exact Hkv.
      * constructor; [|constructor].
        exists a0. split; [apply get_set_same | exact Hm].
  - split; [reflexivity | constructor].
Qed.

End SceneRecScene.

(** An entity with the described structure is reached along every path of
    the description. *)
Lemma mirrors_entity_at (path : list string) :
  forall (d d' : IEntityDesc) (e : Entity),
    mirrors d e -> desc_at path d = Some d' ->
    exists e', entity_at path e = Some e' /\ mirrors d' e'.
Proof.
  induction path as [|k path IH]; intros d d' e Hm Hat; simpl in *.
  - inversion Hat; subst. exists e. split; [reflexivity | exact Hm].
  - destruct (Dict.get k (desc_children d)) as [cd|] eqn:Hget; [|discriminate].
    apply mirrors_unfold in Hm. destruct Hm as (_ & _ & Hall).
    rewrite Forall_forall in Hall.
    destruct (Hall (k, cd) (get_In _ _ Hget)) as (c & Hc & Hmc). simpl in Hc, Hmc.
    rewrite Hc. apply (IH cd d' c Hmc Hat).
Qed.

Lemma findRecurse_unfold (objectName : string) (ent : Entity) :
  SceneRec.findRecurse objectName ent
  = match getChild objectName ent with
    | Some foundObject => Some foundObject
    | None => first_some (fun kv => SceneRec.findRecurse objectName (snd kv))
                         (children ent)
    end.
Proof. destruct ent; reflexivity. Qed.

(** Below an entity with the described structure, [findRecurse] finds an
    entity for every name of the description. *)
Lemma mirrors_findRecurse (n : string) (d : IEntityDesc) :
  forall e, mirrors d e -> In n (desc_names d) ->
            exists e', SceneRec.findRecurse n e = Some e'.
Proof.
  induction d as [cs ch IH] using IEntityDesc_induction.
  intros e Hm Hn. simpl in Hn. apply in_flat_map in Hn.
  destruct Hn as (kv & Hkv & Hn).
  apply mirrors_unfold in Hm. destruct Hm as (_ & _ & Hall). simpl in Hall.
  rewrite Forall_forall in Hall, IH.
  destruct (Hall kv Hkv) as (c & Hc & Hmc).
  rewrite findRecurse_unfold.
  destruct (getChild n e) as [found|] eqn:Hget; [eauto|].
  destruct Hn as [Hn|Hn].
  - subst n. congruence.
  - destruct (IH kv Hkv c Hmc Hn) as (e' & He').
    destruct (first_some (fun kv0 => SceneRec.findRecurse n (snd kv0)) (children e))
      as [found|] eqn:Hfs; [eauto|].
    rewrite first_some_None in Hfs.
    specialize (Hfs (fst kv, c) (get_In _ _ Hc)). simpl in Hfs. congruence.
Qed.

(** On the scene built from a description, [findObject] resolves for every
    entity name of the description, at any depth. *)
Lemma new_Scene_findObject (creators : string -> bool) (description : ISceneDesc)
    (w w' : World) (s : Scene) (n : string) :
  wf_scene_desc description = true ->
  SceneRec.new_Scene creators description w = (Normal s, w') ->
  In n (scene_names description) ->
  exists e, SceneRec.findObject n s = Normal e.
Proof.
  intros Hwf H Hn. destruct (new_Scene_roots _ _ _ Hwf H) as (_ & Hroots).
  rewrite Forall_forall in Hroots.
  unfold scene_names in Hn. apply in_flat_map in Hn. destruct Hn as (kv & Hkv & Hn).
  destruct (Hroots kv Hkv) as (e & He & Hm).
  unfold SceneRec.findObject.
  destruct (Dict.get n (scenes s)) as [r|] eqn:Hget; [eauto|].
  destruct Hn as [Hn|Hn]; [subst n; congruence|].
  destruct (mirrors_findRecurse n (snd kv) e Hm Hn) as (e' & He').
  destruct (first_some (fun kv0 => SceneRec.findRecurse n (snd kv0)) (scenes s))
    as [found|] eqn:Hfs; [eauto|].
  rewrite first_some_None in Hfs.
  specialize (Hfs (fst kv, e) (get_In _ _ He)). simpl in Hfs. congruence.
Qed.

(** ** The configuration pass, recursive revision *)

Lemma new_Promise_inv (executor : M Promise) (w w' : World) (r : Completion Promise) :
  new_Promise executor w = (r, w') ->
  exists r0, executor w = (r0, w') /\
             r = Normal (match r0 with Normal p => p | Throw e => Rejected e end).
Proof.
  unfold new_Promise. destruct (executor w) as [[p|e] w1]; intros H;
    inversion H; subst; eauto.
Qed.

Section SceneRecSetup.

Variable creators : string -> bool.
Variable setup : IComponent -> Payload -> option Scene -> SetupResult.
Variable scene : Scene.
Variable before : list SetupCall.

Lemma call_setup_sees (comp : IComponent) (desc : Payload) (w w' : World)
    (r : Completion Promise) :
  sees scene before w -> call_setup setup comp desc w = (r, w') ->
  sees scene before w'.
Proof.
  intros (Hcur & calls & Hcalls & Hall) H. unfold call_setup in H.
  assert (G : sees scene before
                (mkWorld (current w) (nextId w)
                   (setups w ++ [mkSetupCall comp desc (current w)
                                   (setup comp desc (current w))])
                   (visits w))).
  { split; [exact Hcur|]. simpl.
    exists (calls ++ [mkSetupCall comp desc (current w)
                        (setup comp desc (current w))]).
    split; [rewrite Hcalls, app_assoc; reflexivity|].
    apply Forall_app. split; [exact Hall|].
    constructor; [exact Hcur | constructor]. }
  destruct (setup comp desc (current w)); inversion H; subst; exact G.
Qed.

Lemma setup_component_sees (x : option Entity) (type : string) (desc : Payload)
    (w w' : World) (r : Completion Promise) :
  sees scene before w -> setup_component setup x type desc w = (r, w') ->
  sees scene before w'.
Proof.
  intros Hs H. unfold setup_component in H.
  destruct x as [entity|]; [|inversion H; subst; exact Hs].
  destruct (getComponent type entity) as [[comp|]|e];
    try (inversion H; subst; exact Hs).
  eapply call_setup_sees; eauto.
Qed.

Lemma current_findObject_inv (objectName : string) (w w' : World)
    (r : Completion Entity) :
  SceneRec.current_findObject objectName w = (r, w') ->
  w' = w /\
  match current w with
  | None => r = Throw TypeError
  | Some s =>
      match SceneRec.findObject objectName s with
      | Normal e => r = Normal e
      | Throw e => r = Throw e
      end
  end.
Proof.
  unfold SceneRec.current_findObject, bind, get_current, ret, throw.
  destruct (current w) as [s|]; [|intros H; inversion H; auto].
  destruct (SceneRec.findObject objectName s); intros H; inversion H; auto.
Qed.

Lemma setupChildrenRecurse_unfold (child : Entity) (desc : option IEntityDesc) :
  SceneRec.setupChildrenRecurse setup child desc
  = new_Promise
      match desc with
      | None => throw TypeError
      | Some d =>
          bind (foldM (fun _ kv =>
                         bind (setup_component setup (Some child) (fst kv) (snd kv))
                              (fun _ => ret tt))
                      (desc_components d) tt)
            (fun _ =>
               bind (foldM (fun _ kv =>
                              bind (SceneRec.setupChildrenRecurse setup (snd kv)
                                      (Dict.get (fst kv) (desc_children d)))
                                   (fun _ => ret tt))
                           (children child) tt)
                    (fun _ => ret (AfterAll [])))
      end.
Proof. destruct child; reflexivity. Qed.

(** The component loop of [setupChildrenRecurse]. *)
Lemma setup_loop_sees (x : option Entity) (descs : list (string * Payload))
    (w w' : World) (r : Completion unit) :
  sees scene before w ->
  foldM (fun _ kv =>
           bind (setup_component setup x (fst kv) (snd kv)) (fun _ => ret tt))
        descs tt w = (r, w') ->
  sees scene before w'.
Proof.
  apply (foldM_world _ (sees scene before)).
  intros kv b w0 r0 w0' _ HP Hf.
  bind_inv Hf; inversion Hf; subst; eapply setup_component_sees; eauto.
Qed.

Lemma setupChildrenRecurse_sees (child : Entity) :
  forall (desc : option IEntityDesc) (w w' : World) (r : Completion Promise),
    sees scene before w ->
    SceneRec.setupChildrenRecurse setup child desc w = (r, w') ->
    sees scene before w'.
Proof.
  induction child as [cs ch IH] using Entity_induction.
  intros desc w w' r Hs H. rewrite setupChildrenRecurse_unfold in H.
  apply new_Promise_inv in H. destruct H as (r0 & H & _).
  destruct desc as [d|]; [|inversion H; subst; exact Hs].
  bind_inv H.
  - apply (setup_loop_sees _ _ Hs) in E. clear Hs.
    assert (L : forall r1 w2,
               foldM (fun _ kv =>
                        bind (SceneRec.setupChildrenRecurse setup (snd kv)
                                (Dict.get (fst kv) (desc_children d)))
                             (fun _ => ret tt))
                     (children (mkEntity cs ch)) tt w0 = (r1, w2) ->
               sees scene before w2).
    { intros r1 w2. apply (foldM_world _ (sees scene before)); [|exact E].
      intros kv b w3 r3 w3' Hkv HP Hf. simpl in Hkv.
      rewrite Forall_forall in IH.
      bind_inv Hf; inversion Hf; subst; eapply (IH kv Hkv); eauto. }
    bind_inv H; inversion H; subst; eapply L; eauto.
  - inversion H; subst. eapply setup_loop_sees; eauto.
Qed.

Lemma setupChildrenRecurse_opt_sees (child : option Entity) (desc : IEntityDesc)
    (w w' : World) (r : Completion Promise) :
  sees scene before w ->
  SceneRec.setupChildrenRecurse_opt setup child desc w = (r, w') ->
  sees scene before w'.
Proof.
  intros Hs H. destruct child as [e|]; simpl in H.
  - eapply setupChildrenRecurse_sees; eauto.
  - inversion H; subst. exact Hs.
Qed.

(** One turn of the component loop of [create]. *)
Lemma create_component_turn_sees (obj type : string) (desc : Payload)
    (ps : list Promise) (w w' : World) (r : Completion (list Promise)) :
  sees scene before w ->
  bind (SceneRec.current_findObject obj)
    (fun e => bind (setup_component setup (Some e) type desc)
                (fun p => ret (ps ++ [p]))) w = (r, w') ->
  sees scene before w'.
Proof.
  intros Hs H. bind_inv H.
  - apply current_findObject_inv in E. destruct E as (-> & _).
    bind_inv H; inversion H; subst; eapply setup_component_sees; eauto.
  - apply current_findObject_inv in E. destruct E as (-> & _).
    inversion H; subst. exact Hs.
Qed.

(** One turn of the children loop of [create]. *)
Lemma create_child_turn_sees (obj child : string) (desc : IEntityDesc)
    (ps : list Promise) (w w' : World) (r : Completion (list Promise)) :
  sees scene before w ->
  bind (SceneRec.current_findObject obj)
    (fun e => bind (SceneRec.setupChildrenRecurse_opt setup (getChild child e) desc)
                (fun p => ret (ps ++ [p]))) w = (r, w') ->
  sees scene before w'.
Proof.
  intros Hs H. bind_inv H.
  - apply current_findObject_inv in E. destruct E as (-> & _).
    bind_inv H; inversion H; subst; eapply setupChildrenRecurse_opt_sees; eauto.
  - apply current_findObject_inv in E. destruct E as (-> & _).
    inversion H; subst. exact Hs.
Qed.

Lemma create_turn_sees (promises : list Promise) (kv : string * IEntityDesc)
    (w w' : World) (r : Completion (list Promise)) :
  sees scene before w -> create_turn setup promises kv w = (r, w') ->
  sees scene before w'.
Proof.
  intros Hs H. unfold create_turn in H. bind_inv H.
  - assert (Hs0 : sees scene before w0).
    { revert E. apply (foldM_world _ (sees scene before)); [|exact Hs].
      intros x b w1 r1 w1' _ HP. apply create_component_turn_sees. exact HP. }
    revert H. apply (foldM_world _ (sees scene before)); [|exact Hs0].
    intros x b w1 r1 w1' _ HP. apply create_child_turn_sees. exact HP.
  - inversion H; subst.
    revert E. apply (foldM_world _ (sees scene before)); [|exact Hs].
    intros x b w1 r1 w1' _ HP. apply create_component_turn_sees. exact HP.
Qed.

Lemma create_unfold (description : ISceneDesc) :
  SceneRec.create creators setup description
  = new_Promise
      (bind (SceneRec.new_Scene creators description)
         (fun s => bind (set_current s)
            (fun _ => bind (foldM (create_turn setup) description [])
               (fun setupPromises => ret (AfterAll setupPromises))))).
Proof. reflexivity. Qed.

End SceneRecSetup.

Lemma new_Promise_snd (executor : M Promise) (w : World) :
  snd (new_Promise executor w) = snd (executor w).
Proof. unfold new_Promise. destruct (executor w) as [[p|e] w1]; reflexivity. Qed.

Lemma new_Promise_fst (executor : M Promise) (w : World) :
  fst (new_Promise executor w)
  = Normal (match fst (executor w) with Normal p => p | Throw e => Rejected e end).
Proof. unfold new_Promise. destruct (executor w) as [[p|e] w1]; reflexivity. Qed.

(** What [create] does once the constructor has returned [scene]: it makes
    [scene] the active scene and runs the configuration loop from there. *)
Lemma create_after_construction (creators : string -> bool)
    (setup : IComponent -> Payload -> option Scene -> SetupResult)
    (description : ISceneDesc) (w wc : World) (scene : Scene) :
  SceneRec.new_Scene creators description w = (Normal scene, wc) ->
  let w1 := mkWorld (Some scene) (nextId wc) (setups wc) (visits wc) in
  sees scene (setups w) w1 /\
  SceneRec.create creators setup description w
  = match foldM (create_turn setup) description [] w1 with
    | (Normal ps, w') => (Normal (AfterAll ps), w')
    | (Throw e, w') => (Normal (Rejected e), w')
    end.
Proof.
  intros H w1. split.
  - apply new_Scene_same_process in H. destruct H as (_ & Hs & _).
    split; [reflexivity|]. exists []. simpl. rewrite app_nil_r.
    split; [exact Hs | constructor].
  - rewrite create_unfold. unfold new_Promise, bind at 1. rewrite H.
    unfold bind at 1. simpl. fold w1. unfold bind.
    destruct (foldM (create_turn setup) description [] w1) as [[ps|e] w']; reflexivity.
Qed.

Lemma create_loop_sees (setup : IComponent -> Payload -> option Scene -> SetupResult)
    (scene : Scene) (before : list SetupCall) (description : ISceneDesc)
    (ps : list Promise) (w w' : World) (r : Completion (list Promise)) :
  sees scene before w ->
  foldM (create_turn setup) description ps w = (r, w') ->
  sees scene before w'.
Proof.
  apply (foldM_world _ (sees scene before)).
  intros x b w0 r0 w0' _ HP. apply create_turn_sees. exact HP.
Qed.

(** After a successful construction, [create] leaves the new scene active
    and every [setup] it called could see it. *)
Lemma create_activates_built_scene_aux (creators : string -> bool)
    (setup : IComponent -> Payload -> option Scene -> SetupResult)
    (description : ISceneDesc) (w wc : World) (scene : Scene) :
  SceneRec.new_Scene creators description w = (Normal scene, wc) ->
  current (snd (SceneRec.create creators setup description w)) = Some scene /\
  exists calls,
    setups (snd (SceneRec.create creators setup description w))
    = setups w ++ calls /\
    Forall (fun c => sc_current c = Some scene) calls.
Proof.
  intros H.
  destruct (@create_after_construction creators setup description w wc scene H)
    as (Hs & Hc).
  assert (G : sees scene (setups w)
                (snd (SceneRec.create creators setup description w))).
  { rewrite Hc.
    destruct (foldM (create_turn setup) description []
                (mkWorld (Some scene) (nextId wc) (setups wc) (visits wc)))
      as [[ps|e] w'] eqn:E; simpl; eapply create_loop_sees; eauto. }
  exact G.
Qed.

(** ** Failing setups *)



Lemma status_AfterAll_pending (st : nat -> Status) (ps : list Promise) (q : Promise) :
  In q ps -> is_fulfilled (status st q) = false -> status st (AfterAll ps) = Pending.
Proof.
  intros Hin Hq. simpl.
  destruct (forallb (fun q0 => is_fulfilled (status st q0)) ps) eqn:E; [|reflexivity].
  rewrite forallb_forall in E. rewrite (E q Hin) in Hq. discriminate.
Qed.

(** A loop whose turns only push leaves what was pushed before in place. *)
Lemma foldM_grows {A X : Type} (f : list X -> A -> M (list X)) (l : list A) :
  (forall b x w b' w', In x l -> f b x w = (Normal b', w') ->
                       exists extra, b' = b ++ extra) ->
  forall b w b' w', foldM f l b w = (Normal b', w') -> exists extra, b' = b ++ extra.
Proof.
  intros Hstep b w b' w'.
  apply (foldM_prefix f (fun _ b0 _ => exists extra, b0 = b ++ extra)).
  - intros pre x post b0 w0 b1 w1 El (extra & ->) Hf.
    destruct (Hstep _ x _ _ _ (eq_ind_r (fun l0 => In x l0) (in_elt x pre post) El) Hf)
      as (extra' & ->).
    exists (extra ++ extra'). rewrite app_assoc. reflexivity.
  - exists []. rewrite app_nil_r. reflexivity.
Qed.

Section SceneRecFailure.

Variable setup : IComponent -> Payload -> option Scene -> SetupResult.
Variable scene : Scene.


Lemma create_component_turn_grows (obj : string) (ckv : string * Payload)
    (ps ps' : list Promise) (w w' : World) :
  bind (SceneRec.current_findObject obj)
    (fun e0 => bind (setup_component setup (Some e0) (fst ckv) (snd ckv))
                 (fun p => ret (ps ++ [p]))) w = (Normal ps', w') ->
  exists extra, ps' = ps ++ extra.
Proof.
  intros H. bind_inv H. bind_inv H. inversion H; subst. eauto.
Qed.

Lemma create_child_turn_grows (obj : string) (ckv : string * IEntityDesc)
    (ps ps' : list Promise) (w w' : World) :
  bind (SceneRec.current_findObject obj)
    (fun e0 => bind (SceneRec.setupChildrenRecurse_opt setup
                       (getChild (fst ckv) e0) (snd ckv))
                 (fun p => ret (ps ++ [p]))) w = (Normal ps', w') ->
  exists extra, ps' = ps ++ extra.
Proof.
  intros H. bind_inv H. bind_inv H. inversion H; subst. eauto.
Qed.

Lemma create_turn_grows (kv : string * IEntityDesc) (ps ps' : list Promise)
    (w w' : World) :
  create_turn setup ps kv w = (Normal ps', w') -> exists extra, ps' = ps ++ extra.
Proof.
  intros H. unfold create_turn in H. bind_inv H.
  apply foldM_grows in E;
    [|intros b x w1 b' w1' _; apply create_component_turn_grows].
  apply foldM_grows in H;
    [|intros b x w1 b' w1' _; apply create_child_turn_grows].
  destruct E as (x1 & ->). destruct H as (x2 & ->).
  exists (x1 ++ x2). rewrite app_assoc. reflexivity.
Qed.

End SceneRecFailure.

(** C4, as stated, fails.  The only component of the description hands
    back a promise that fails: the promise of [create] is then neither
    failed nor completed, it stays pending; and the scene that was active
    before, [old_scene], has been replaced by the new one.  Both revisions
    of [create] behave so. *)
Lemma create_failing_setup_counterexample :
  SceneRec.create factory_creators Inputs.setup_async Inputs.root_texture
    Inputs.old_world
  = (Normal (AfterAll [External 0]),
     mkWorld (Some Inputs.root_texture_scene) 1
       [mkSetupCall (mkComponent "Texture" 0) "missing.png"
          (Some Inputs.root_texture_scene) (SPromise 0)] []) /\
  SceneFlat.create factory_creators Inputs.setup_async Inputs.root_texture
    Inputs.old_world
  = (Normal (AfterAll [External 0]),
     mkWorld (Some Inputs.root_texture_scene) 1
       [mkSetupCall (mkComponent "Texture" 0) "missing.png"
          (Some Inputs.root_texture_scene) (SPromise 0)] []) /\
  Inputs.all_failed 0 = Failed /\
  status Inputs.all_failed (AfterAll [External 0]) = Pending /\
  current Inputs.old_world = Some Inputs.old_scene /\
  Inputs.root_texture_scene <> Inputs.old_scene.
Proof.
  repeat split; try reflexivity. discriminate.
Qed.

(** ** Where the code departs from the specification *)

(** C1.  The constructor of [scene.ts] stops at the children of the roots.
    The description [three_levels] names the entity [C], a child of [B];
    the scene built from it has [B] under [A] but nothing under [B], and
    [create] completes all the same.  The recursive revision builds [C]
    with its component. *)
Theorem flat_constructor_stops_at_children :
  In "C" (scene_names Inputs.three_levels) /\
  SceneFlat.new_Scene factory_creators Inputs.three_levels world0
  = (Normal Built.three_levels_flat, world0) /\
  Dict.get "A" (scenes Built.three_levels_flat)
  = Some (mkEntity [] [("B", mkEntity [] [])]) /\
  entity_at ["B"] (mkEntity [] [("B", mkEntity [] [])]) = Some (mkEntity [] []) /\
  entity_at ["B"; "C"] (mkEntity [] [("B", mkEntity [] [])]) = None /\
  fst (SceneFlat.create factory_creators Inputs.setup_void Inputs.three_levels world0)
  = Normal (AfterAll []) /\
  status Inputs.all_pending (AfterAll []) = Fulfilled /\
  SceneRec.new_Scene factory_creators Inputs.three_levels world0
  = (Normal Built.three_levels_rec, mkWorld None 1 [] []).
Proof.
  split; [right; right; left; reflexivity|].
  repeat split; reflexivity.
Qed.

(** C2.  [create] of the recursive revision does not wait for the setups
    below the roots.  In [child_texture] the component of the child [B]
    hands back the promise 0; [create] calls that [setup], but its promise
    awaits only the promise of [setupChildrenRecurse], which awaits nothing:
    it is completed while the promise 0 is still pending. *)
Theorem rec_create_completes_before_child_setup :
  SceneRec.create factory_creators Inputs.setup_async Inputs.child_texture world0
  = (Normal (AfterAll [AfterAll []]),
     mkWorld (Some Built.child_texture) 1
       [mkSetupCall (mkComponent "Texture" 0) "ball.png"
          (Some Built.child_texture) (SPromise 0)] []) /\
  Inputs.all_pending 0 = Pending /\
  status Inputs.all_pending (AfterAll [AfterAll []]) = Fulfilled.
Proof. repeat split; reflexivity. Qed.

(** In [scene.ts], [create] never calls the [setup] of a component below
    the children of the roots: for [three_levels] no [setup] is called. *)
Lemma flat_create_skips_grandchildren :
  SceneFlat.create factory_creators Inputs.setup_async Inputs.three_levels world0
  = (Normal (AfterAll []), mkWorld (Some Built.three_levels_flat) 0 [] []).
Proof. reflexivity. Qed.

(** C3.  [findObject] of [scene.ts] does not fail on an unknown name and
    does not return the first match: on the scene built from [two_parents]
    it returns [undefined] for [C], which names no entity, and for [x] the
    child of the last root [B], not that of the first root [A].  The
    recursive revision throws for [C] and returns the child of [A]. *)
Theorem flat_findObject_unknown_and_last :
  SceneFlat.new_Scene factory_creators Inputs.two_parents world0
  = (Normal Built.two_parents, mkWorld None 2 [] []) /\
  ~ In "C" (map snd (scene_entities Built.two_parents)) /\
  SceneFlat.findObject "C" Built.two_parents = None /\
  SceneFlat.findObject "x" Built.two_parents
  = Some (mkEntity [mkComponent "Motion" 1] []) /\
  SceneRec.findObject "C" Built.two_parents
  = Throw (Error "Did not find the object C") /\
  SceneRec.findObject "x" Built.two_parents
  = Normal (mkEntity [mkComponent "Position" 0] []).
Proof.
  split; [reflexivity|]. split.
  - simpl. intros H. repeat (destruct H as [H|H]; [discriminate H|]). exact H.
  - repeat split; reflexivity.
Qed.

(** C5.  [walk] of the recursive revision visits [A] and its child [B]
    once each, but its promise completes as soon as one of the two visits
    has: with the visit of [A] completed and that of [B] pending, and also
    the other way round.  On three levels the promise of the visit of [C]
    is not part of the promise of [walk] at all. *)
Theorem rec_walk_completes_before_visits :
  SceneRec.walk Inputs.walker_by_name Inputs.parent_child_scene world0
  = (Normal Built.walk_promise,
     mkWorld None 0 []
       [(mkEntity [mkComponent "Position" 0]
           [("B", mkEntity [mkComponent "Position" 1] [])], "A");
        (mkEntity [mkComponent "Position" 1] [], "B")]) /\
  Inputs.only_fulfilled 0 1 = Pending /\
  status (Inputs.only_fulfilled 0) Built.walk_promise = Fulfilled /\
  Inputs.only_fulfilled 1 0 = Pending /\
  status (Inputs.only_fulfilled 1) Built.walk_promise = Fulfilled /\
  fst (SceneRec.walk Inputs.walker_by_name Built.three_levels_rec world0)
  = Normal Built.walk_promise /\
  map snd (visits (snd (SceneRec.walk Inputs.walker_by_name
                          Built.three_levels_rec world0)))
  = ["A"; "B"; "C"].
Proof. repeat split; reflexivity. Qed.

(** In [scene.ts], [walk] awaits the visits of the roots only. *)
Lemma flat_walk_awaits_roots_only :
  fst (SceneFlat.walk Inputs.walker_by_name Inputs.parent_child_scene world0)
  = Normal (AfterAll [AfterAny [External 0]]) /\
  map snd (visits (snd (SceneFlat.walk Inputs.walker_by_name
                          Inputs.parent_child_scene world0)))
  = ["B"; "A"] /\
  status (Inputs.only_fulfilled 0) (AfterAll [AfterAny [External 0]]) = Fulfilled.
Proof. repeat split; reflexivity. Qed.

(** C8.  [create] of [scene.ts] makes the new scene the active one before
    the first [setup], but that scene is not the whole tree: its
    constructor stops at the children of the roots.  The description
    [referee_three_levels] names the entity [C] below the child [B].  When
    the [setup] of the root's component is called, the active scene is the
    new one, and [findObject] on it finds no [C]: the lookup gives
    [undefined].  In the recursive revision the same [setup] sees a scene
    on which [findObject] returns the entity [C]. *)
Theorem flat_setup_cannot_find_grandchild :
  In "C" (scene_names Inputs2.referee_three_levels) /\
  SceneFlat.create factory_creators Inputs.setup_void Inputs2.referee_three_levels
    Inputs.old_world
  = (Normal (AfterAll [Plain]),
     mkWorld (Some Inputs2.referee_flat) 1
       [mkSetupCall (mkComponent "Referee" 0) "{players:[],ball:'C'}"
          (Some Inputs2.referee_flat) SVoid] []) /\
  SceneFlat.findObject "C" Inputs2.referee_flat = None /\
  SceneRec.create factory_creators Inputs.setup_void Inputs2.referee_three_levels
    Inputs.old_world
  = (Normal (AfterAll [Plain; AfterAll []]),
     mkWorld (Some Inputs2.referee_rec) 2
       [mkSetupCall (mkComponent "Referee" 0) "{players:[],ball:'C'}"
          (Some Inputs2.referee_rec) SVoid;
        mkSetupCall (mkComponent "Position" 1) "{x:2,y:2}"
          (Some Inputs2.referee_rec) SVoid] []) /\
  SceneRec.findObject "C" Inputs2.referee_rec
  = Normal (mkEntity [mkComponent "Position" 1] []).
Proof.
  split; [right; right; left; reflexivity|].
  repeat split; reflexivity.
Qed.

(** ** Lookup, recursive revision *)

(** What [findRecurse] returns is an entity below [ent] stored under the
    requested name. *)
Lemma findRecurse_sound (n : string) (ent : Entity) :
  forall found, SceneRec.findRecurse n ent = Some found ->
                In (found, n) (descendants ent).
Proof.
  induction ent as [cs ch IH] using Entity_induction.
  intros found H. rewrite findRecurse_unfold in H. simpl.
  apply in_flat_map. unfold getChild in H. simpl in H.
  destruct (Dict.get n ch) as [c|] eqn:Hget.
  - inversion H; subst. exists (n, found). split; [apply get_In; exact Hget|].
    left. reflexivity.
  - apply first_some_In in H. destruct H as (kv & Hkv & Hf).
    rewrite Forall_forall in IH. exists kv. split; [exact Hkv|].
    right. apply (IH kv Hkv found Hf).
Qed.

(** [findRecurse] returns an entity whenever one below [ent] is stored
    under the requested name, at any depth. *)
Lemma findRecurse_complete (n : string) (ent : Entity) :
  In n (map snd (descendants ent)) ->
  exists found, SceneRec.findRecurse n ent = Some found.
Proof.
  induction ent as [cs ch IH] using Entity_induction.
  intros H. apply in_map_iff in H. destruct H as ([f0 n0] & En & H).
  simpl in En. subst n0. simpl in H. apply in_flat_map in H.
  destruct H as (kv & Hkv & H).
  rewrite findRecurse_unfold. unfold getChild. simpl.
  destruct (Dict.get n ch) as [c|] eqn:Hget; [eauto|].
  apply get_None in Hget.
  destruct H as [H|H].
  - inversion H; subst. exfalso. apply Hget. unfold Dict.keys.
    apply in_map. exact Hkv.
  - rewrite Forall_forall in IH.
    destruct (IH kv Hkv) as (found & Hfound).
    { apply in_map_iff. exists (f0, n). split; [reflexivity | exact H]. }
    destruct (first_some (fun kv0 => SceneRec.findRecurse n (snd kv0)) ch)
      as [r|] eqn:Hfs; [eauto|].
    rewrite first_some_None in Hfs. rewrite (Hfs kv Hkv) in Hfound. discriminate.
Qed.

(** [findObject] returns only entities of the scene stored under the
    requested name. *)
Lemma rec_findObject_sound (n : string) (s : Scene) (found : Entity) :
  SceneRec.findObject n s = Normal found -> In (found, n) (scene_entities s).
Proof.
  unfold SceneRec.findObject, scene_entities. intros H. apply in_flat_map.
  destruct (Dict.get n (scenes s)) as [r|] eqn:Hget.
  - inversion H; subst. exists (n, found). split; [apply get_In; exact Hget|].
    left. reflexivity.
  - destruct (first_some (fun kv => SceneRec.findRecurse n (snd kv)) (scenes s))
      as [r|] eqn:Hfs; [|discriminate].
    inversion H; subst. apply first_some_In in Hfs.
    destruct Hfs as (kv & Hkv & Hf). exists kv. split; [exact Hkv|].
    right. apply findRecurse_sound. exact Hf.
Qed.

(** [findObject] throws exactly when no entity of the scene, at any depth,
    is stored under the requested name; it never returns [undefined]. *)
Lemma rec_findObject_throws_iff (n : string) (s : Scene) :
  SceneRec.findObject n s = Throw (Error ("Did not find the object " ++ n))
  <-> ~ In n (map snd (scene_entities s)).
Proof.
  unfold SceneRec.findObject, scene_entities. split.
  - intros H Hin.
    destruct (Dict.get n (scenes s)) as [r|] eqn:Hget; [discriminate|].
    destruct (first_some (fun kv => SceneRec.findRecurse n (snd kv)) (scenes s))
      as [r|] eqn:Hfs; [discriminate|].
    apply get_None in Hget. rewrite first_some_None in Hfs.
    apply in_map_iff in Hin. destruct Hin as ([f0 n0] & En & Hin).
    simpl in En. subst n0. apply in_flat_map in Hin.
    destruct Hin as (kv & Hkv & [Hin|Hin]).
    + inversion Hin; subst. apply Hget. unfold Dict.keys. apply in_map. exact Hkv.
    + destruct (findRecurse_complete n (snd kv)) as (found & Hfound).
      { apply in_map_iff. exists (f0, n). split; [reflexivity | exact Hin]. }
      rewrite (Hfs kv Hkv) in Hfound. discriminate.
  - intros Hno.
    destruct (Dict.get n (scenes s)) as [r|] eqn:Hget.
    + exfalso. apply Hno. apply in_map_iff. exists (r, n). split; [reflexivity|].
      apply in_flat_map. exists (n, r). split; [apply get_In; exact Hget|].
      left. reflexivity.
    + destruct (first_some (fun kv => SceneRec.findRecurse n (snd kv)) (scenes s))
        as [r|] eqn:Hfs; [|reflexivity].
      exfalso. apply Hno. apply first_some_In in Hfs.
      destruct Hfs as (kv & Hkv & Hf). apply findRecurse_sound in Hf.
      apply in_map_iff. exists (r, n). split; [reflexivity|].
      apply in_flat_map. exists kv. split; [exact Hkv | right; exact Hf].
Qed.

(** ** Traversal, recursive revision *)

(** A loop whose turns all return: it returns, and an invariant over the
    turns done holds at the end. *)
Lemma foldM_total {A B : Type} (f : B -> A -> M B)
    (Q : list A -> B -> World -> Prop) (l : list A) :
  (forall pre x post b w,
      l = pre ++ x :: post -> Q pre b w ->
      exists b' w', f b x w = (Normal b', w') /\ Q (pre ++ [x]) b' w') ->
  forall b w, Q [] b w ->
              exists b' w', foldM f l b w = (Normal b', w') /\ Q l b' w'.
Proof.
  intros Hstep.
  assert (G : forall post pre b w,
             l = pre ++ post -> Q pre b w ->
             exists b' w', foldM f post b w = (Normal b', w') /\ Q l b' w').
  { induction post as [|x post IH]; intros pre b w El HQ.
    - exists b, w. rewrite El, app_nil_r. split; [reflexivity | exact HQ].
    - destruct (Hstep pre x post b w El HQ) as (b1 & w1 & Hf & HQ1).
      destruct (IH (pre ++ [x]) b1 w1) as (b' & w' & Hfold & HQ').
      + rewrite <- app_assoc. exact El.
      + exact HQ1.
      + exists b', w'. simpl. rewrite Hf. split; assumption. }
  intros b w HQ. apply (G l [] b w); [reflexivity | exact HQ].
Qed.

Section SceneRecWalk.

Variable fn : Entity -> string -> VisitResult.

(** The walker returns a promise on every entity: it never throws. *)
Hypothesis fn_returns : forall e n, exists p, fn e n = VPromise p.

Lemma call_fn_visited (e : Entity) (n : string) (w : World) :
  exists p, call_fn fn e n w
            = (Normal (External p),
               mkWorld (current w) (nextId w) (setups w) (visits w ++ [(e, n)])).
Proof.
  unfold call_fn. destruct (fn_returns e n) as (p & ->). eauto.
Qed.

Lemma walkChildrenRecurse_unfold (entity : Entity) (name : string) :
  SceneRec.walkChildrenRecurse fn entity name
  = new_Promise
      (bind (call_fn fn entity name)
         (fun p =>
            bind (foldM (fun _ kv =>
                           bind (SceneRec.walkChildrenRecurse fn (snd kv) (fst kv))
                                (fun _ => ret tt))
                        (children entity) tt)
                 (fun _ => ret (AfterAny [p])))).
Proof. destruct entity; reflexivity. Qed.

(** [walkChildrenRecurse] visits the entity, then everything below it,
    each once. *)
Lemma walkChildrenRecurse_visits (entity : Entity) :
  forall name w, exists p,
    SceneRec.walkChildrenRecurse fn entity name w
    = (Normal p,
       mkWorld (current w) (nextId w) (setups w)
         (visits w ++ (entity, name) :: descendants entity)).
Proof.
  induction entity as [cs ch IH] using Entity_induction.
  intros name w. rewrite walkChildrenRecurse_unfold.
  unfold new_Promise, bind at 1.
  destruct (call_fn_visited (mkEntity cs ch) name w) as (p0 & ->).
  unfold bind at 1. simpl children.
  destruct (@foldM_total _ _
              (fun (_ : unit) kv =>
                 bind (SceneRec.walkChildrenRecurse fn (snd kv) (fst kv))
                      (fun _ => ret tt))
              (fun pre _ w' =>
                 w' = mkWorld (current w) (nextId w) (setups w)
                        (visits w ++ (mkEntity cs ch, name)
                           :: flat_map (fun kv => (snd kv, fst kv) :: descendants (snd kv))
                                pre))
              ch) with (b := tt)
      (w := mkWorld (current w) (nextId w) (setups w)
              (visits w ++ [(mkEntity cs ch, name)]))
    as (b' & w' & Hfold & Hw').
  - intros pre x post b w1 El ->.
    assert (Hx : In x ch) by (rewrite El; apply in_elt).
    rewrite Forall_forall in IH.
    destruct (IH x Hx (fst x)
                (mkWorld (current w) (nextId w) (setups w)
                   (visits w ++ (mkEntity cs ch, name)
                      :: flat_map (fun kv => (snd kv, fst kv) :: descendants (snd kv))
                           pre))) as (p & Hp).
    exists tt. eexists. unfold bind. rewrite Hp. split; [reflexivity|].
    simpl. rewrite flat_map_app. simpl. rewrite app_nil_r.
    rewrite <- !app_assoc. reflexivity.
  - reflexivity.
  - rewrite Hfold. subst w'. eexists. reflexivity.
Qed.

(** [walk] applies the walker once to every root and once to every entity
    below a root, at every depth. *)
Lemma rec_walk_visits_all (s : Scene) (w : World) :
  visits (snd (SceneRec.walk fn s w)) = visits w ++ scene_entities s.
Proof.
  unfold SceneRec.walk. rewrite new_Promise_snd. unfold bind at 1.
  destruct (@foldM_total _ _
              (fun promises kv =>
                 bind (new_Promise
                         (bind (call_fn fn (snd kv) (fst kv))
                            (fun p0 =>
                               bind (foldM (fun ps ckv =>
                                              bind (SceneRec.walkChildrenRecurse fn
                                                      (snd ckv) (fst ckv))
                                                   (fun q => ret (ps ++ [q])))
                                           (children (snd kv)) [])
                                    (fun ps => ret (AfterAny (p0 :: ps))))))
                      (fun p => ret (promises ++ [p])))
              (fun pre _ w' =>
                 w' = mkWorld (current w) (nextId w) (setups w)
                        (visits w
                         ++ flat_map (fun kv => (snd kv, fst kv) :: descendants (snd kv))
                              pre))
              (scenes s)) with (b := @nil Promise) (w := w)
    as (b' & w' & Hfold & Hw').
  - intros pre x post b w1 El ->.
    unfold bind at 1. unfold new_Promise. unfold bind at 1.
    match goal with
    | |- context [call_fn fn (snd x) (fst x) ?w0] =>
        destruct (call_fn_visited (snd x) (fst x) w0) as (p0 & ->)
    end.
    simpl.
    unfold bind at 1.
    match goal with
    | |- context [foldM ?f (children (snd x)) [] ?w0] =>
        destruct (@foldM_total _ _ f
                    (fun pre' _ w' =>
                       w' = mkWorld (current w) (nextId w) (setups w)
                              (visits w0
                               ++ flat_map (fun kv => (snd kv, fst kv)
                                                        :: descendants (snd kv))
                                    pre'))
                    (children (snd x))) with (b := @nil Promise) (w := w0)
          as (ps & w2 & Hf & Hw2)
    end.
    + intros pre' y post' b0 w3 _ ->.
      match goal with
      | |- context [bind (SceneRec.walkChildrenRecurse fn (snd y) (fst y)) _ ?w0] =>
          destruct (walkChildrenRecurse_visits (snd y) (fst y) w0) as (q & Hq)
      end.
      eexists. eexists. unfold bind. rewrite Hq. split; [reflexivity|].
      simpl. rewrite flat_map_app. simpl. rewrite app_nil_r.
      rewrite <- !app_assoc. reflexivity.
    + simpl. rewrite app_nil_r. reflexivity.
    + rewrite Hf. eexists. eexists. split; [reflexivity|].
      subst w2. simpl. rewrite flat_map_app. simpl. rewrite app_nil_r.
      rewrite <- !app_assoc. simpl.
      destruct x as [k [cs ch]]. reflexivity.
  - destruct w. simpl. rewrite app_nil_r. reflexivity.
  - rewrite Hfold. subst w'. reflexivity.
Qed.

End SceneRecWalk.

(** ** The configuration pass of [scene.ts] *)

Section SceneFlatSetup.

Variable creators : string -> bool.
Variable setup : IComponent -> Payload -> option Scene -> SetupResult.

Lemma flat_new_Scene_same_process (description : ISceneDesc) (w w' : World)
    (r : Completion Scene) :
  SceneFlat.new_Scene creators description w = (r, w') -> same_process w w'.
Proof.
  unfold SceneFlat.new_Scene. intros H.
  assert (L : forall r1 w1,
             foldM (fun scenes kv =>
                      bind (addComponents creators (desc_components (snd kv)) new_Entity)
                        (fun entity =>
                           bind (foldM (fun e ckv =>
                                          bind (addComponents creators
                                                  (desc_components (snd ckv)) new_Entity)
                                               (fun myChild =>
                                                  ret (addChild (fst ckv) myChild e)))
                                       (desc_children (snd kv)) entity)
                                (fun entity => ret (Dict.set (fst kv) entity scenes))))
                   description [] w = (r1, w1) -> same_process w w1).
  { intros r1 w1.
    apply (foldM_world _ (fun w0 => same_process w w0)); [|apply same_process_refl].
    intros x b w0 r0 w0' _ HP Hf.
    eapply same_process_trans; [exact HP|]. clear HP.
    assert (L2 : forall e0 w2 r2 w2',
               foldM (fun e ckv =>
                        bind (addComponents creators (desc_components (snd ckv))
                                new_Entity)
                             (fun myChild => ret (addChild (fst ckv) myChild e)))
                     (desc_children (snd x)) e0 w2 = (r2, w2') ->
               same_process w2 w2').
    { intros e0 w2 r2 w2'.
      apply (foldM_world _ (fun w3 => same_process w2 w3));
        [|apply same_process_refl].
      intros y b1 w3 r3 w3' _ HP Hy.
      bind_inv Hy; inversion Hy; subst;
        (eapply same_process_trans;
         [exact HP | eapply addComponents_same_process; eauto]). }
    bind_inv Hf.
    - apply addComponents_same_process in E.
      eapply same_process_trans; [exact E|].
      bind_inv Hf; inversion Hf; subst; eapply L2; eauto.
    - inversion Hf; subst. eapply addComponents_same_process; eauto. }
  bind_inv H; inversion H; subst; eapply L; eauto.
Qed.

Variable scene : Scene.
Variable before : list SetupCall.

Lemma flat_current_findObject_inv (objectName : string) (w w' : World)
    (r : Completion (option Entity)) :
  SceneFlat.current_findObject objectName w = (r, w') -> w' = w.
Proof.
  unfold SceneFlat.current_findObject, bind, get_current, ret, throw.
  destruct (current w); intros H; inversion H; reflexivity.
Qed.

Lemma flat_getChild_of_inv (x : option Entity) (name : string) (w w' : World)
    (r : Completion (option Entity)) :
  SceneFlat.getChild_of x name w = (r, w') -> w' = w.
Proof.
  unfold SceneFlat.getChild_of, ret, throw.
  destruct x; intros H; inversion H; reflexivity.
Qed.

Lemma flat_component_turn_sees (obj type : string) (desc : Payload)
    (ps : list Promise) (w w' : World) (r : Completion (list Promise)) :
  sees scene before w ->
  bind (SceneFlat.current_findObject obj)
    (fun e => bind (setup_component setup e type desc)
                (fun p => ret (ps ++ [p]))) w = (r, w') ->
  sees scene before w'.
Proof.
  intros Hs H. bind_inv H.
  - apply flat_current_findObject_inv in E. subst w0.
    bind_inv H; inversion H; subst; eapply setup_component_sees; eauto.
  - apply flat_current_findObject_inv in E. subst w0.
    inversion H; subst. exact Hs.
Qed.

Lemma flat_child_component_turn_sees (obj child type : string) (desc : Payload)
    (ps : list Promise) (w w' : World) (r : Completion (list Promise)) :
  sees scene before w ->
  bind (SceneFlat.current_findObject obj)
    (fun e => bind (SceneFlat.getChild_of e child)
                (fun c => bind (setup_component setup c type desc)
                            (fun p => ret (ps ++ [p])))) w = (r, w') ->
  sees scene before w'.
Proof.
  intros Hs H. bind_inv H.
  - apply flat_current_findObject_inv in E. subst w0.
    bind_inv H.
    + apply flat_getChild_of_inv in E. subst w0.
      bind_inv H; inversion H; subst; eapply setup_component_sees; eauto.
    + apply flat_getChild_of_inv in E. subst w0. inversion H; subst. exact Hs.
  - apply flat_current_findObject_inv in E. subst w0.
    inversion H; subst. exact Hs.
Qed.

End SceneFlatSetup.

(** [create] of [scene.ts] keeps the same order as the recursive revision:
    the constructed scene is active before the first [setup] and every
    [setup] could see it. *)
Lemma flat_create_activates_built_scene (creators : string -> bool)
    (setup : IComponent -> Payload -> option Scene -> SetupResult)
    (description : ISceneDesc) (w wc : World) (scene : Scene) :
  SceneFlat.new_Scene creators description w = (Normal scene, wc) ->
  sees scene (setups w) (snd (SceneFlat.create creators setup description w)).
Proof.
  intros H. unfold SceneFlat.create. rewrite new_Promise_snd.
  unfold bind at 1. rewrite H. unfold bind at 1. simpl.
  assert (Hs : sees scene (setups w)
                 (mkWorld (Some scene) (nextId wc) (setups wc) (visits wc))).
  { apply flat_new_Scene_same_process in H. destruct H as (_ & Hset & _).
    split; [reflexivity|]. exists []. simpl. rewrite app_nil_r.
    split; [exact Hset | constructor]. }
  unfold bind at 1.
  match goal with
  | |- context [foldM ?f description [] ?w0] =>
      destruct (foldM f description [] w0) as [[ps|e] w'] eqn:E
  end; simpl;
    (revert E; apply (foldM_world _ (sees scene (setups w))); [|exact Hs];
     intros x b w0 r0 w0' _ HP Hf; bind_inv Hf;
     [ assert (Hs0 : sees scene (setups w) w1)
         by (revert E; apply (foldM_world _ (sees scene (setups w))); [|exact HP];
             intros y b1 w2 r2 w2' _ HP2; apply flat_component_turn_sees; exact HP2);
       revert Hf; apply (foldM_world _ (sees scene (setups w))); [|exact Hs0];
       intros y b1 w2 r2 w2' _ HP2;
       apply (foldM_world _ (sees scene (setups w))); [|exact HP2];
       intros z b2 w3 r3 w3' _ HP3; apply flat_child_component_turn_sees; exact HP3
     | inversion Hf; subst;
       revert E; apply (foldM_world _ (sees scene (setups w))); [|exact HP];
       intros y b1 w2 r2 w2' _ HP2; apply flat_component_turn_sees; exact HP2 ]).
Qed.

(** ** Builds whose setups all return nothing *)

Section SceneRecSync.

Variable setup : IComponent -> Payload -> option Scene -> SetupResult.

Hypothesis setup_sync : forall c desc cur, setup c desc cur = SVoid.





End SceneRecSync.

(** ** A failing setup, in both revisions *)

(** A loop whose turns only push still holds, at its end, what one of its
    turns pushed. *)
Lemma foldM_pushes {A X : Type} (f : list X -> A -> M (list X)) (P : World -> Prop)
    (l : list A) (x0 : A) (q : X) :
  In x0 l ->
  (forall x b w r w', In x l -> P w -> f b x w = (r, w') -> P w') ->
  (forall b x w b' w', In x l -> f b x w = (Normal b', w') ->
                       exists extra, b' = b ++ extra) ->
  (forall b w b' w', P w -> f b x0 w = (Normal b', w') -> In q b') ->
  forall b w b' w', P w -> foldM f l b w = (Normal b', w') -> In q b'.
Proof.
  intros Hin Hkeep Hgrow Hpush b w b' w' HP H.
  enough (G : P w' /\ (In x0 l -> In q b')) by (apply G, Hin).
  revert H.
  apply (foldM_prefix f (fun pre b0 w0 => P w0 /\ (In x0 pre -> In q b0))).
  - intros pre x post b0 w0 b1 w1 El (HP0 & Hpre) Hf.
    assert (Hx : In x l) by (rewrite El; apply in_elt).
    split; [eapply Hkeep; eauto|].
    intros Hin0. apply in_app_or in Hin0. destruct Hin0 as [Hin0|[->|[]]].
    + destruct (Hgrow _ _ _ _ _ Hx Hf) as (extra & ->).
      apply in_or_app. left. apply Hpre. exact Hin0.
    + eapply Hpush; eauto.
  - split; [exact HP | intros []].
Qed.

(** What the promise of [create] becomes when one turn of its outer loop
    is the turn of a failing [setup]. *)
Lemma failing_turn_outcome (turn : list Promise -> string * IEntityDesc -> M (list Promise))
    (P : World -> Prop) (description : ISceneDesc) (kv : string * IEntityDesc)
    (w1 : World) :
  In kv description ->
  P w1 ->
  (forall x b w r w', P w -> turn b x w = (r, w') -> P w') ->
  (forall b x w b' w', turn b x w = (Normal b', w') -> exists extra, b' = b ++ extra) ->
  let result := match foldM turn description [] w1 with
                | (Normal ps, w') => (Normal (AfterAll ps), w')
                | (Throw e, w') => (Normal (Rejected e), w')
                end in
  ((forall b w, P w -> exists e w', turn b kv w = (Throw e, w')) ->
   exists err, fst result = Normal (Rejected err)) /\
  (forall n st,
      (forall b w b' w', P w -> turn b kv w = (Normal b', w') -> In (External n) b') ->
      st n = Failed ->
      (exists err, fst result = Normal (Rejected err)) \/
      (exists p, fst result = Normal p /\ status st p = Pending)).
Proof.
  intros Hkv HP Hkeep Hgrow result. split.
  - intros Hthrow.
    destruct (foldM_throws turn P description kv Hkv) with (b := @nil Promise) (w := w1)
      as (err & w' & E).
    + intros x b w r w' _. apply Hkeep.
    + exact Hthrow.
    + exact HP.
    + exists err. unfold result. rewrite E. reflexivity.
  - intros n st Hpush Hfail. unfold result.
    destruct (foldM turn description [] w1) as [[ps|err] w'] eqn:E;
      [right | left; exists err; reflexivity].
    exists (AfterAll ps). split; [reflexivity|].
    apply status_AfterAll_pending with (q := External n);
      [|simpl; rewrite Hfail; reflexivity].
    revert E. apply (foldM_pushes turn P description kv (External n) Hkv).
    + intros x b w r w0 _. apply Hkeep.
    + intros b x w b' w0 _. apply Hgrow.
    + exact Hpush.
    + exact HP.
Qed.

Section FailingSetup.

Variable setup : IComponent -> Payload -> option Scene -> SetupResult.
Variable scene : Scene.
Variable before : list SetupCall.

(** [x.getComponent(type).setup(desc)] on an entity that has the
    component [c] for [type]: [c.setup(desc)], with [scene] active. *)
Lemma setup_component_at (e : Entity) (c : IComponent) (type : string)
    (desc : Payload) (w : World) :
  current w = Some scene ->
  getComponent type e = Normal (Some c) ->
  exists w',
    setup_component setup (Some e) type desc w
    = match setup c desc (Some scene) with
      | SVoid => (Normal Plain, w')
      | SPromise n => (Normal (External n), w')
      | SThrow err => (Throw err, w')
      end.
Proof.
  intros Hcur Hc.
  exists (mkWorld (current w) (nextId w)
            (setups w ++ [mkSetupCall c desc (current w) (setup c desc (current w))])
            (visits w)).
  unfold setup_component. rewrite Hc. unfold call_setup. rewrite Hcur.
  destruct (setup c desc (Some scene)); reflexivity.
Qed.

(** The turn of [create] for the component [type] of the root [obj], in
    the recursive revision. *)
Lemma create_component_turn_at (obj type : string) (desc : Payload)
    (e : Entity) (c : IComponent) (w : World) :
  current w = Some scene ->
  Dict.get obj (scenes scene) = Some e ->
  getComponent type e = Normal (Some c) ->
  exists w',
    forall ps,
      bind (SceneRec.current_findObject obj)
        (fun e0 => bind (setup_component setup (Some e0) type desc)
                     (fun p => ret (ps ++ [p]))) w
      = match setup c desc (Some scene) with
        | SVoid => (Normal (ps ++ [Plain]), w')
        | SPromise n => (Normal (ps ++ [External n]), w')
        | SThrow err => (Throw err, w')
        end.
Proof.
  intros Hcur Hget Hc.
  destruct (@setup_component_at e c type desc w Hcur Hc) as (w' & E).
  exists w'. intros ps.
  unfold bind at 1. unfold SceneRec.current_findObject, get_current.
  unfold bind at 1. rewrite Hcur. unfold SceneRec.findObject. rewrite Hget.
  unfold ret at 1. cbv beta iota.
  unfold bind at 1. rewrite E.
  destruct (setup c desc (Some scene)); reflexivity.
Qed.

(** The same turn in [scene.ts]. *)
Lemma flat_component_turn_at (obj type : string) (desc : Payload)
    (e : Entity) (c : IComponent) (w : World) :
  current w = Some scene ->
  Dict.get obj (scenes scene) = Some e ->
  getComponent type e = Normal (Some c) ->
  exists w',
    forall ps,
      bind (SceneFlat.current_findObject obj)
        (fun e0 => bind (setup_component setup e0 type desc)
                     (fun p => ret (ps ++ [p]))) w
      = match setup c desc (Some scene) with
        | SVoid => (Normal (ps ++ [Plain]), w')
        | SPromise n => (Normal (ps ++ [External n]), w')
        | SThrow err => (Throw err, w')
        end.
Proof.
  intros Hcur Hget Hc.
  destruct (@setup_component_at e c type desc w Hcur Hc) as (w' & E).
  exists w'. intros ps.
  unfold bind at 1. unfold SceneFlat.current_findObject, get_current.
  unfold bind at 1. rewrite Hcur. unfold SceneFlat.findObject. rewrite Hget.
  unfold ret at 1. cbv beta iota.
  unfold bind at 1. rewrite E.
  destruct (setup c desc (Some scene)); reflexivity.
Qed.

Lemma flat_component_turn_grows (obj : string) (ckv : string * Payload)
    (ps ps' : list Promise) (w w' : World) :
  bind (SceneFlat.current_findObject obj)
    (fun e0 => bind (setup_component setup e0 (fst ckv) (snd ckv))
                 (fun p => ret (ps ++ [p]))) w = (Normal ps', w') ->
  exists extra, ps' = ps ++ extra.
Proof.
  intros H. bind_inv H. bind_inv H. inversion H; subst. eauto.
Qed.

Lemma flat_child_component_turn_grows (obj child : string) (cckv : string * Payload)
    (ps ps' : list Promise) (w w' : World) :
  bind (SceneFlat.current_findObject obj)
    (fun e0 => bind (SceneFlat.getChild_of e0 child)
                 (fun c => bind (setup_component setup c (fst cckv) (snd cckv))
                             (fun p => ret (ps ++ [p])))) w = (Normal ps', w') ->
  exists extra, ps' = ps ++ extra.
Proof.
  intros H. bind_inv H. bind_inv H. bind_inv H. inversion H; subst. eauto.
Qed.

Lemma flat_create_turn_grows (kv : string * IEntityDesc) (ps ps' : list Promise)
    (w w' : World) :
  flat_create_turn setup ps kv w = (Normal ps', w') ->
  exists extra, ps' = ps ++ extra.
Proof.
  intros H. unfold flat_create_turn in H. bind_inv H.
  apply foldM_grows in E;
    [|intros b x w1 b' w1' _; apply flat_component_turn_grows].
  apply foldM_grows in H.
  - destruct E as (x1 & ->). destruct H as (x2 & ->).
    exists (x1 ++ x2). rewrite app_assoc. reflexivity.
  - intros b x w1 b' w1' _. apply foldM_grows.
    intros b0 y w2 b0' w2' _. apply flat_child_component_turn_grows.
Qed.

Lemma flat_create_turn_sees (kv : string * IEntityDesc) (ps : list Promise)
    (w w' : World) (r : Completion (list Promise)) :
  sees scene before w -> flat_create_turn setup ps kv w = (r, w') ->
  sees scene before w'.
Proof.
  intros Hs H. unfold flat_create_turn in H. bind_inv H.
  - assert (Hs0 : sees scene before w0).
    { revert E. apply (foldM_world _ (sees scene before)); [|exact Hs].
      intros x b w1 r1 w1' _ HP. apply flat_component_turn_sees. exact HP. }
    revert H. apply (foldM_world _ (sees scene before)); [|exact Hs0].
    intros x b w1 r1 w1' _ HP.
    apply (foldM_world _ (sees scene before)); [|exact HP].
    intros y b1 w2 r2 w2' _ HP2. apply flat_child_component_turn_sees. exact HP2.
  - inversion H; subst.
    revert E. apply (foldM_world _ (sees scene before)); [|exact Hs].
    intros x b w1 r1 w1' _ HP. apply flat_component_turn_sees. exact HP.
Qed.

Variable kv : string * IEntityDesc.
Variable e : Entity.
Variable c : IComponent.
Variable t : string.
Variable cfg : Payload.

Hypothesis root_present : Dict.get (fst kv) (scenes scene) = Some e.
Hypothesis component_present : getComponent t e = Normal (Some c).
Hypothesis component_described : In (t, cfg) (desc_components (snd kv)).

(** If the [setup] of the component throws, so does the turn of [create]
    for its root. *)
Lemma create_turn_throws_at (err : JsError) (ps : list Promise) (w : World) :
  setup c cfg (Some scene) = SThrow err ->
  sees scene before w ->
  exists err' w', create_turn setup ps kv w = (Throw err', w').
Proof.
  intros Hthrow Hs. unfold create_turn.
  destruct (foldM_throws
              (fun ps0 ckv0 =>
                 bind (SceneRec.current_findObject (fst kv))
                   (fun e0 => bind (setup_component setup (Some e0) (fst ckv0) (snd ckv0))
                                (fun p => ret (ps0 ++ [p]))))
              (sees scene before) (desc_components (snd kv)) (t, cfg)
              component_described)
    with (b := ps) (w := w) as (err' & w' & E).
  - intros x b w0 r w0' _ HP. apply create_component_turn_sees. exact HP.
  - intros b w0 (Hcur & _). cbn [fst snd].
    destruct (@create_component_turn_at (fst kv) t cfg e c w0 Hcur root_present
                component_present) as (w' & Hturn).
    rewrite (Hturn b), Hthrow. eauto.
  - exact Hs.
  - exists err', w'. unfold bind at 1. rewrite E. reflexivity.
Qed.

(** If the [setup] of the component returns the promise [n], the turn of
    [create] for its root pushes that promise. *)
Lemma create_turn_pushes_at (n : nat) (ps ps' : list Promise) (w w' : World) :
  setup c cfg (Some scene) = SPromise n ->
  sees scene before w ->
  create_turn setup ps kv w = (Normal ps', w') ->
  In (External n) ps'.
Proof.
  intros Hasync Hs H. unfold create_turn in H. bind_inv H.
  apply foldM_grows in H;
    [|intros b x w1 b' w1' _; apply create_child_turn_grows].
  destruct H as (extra & ->). apply in_or_app. left.
  revert E.
  apply (foldM_pushes _ (sees scene before) (desc_components (snd kv)) (t, cfg)
           (External n) component_described).
  - intros x b w1 r w1' _ HP. apply create_component_turn_sees. exact HP.
  - intros b x w1 b' w1' _. apply create_component_turn_grows.
  - intros b w1 b' w1' (Hcur & _). cbn [fst snd].
    destruct (@create_component_turn_at (fst kv) t cfg e c w1 Hcur root_present
                component_present) as (w2 & Hturn).
    rewrite (Hturn b), Hasync. intros Hf. inversion Hf; subst.
    apply in_or_app. right. left. reflexivity.
  - exact Hs.
Qed.

Lemma flat_create_turn_throws_at (err : JsError) (ps : list Promise) (w : World) :
  setup c cfg (Some scene) = SThrow err ->
  sees scene before w ->
  exists err' w', flat_create_turn setup ps kv w = (Throw err', w').
Proof.
  intros Hthrow Hs. unfold flat_create_turn.
  destruct (foldM_throws
              (fun ps0 ckv0 =>
                 bind (SceneFlat.current_findObject (fst kv))
                   (fun e0 => bind (setup_component setup e0 (fst ckv0) (snd ckv0))
                                (fun p => ret (ps0 ++ [p]))))
              (sees scene before) (desc_components (snd kv)) (t, cfg)
              component_described)
    with (b := ps) (w := w) as (err' & w' & E).
  - intros x b w0 r w0' _ HP. apply flat_component_turn_sees. exact HP.
  - intros b w0 (Hcur & _). cbn [fst snd].
    destruct (@flat_component_turn_at (fst kv) t cfg e c w0 Hcur root_present
                component_present) as (w' & Hturn).
    rewrite (Hturn b), Hthrow. eauto.
  - exact Hs.
  - exists err', w'. unfold bind at 1. rewrite E. reflexivity.
Qed.

Lemma flat_create_turn_pushes_at (n : nat) (ps ps' : list Promise) (w w' : World) :
  setup c cfg (Some scene) = SPromise n ->
  sees scene before w ->
  flat_create_turn setup ps kv w = (Normal ps', w') ->
  In (External n) ps'.
Proof.
  intros Hasync Hs H. unfold flat_create_turn in H. bind_inv H.
  apply foldM_grows in H.
  2:{ intros b x w1 b' w1' _. apply foldM_grows.
      intros b0 y w2 b0' w2' _. apply flat_child_component_turn_grows. }
  destruct H as (extra & ->). apply in_or_app. left.
  revert E.
  apply (foldM_pushes _ (sees scene before) (desc_components (snd kv)) (t, cfg)
           (External n) component_described).
  - intros x b w1 r w1' _ HP. apply flat_component_turn_sees. exact HP.
  - intros b x w1 b' w1' _. apply flat_component_turn_grows.
  - intros b w1 b' w1' (Hcur & _). cbn [fst snd].
    destruct (@flat_component_turn_at (fst kv) t cfg e c w1 Hcur root_present
                component_present) as (w2 & Hturn).
    rewrite (Hturn b), Hasync. intros Hf. inversion Hf; subst.
    apply in_or_app. right. left. reflexivity.
  - exact Hs.
Qed.

End FailingSetup.

(** What [create] of [scene.ts] does once the constructor has returned
    [scene]. *)
Lemma flat_create_after_construction (creators : string -> bool)
    (setup : IComponent -> Payload -> option Scene -> SetupResult)
    (description : ISceneDesc) (w wc : World) (scene : Scene) :
  SceneFlat.new_Scene creators description w = (Normal scene, wc) ->
  let w1 := mkWorld (Some scene) (nextId wc) (setups wc) (visits wc) in
  sees scene (setups w) w1 /\
  SceneFlat.create creators setup description w
  = match foldM (flat_create_turn setup) description [] w1 with
    | (Normal ps, w') => (Normal (AfterAll ps), w')
    | (Throw e, w') => (Normal (Rejected e), w')
    end.
Proof.
  intros H w1. split.
  - apply flat_new_Scene_same_process in H. destruct H as (_ & Hs & _).
    split; [reflexivity|]. exists []. simpl. rewrite app_nil_r.
    split; [exact Hs | constructor].
  - change (SceneFlat.create creators setup description)
      with (new_Promise
              (bind (SceneFlat.new_Scene creators description)
                 (fun s => bind (set_current s)
                    (fun _ => bind (foldM (flat_create_turn setup) description [])
                       (fun setupPromises => ret (AfterAll setupPromises)))))).
    unfold new_Promise, bind at 1. rewrite H.
    unfold bind at 1. simpl. fold w1. unfold bind.
    destruct (foldM (flat_create_turn setup) description [] w1) as [[ps|e] w'];
      reflexivity.
Qed.

(** C4, amended.  Take a description whose scene is constructed, and a
    component of one of its roots: the root [e] stored under the name of
    [kv], its component [c] of type [t], configured with [cfg].  The new
    scene, not the one active before, is the active scene after [create].
    If the [setup] of that component throws, the promise of [create] is
    rejected.  If instead it hands back a promise that fails, the promise
    of [create] never completes: it stays pending, unless it was rejected
    by a [setup] that threw.  Both revisions of [create] behave so. *)
Theorem create_with_failing_setup (creators : string -> bool)
    (setup : IComponent -> Payload -> option Scene -> SetupResult)
    (description : ISceneDesc) (w : World)
    (kv : string * IEntityDesc) (t : string) (cfg : Payload) :
  In kv description ->
  In (t, cfg) (desc_components (snd kv)) ->
  (forall (scene : Scene) (wc : World) (e : Entity) (c : IComponent),
      SceneRec.new_Scene creators description w = (Normal scene, wc) ->
      Dict.get (fst kv) (scenes scene) = Some e ->
      getComponent t e = Normal (Some c) ->
      current (snd (SceneRec.create creators setup description w)) = Some scene /\
      (forall err,
          setup c cfg (Some scene) = SThrow err ->
          exists err',
            fst (SceneRec.create creators setup description w)
            = Normal (Rejected err')) /\
      (forall n st,
          setup c cfg (Some scene) = SPromise n ->
          st n = Failed ->
          (exists err',
              fst (SceneRec.create creators setup description w)
              = Normal (Rejected err'))
          \/
          (exists p,
              fst (SceneRec.create creators setup description w) = Normal p /\
              status st p = Pending))) /\
  (forall (scene : Scene) (wc : World) (e : Entity) (c : IComponent),
      SceneFlat.new_Scene creators description w = (Normal scene, wc) ->
      Dict.get (fst kv) (scenes scene) = Some e ->
      getComponent t e = Normal (Some c) ->
      current (snd (SceneFlat.create creators setup description w)) = Some scene /\
      (forall err,
          setup c cfg (Some scene) = SThrow err ->
          exists err',
            fst (SceneFlat.create creators setup description w)
            = Normal (Rejected err')) /\
      (forall n st,
          setup c cfg (Some scene) = SPromise n ->
          st n = Failed ->
          (exists err',
              fst (SceneFlat.create creators setup description w)
              = Normal (Rejected err'))
          \/
          (exists p,
              fst (SceneFlat.create creators setup description w) = Normal p /\
              status st p = Pending))).
Proof.
  intros Hkv Hcfg. split.
  - intros scene wc e c H He Hc.
    destruct (@create_activates_built_scene_aux creators setup description w wc
                scene H) as (Hcur & _).
    split; [exact Hcur|].
    destruct (@create_after_construction creators setup description w wc scene H)
      as (Hs & Hcr).
    rewrite Hcr. clear Hcr.
    destruct (@failing_turn_outcome (create_turn setup) (sees scene (setups w))
                description kv
                (mkWorld (Some scene) (nextId wc) (setups wc) (visits wc)) Hkv Hs)
      as (Hthrow & Hasync).
    + intros x b w0 r w0' HP. apply create_turn_sees. exact HP.
    + intros b x w0 b' w0'. apply create_turn_grows.
    + split.
      * intros err Herr. apply Hthrow. intros b w0 HP.
        eapply create_turn_throws_at; eauto.
      * intros n st Hn Hfail. apply (Hasync n st); [|exact Hfail].
        intros b w0 b' w0' HP Hturn.
        eapply create_turn_pushes_at; eauto.
  - intros scene wc e c H He Hc.
    pose proof (@flat_create_activates_built_scene creators setup description w wc
                  scene H) as (Hcur & _).
    split; [exact Hcur|].
    destruct (@flat_create_after_construction creators setup description w wc
                scene H) as (Hs & Hcr).
    rewrite Hcr. clear Hcr.
    destruct (@failing_turn_outcome (flat_create_turn setup) (sees scene (setups w))
                description kv
                (mkWorld (Some scene) (nextId wc) (setups wc) (visits wc)) Hkv Hs)
      as (Hthrow & Hasync).
    + intros x b w0 r w0' HP. apply flat_create_turn_sees. exact HP.
    + intros b x w0 b' w0'. apply flat_create_turn_grows.
    + split.
      * intros err Herr. apply Hthrow. intros b w0 HP.
        eapply flat_create_turn_throws_at; eauto.
      * intros n st Hn Hfail. apply (Hasync n st); [|exact Hfail].
        intros b w0 b' w0' HP Hturn.
        eapply flat_create_turn_pushes_at; eauto.
Qed.

Lemma create_with_failing_setup_witness :
  (current (snd (SceneRec.create factory_creators Inputs2.setup_one_throws
                   Inputs2.two_textures Inputs.old_world))
   = Some Inputs2.two_textures_scene /\
   (exists err,
       fst (SceneRec.create factory_creators Inputs2.setup_one_throws
              Inputs2.two_textures Inputs.old_world) = Normal (Rejected err)) /\
   ((exists err,
        fst (SceneRec.create factory_creators Inputs2.setup_one_missing
               Inputs2.two_textures Inputs.old_world) = Normal (Rejected err))
    \/
    (exists p,
        fst (SceneRec.create factory_creators Inputs2.setup_one_missing
               Inputs2.two_textures Inputs.old_world) = Normal p /\
        status Inputs2.only_failed_1 p = Pending))) /\
  (current (snd (SceneFlat.create factory_creators Inputs2.setup_one_throws
                   Inputs2.two_textures Inputs.old_world))
   = Some Inputs2.two_textures_scene /\
   (exists err,
       fst (SceneFlat.create factory_creators Inputs2.setup_one_throws
              Inputs2.two_textures Inputs.old_world) = Normal (Rejected err)) /\
   ((exists err,
        fst (SceneFlat.create factory_creators Inputs2.setup_one_missing
               Inputs2.two_textures Inputs.old_world) = Normal (Rejected err))
    \/
    (exists p,
        fst (SceneFlat.create factory_creators Inputs2.setup_one_missing
               Inputs2.two_textures Inputs.old_world) = Normal p /\
        status Inputs2.only_failed_1 p = Pending))).
Proof.
  assert (Hkv : In ("B", mkEntityDesc [("Texture", "missing.png")] [])
                   Inputs2.two_textures) by (right; left; reflexivity).
  assert (Hcfg : In ("Texture", "missing.png")
                    (desc_components
                       (snd ("B", mkEntityDesc [("Texture", "missing.png")] []))))
    by (left; reflexivity).
  destruct (@create_with_failing_setup factory_creators Inputs2.setup_one_throws
              Inputs2.two_textures Inputs.old_world
              ("B", mkEntityDesc [("Texture", "missing.png")] [])
              "Texture" "missing.png" Hkv Hcfg) as (Trec & Tflat).
  destruct (@create_with_failing_setup factory_creators Inputs2.setup_one_missing
              Inputs2.two_textures Inputs.old_world
              ("B", mkEntityDesc [("Texture", "missing.png")] [])
              "Texture" "missing.png" Hkv Hcfg) as (Arec & Aflat).
  split.
  - destruct (Trec Inputs2.two_textures_scene
                (mkWorld (Some Inputs.old_scene) 2 [] [])
                (mkEntity [mkComponent "Texture" 1] []) (mkComponent "Texture" 1)
                eq_refl eq_refl eq_refl) as (Hcur & Hthrow & _).
    destruct (Arec Inputs2.two_textures_scene
                (mkWorld (Some Inputs.old_scene) 2 [] [])
                (mkEntity [mkComponent "Texture" 1] []) (mkComponent "Texture" 1)
                eq_refl eq_refl eq_refl) as (_ & _ & Hasync).
    split; [exact Hcur|]. split.
    + apply (Hthrow (Error "setup failed")). reflexivity.
    + apply (Hasync 1 Inputs2.only_failed_1); reflexivity.
  - destruct (Tflat Inputs2.two_textures_scene
                (mkWorld (Some Inputs.old_scene) 2 [] [])
                (mkEntity [mkComponent "Texture" 1] []) (mkComponent "Texture" 1)
                eq_refl eq_refl eq_refl) as (Hcur & Hthrow & _).
    destruct (Aflat Inputs2.two_textures_scene
                (mkWorld (Some Inputs.old_scene) 2 [] [])
                (mkEntity [mkComponent "Texture" 1] []) (mkComponent "Texture" 1)
                eq_refl eq_refl eq_refl) as (_ & _ & Hasync).
    split; [exact Hcur|]. split.
    + apply (Hthrow (Error "setup failed")). reflexivity.
    + apply (Hasync 1 Inputs2.only_failed_1); reflexivity.
Defined.

(** * Further properties of the code *)

(** ** [Entity]: children *)

Lemma keys_set_present {V : Type} (k : string) (v : V) (d : Dict.t V) :
  In k (Dict.keys d) -> Dict.keys (Dict.set k v d) = Dict.keys d.
Proof.
  induction d as [|[k' v'] d IH]; simpl; intros Hin; [destruct Hin|].
  destruct (String.eqb_spec k k') as [->|Hne]; [reflexivity|].
  simpl. f_equal. apply IH. destruct Hin as [E|Hin]; [congruence | exact Hin].
Qed.

Lemma distinct_snoc (k : string) (l : list string) :
  ~ In k l -> Dict.distinct (l ++ [k]) = Dict.distinct l.
Proof.
  induction l as [|x l IH]; simpl; intros Hn; [reflexivity|].
  rewrite IH by tauto. f_equal. f_equal.
  rewrite existsb_app. simpl. rewrite orb_false_r.
  destruct (String.eqb_spec x k) as [->|_]; [|apply orb_false_r].
  exfalso. apply Hn. left. reflexivity.
Qed.

(** X1.  [getChild] after [addChild] under a name other than [__proto__]:
    the name just added yields the child just added, whether the name was
    new or not; every other name yields what it yielded before. *)
Theorem getChild_addChild (name objectName : string) (child this : Entity) :
  String.eqb objectName "__proto__" = false ->
  getChild name (addChild objectName child this)
  = if String.eqb name objectName then Some child else getChild name this.
Proof.
  intros _. unfold getChild, addChild. simpl.
  destruct (String.eqb_spec name objectName) as [->|Hne].
  - apply get_set_same.
  - apply get_set_other. exact Hne.
Qed.

Lemma getChild_addChild_witness :
  getChild "B" (addChild "B" new_Entity
                  (mkEntity [] [("A", new_Entity); ("B", Samples.positioned)]))
  = Some new_Entity /\
  getChild "A" (addChild "B" new_Entity
                  (mkEntity [] [("A", new_Entity); ("B", Samples.positioned)]))
  = Some new_Entity.
Proof.
  split.
  - apply (@getChild_addChild "B" "B" new_Entity
             (mkEntity [] [("A", new_Entity); ("B", Samples.positioned)])).
    reflexivity.
  - apply (@getChild_addChild "A" "B" new_Entity
             (mkEntity [] [("A", new_Entity); ("B", Samples.positioned)])).
    reflexivity.
Defined.

(** X2.  [addChild] on a name already in use replaces the child in place:
    the names and their order stay as they were.  On a new name it adds
    the name last.  Either way no name comes to occur twice.  This is so
    for every name that is not written with digits only and is not
    [__proto__]. *)
Theorem addChild_keys (objectName : string) (child this : Entity) :
  ordinary_key objectName = true ->
  Dict.keys (children (addChild objectName child this))
  = (if existsb (String.eqb objectName) (Dict.keys (children this))
     then Dict.keys (children this)
     else Dict.keys (children this) ++ [objectName]) /\
  Dict.distinct (Dict.keys (children (addChild objectName child this)))
  = Dict.distinct (Dict.keys (children this)).
Proof.
  intros _. unfold addChild. simpl.
  destruct (existsb (String.eqb objectName) (Dict.keys (children this))) eqn:E.
  - apply existsb_eqb_In in E. rewrite keys_set_present by exact E.
    split; reflexivity.
  - assert (Hn : ~ In objectName (Dict.keys (children this))).
    { intros Hin. apply existsb_eqb_In in Hin. congruence. }
    rewrite keys_set_new by exact Hn. split; [reflexivity|].
    apply distinct_snoc. exact Hn.
Qed.

Lemma addChild_keys_witness :
  Dict.keys (children (addChild "C" new_Entity
                         (mkEntity [] [("A", new_Entity); ("B", new_Entity)])))
  = ["A"; "B"; "C"] /\
  Dict.distinct
    (Dict.keys (children (addChild "C" new_Entity
                            (mkEntity [] [("A", new_Entity); ("B", new_Entity)]))))
  = true.
Proof.
  apply (@addChild_keys "C" new_Entity
           (mkEntity [] [("A", new_Entity); ("B", new_Entity)])).
  reflexivity.
Defined.

(** X3.  [walkChildren] calls the walker on the direct children only, in
    enumeration order, each at most once and with the name it is stored
    under, and changes nothing else.  If it returns, every child was
    visited; if it throws, the last child visited is the one on which the
    walker threw that error, and the children after it were not visited. *)
Theorem walkChildren_visits (fn : Entity -> string -> VisitResult)
    (this : Entity) (w : World) :
  exists vs rest,
    child_visits this = vs ++ rest /\
    snd (walkChildren fn this w)
    = mkWorld (current w) (nextId w) (setups w) (visits w ++ vs) /\
    (fst (walkChildren fn this w) = Normal tt -> rest = []) /\
    (forall err, fst (walkChildren fn this w) = Throw err ->
                 exists vs' c k, vs = vs' ++ [(c, k)] /\ fn c k = VThrow err).
Proof.
  unfold walkChildren, child_visits.
  assert (G : forall (l : list (string * Entity)) (b : unit) (w : World),
             exists vs rest,
               map (fun kv => (snd kv, fst kv)) l = vs ++ rest /\
               snd (foldM (fun _ kv => bind (call_fn fn (snd kv) (fst kv))
                                         (fun _ => ret tt)) l b w)
               = mkWorld (current w) (nextId w) (setups w) (visits w ++ vs) /\
               (fst (foldM (fun _ kv => bind (call_fn fn (snd kv) (fst kv))
                                          (fun _ => ret tt)) l b w)
                = Normal tt -> rest = []) /\
               (forall err,
                   fst (foldM (fun _ kv => bind (call_fn fn (snd kv) (fst kv))
                                             (fun _ => ret tt)) l b w)
                   = Throw err ->
                   exists vs' c k, vs = vs' ++ [(c, k)] /\ fn c k = VThrow err)).
  { clear w. induction l as [|[k c] l IH]; intros b w.
    - exists [], []. simpl. rewrite app_nil_r. destruct w.
      repeat split; try reflexivity. intros err H. discriminate H.
    - simpl. unfold bind at 1 3 5. unfold call_fn.
      destruct (fn c k) as [p|e] eqn:Hfn.
      + unfold ret at 1 3 5.
        destruct (IH tt (mkWorld (current w) (nextId w) (setups w)
                           (visits w ++ [(c, k)])))
          as (vs & rest & Hsplit & Hw & Hn & Ht).
        exists ((c, k) :: vs), rest. simpl in Hw |- *.
        rewrite <- app_assoc in Hw. simpl in Hw.
        split; [rewrite Hsplit; reflexivity|]. split; [exact Hw|].
        split; [exact Hn|].
        intros err H. destruct (Ht err H) as (vs' & c' & k' & -> & Hc').
        exists ((c, k) :: vs'), c', k'. split; [reflexivity | exact Hc'].
      + exists [(c, k)], (map (fun kv => (snd kv, fst kv)) l). simpl.
        split; [reflexivity|]. split; [reflexivity|].
        split; [intros H; discriminate H|].
        intros err H. inversion H; subst.
        exists [], c, k. split; [reflexivity | exact Hfn]. }
  apply G.
Qed.

(** ** [Entity]: components *)

(** X4.  [walkComponent] calls the walker on the components in the order
    they were added, each at most once and with its own type name.  If it
    returns, every component was visited; if it throws, the last component
    visited is the one on which the walker threw that error. *)
Theorem walkComponent_visits (fn : IComponentWalker) (this : Entity) :
  exists rest,
    map (fun c => (c, __type c)) (components this)
    = fst (walkComponent fn this) ++ rest /\
    (snd (walkComponent fn this) = Normal tt -> rest = []) /\
    (forall err, snd (walkComponent fn this) = Throw err ->
                 exists calls c, fst (walkComponent fn this) = calls ++ [(c, __type c)]
                                 /\ fn c (__type c) = Some err).
Proof.
  unfold walkComponent.
  assert (G : forall cs calls,
             exists rest,
               calls ++ map (fun c => (c, __type c)) cs
               = fst (walkComponent_loop fn cs calls) ++ rest /\
               (snd (walkComponent_loop fn cs calls) = Normal tt -> rest = []) /\
               (forall err, snd (walkComponent_loop fn cs calls) = Throw err ->
                            exists calls' c,
                              fst (walkComponent_loop fn cs calls)
                              = calls' ++ [(c, __type c)]
                              /\ fn c (__type c) = Some err)).
  { induction cs as [|c cs IH]; intros calls.
    - exists []. simpl. split; [reflexivity|]. split; [reflexivity|].
      intros err H. discriminate H.
    - simpl. destruct (fn c (__type c)) as [e|] eqn:Hfn.
      + exists (map (fun c0 => (c0, __type c0)) cs). simpl.
        split; [rewrite <- app_assoc; reflexivity|].
        split; [intros H; discriminate H|].
        intros err H. inversion H; subst. exists calls, c.
        split; [reflexivity | exact Hfn].
      + destruct (IH (calls ++ [(c, __type c)])) as (rest & H1 & H2 & H3).
        exists rest. rewrite <- app_assoc in H1. simpl in H1.
        split; [exact H1|]. split; assumption. }
  destruct (G (components this) []) as (rest & H1 & H2 & H3).
  exists rest. split; [exact H1|]. split; assumption.
Qed.

(** X5.  When the entity owns a component of the requested type,
    [getComponent] returns one of its components of that type: the one
    added last.  *)
Theorem getComponent_finds_last (type : string) (this : Entity) :
  In type (map __type (components this)) ->
  exists before c after,
    components this = before ++ c :: after /\
    __type c = type /\
    (forall c', In c' after -> __type c' <> type) /\
    getComponent type this = Normal (Some c).
Proof.
  intros Hin.
  assert (G : forall l, In type (map __type l) ->
                        exists before c after,
                          l = before ++ c :: after /\ __type c = type /\
                          (forall c', In c' after -> __type c' <> type)).
  { induction l as [|x l IH]; intros H; [destruct H|].
    destruct (in_dec string_dec type (map __type l)) as [Hl|Hl].
    - destruct (IH Hl) as (before & c & after & -> & Ht & Ha).
      exists (x :: before), c, after. split; [reflexivity | split; assumption].
    - destruct H as [Hx|H]; [|contradiction].
      exists [], x, l. split; [reflexivity|]. split; [exact Hx|].
      intros c' Hc' E. apply Hl. rewrite <- E. apply in_map. exact Hc'. }
  destruct (G (components this) Hin) as (before & c & after & Hs & Ht & Ha).
  exists before, c, after. split; [exact Hs|]. split; [exact Ht|].
  split; [exact Ha|]. eapply getComponent_last; eassumption.
Qed.

Lemma getComponent_finds_last_witness :
  exists before c after,
    components (mkEntity [mkComponent "Position" 0; mkComponent "Motion" 1;
                          mkComponent "Position" 2] [])
    = before ++ c :: after /\
    __type c = "Position" /\
    (forall c', In c' after -> __type c' <> "Position") /\
    getComponent "Position"
      (mkEntity [mkComponent "Position" 0; mkComponent "Motion" 1;
                 mkComponent "Position" 2] [])
    = Normal (Some c).
Proof.
  apply (@getComponent_finds_last "Position"
           (mkEntity [mkComponent "Position" 0; mkComponent "Motion" 1;
                      mkComponent "Position" 2] [])).
  simpl. left. reflexivity.
Defined.

(** X6.  When the entity owns no component of the requested type,
    [getComponent] returns what [foundComp] was initialised with, the
    first component of the entity whatever its type, and [undefined] on an
    entity without components. *)
Theorem getComponent_absent_first (type : string) (this : Entity) :
  (forall c, In c (components this) -> __type c <> type) ->
  getComponent type this = Normal (hd_error (components this)).
Proof.
  intros Hno. unfold getComponent.
  rewrite getComponent_loop_absent by exact Hno. reflexivity.
Qed.

Lemma getComponent_absent_first_witness :
  getComponent "Score" (mkEntity [mkComponent "Position" 0; mkComponent "Motion" 1] [])
  = Normal (Some (mkComponent "Position" 0)).
Proof.
  apply (@getComponent_absent_first "Score"
           (mkEntity [mkComponent "Position" 0; mkComponent "Motion" 1] [])).
  intros c [<-|[<-|[]]]; discriminate.
Defined.

(** ** Construction, recursive revision *)

Lemma foldM_throw_inv {A B : Type} (f : B -> A -> M B) (l : list A) :
  forall b w e w', foldM f l b w = (Throw e, w') ->
                   exists x b0 w0, In x l /\ f b0 x w0 = (Throw e, w').
Proof.
  induction l as [|x l IH]; intros b w e w' H; [discriminate H|].
  simpl in H. destruct (f b x w) as [[b1|e1] w1] eqn:Hf.
  - destruct (IH _ _ _ _ H) as (y & b0 & w0 & Hy & Hfy).
    exists y, b0, w0. split; [right; exact Hy | exact Hfy].
  - inversion H; subst. exists x, b, w. split; [left; reflexivity | exact Hf].
Qed.

Section SceneRecTypes.

Variable creators : string -> bool.

Lemma addComponents_total (descs : list (string * Payload)) :
  forallb creators (Dict.keys descs) = true ->
  forall e w, exists e' w', addComponents creators descs e w = (Normal e', w').
Proof.
  induction descs as [|[k p] descs IH]; intros Hall e w.
  - exists e, w. reflexivity.
  - simpl in Hall. apply andb_true_iff in Hall. destruct Hall as (Hk & Hall).
    unfold addComponents. simpl. unfold bind at 1.
    unfold addComponent, componentCreator. rewrite Hk.
    unfold bind, fresh, ret. simpl. apply IH. exact Hall.
Qed.

Lemma addComponents_throw (descs : list (string * Payload)) :
  forall e w err w', addComponents creators descs e w = (Throw err, w') ->
                     err = TypeError.
Proof.
  intros e w err w' H. unfold addComponents in H.
  apply foldM_throw_inv in H. destruct H as ([k p] & b0 & w0 & _ & Hf).
  bind_inv Hf; [discriminate Hf|]. inversion Hf; subst. simpl in E.
  unfold addComponent, componentCreator, bind, fresh, ret, throw in E.
  destruct (creators k); simpl in E; inversion E. reflexivity.
Qed.

Lemma construChildrenRecurse_total (d : IEntityDesc) :
  forallb creators (desc_types d) = true ->
  forall w, exists e w', SceneRec.construChildrenRecurse creators d w = (Normal e, w').
Proof.
  induction d as [cs ch IH] using IEntityDesc_induction.
  intros Hall w. simpl in Hall. rewrite forallb_app in Hall.
  apply andb_true_iff in Hall. destruct Hall as (Hcs & Hch).
  rewrite construChildrenRecurse_unfold. simpl. unfold bind at 1.
  destruct (addComponents_total cs Hcs new_Entity w) as (e1 & w1 & ->).
  unfold bind at 1.
  destruct (@foldM_total _ _
              (fun e kv =>
                 bind (SceneRec.construChildrenRecurse creators (snd kv))
                      (fun child => ret (addChild (fst kv) child e)))
              (fun _ _ _ => True) ch) with (b := e1) (w := w1)
    as (e2 & w2 & Hfold & _).
  - intros pre x post b w0 El _.
    assert (Hx : In x ch) by (rewrite El; apply in_elt).
    rewrite Forall_forall in IH.
    destruct (IH x Hx) with (w := w0) as (c & w3 & Hc).
    { rewrite forallb_forall in Hch |- *. intros t Ht. apply Hch.
      apply in_flat_map. exists x. split; assumption. }
    exists (addChild (fst x) c b), w3. unfold bind. rewrite Hc.
    split; [reflexivity | exact I].
  - exact I.
  - rewrite Hfold. exists e2, w2. reflexivity.
Qed.

Lemma construChildrenRecurse_known (d : IEntityDesc) :
  forall w e w', SceneRec.construChildrenRecurse creators d w = (Normal e, w') ->
                 forallb creators (desc_types d) = true.
Proof.
  induction d as [cs ch IH] using IEntityDesc_induction.
  intros w e w' H. rewrite construChildrenRecurse_unfold in H. simpl in H.
  bind_inv H. apply addComponents_inv in E.
  destruct E as (_ & _ & _ & _ & _ & _ & _ & _ & Hcs).
  bind_inv H. inversion H; subst. clear H.
  simpl. rewrite forallb_app, Hcs. simpl.
  apply forallb_forall. intros t Ht. apply in_flat_map in Ht.
  destruct Ht as (kv & Hkv & Ht).
  enough (G : Forall (fun kv0 => forallb creators (desc_types (snd kv0)) = true) ch).
  { rewrite Forall_forall in G. specialize (G kv Hkv).
    rewrite forallb_forall in G. apply G. exact Ht. }
  revert E.
  apply (foldM_prefix _
           (fun pre (_ : Entity) (_ : World) =>
              Forall (fun kv0 => forallb creators (desc_types (snd kv0)) = true) pre)).
  - intros pre x post b w1 b' w1' El HQ Hf. bind_inv Hf.
    apply Forall_app. split; [exact HQ|]. constructor; [|constructor].
    rewrite Forall_forall in IH. eapply (IH x); [|exact E].
    rewrite El. apply in_elt.
  - constructor.
Qed.

Lemma construChildrenRecurse_throw (d : IEntityDesc) :
  forall w err w', SceneRec.construChildrenRecurse creators d w = (Throw err, w') ->
                   err = TypeError.
Proof.
  induction d as [cs ch IH] using IEntityDesc_induction.
  intros w err w' H. rewrite construChildrenRecurse_unfold in H. simpl in H.
  bind_inv H.
  - bind_inv H; [discriminate H|]. inversion H; subst.
    apply foldM_throw_inv in E0. destruct E0 as (x & b0 & w2 & Hx & Hf).
    bind_inv Hf; [discriminate Hf|]. inversion Hf; subst.
    rewrite Forall_forall in IH. eapply (IH x Hx). exact E0.
  - inversion H; subst. eapply addComponents_throw. exact E.
Qed.

End SceneRecTypes.

(** A scene is constructed only from known component types. *)
Lemma rec_new_Scene_succeeds_iff_aux (creators : string -> bool)
    (description : ISceneDesc) (w : World) :
  (exists s w', SceneRec.new_Scene creators description w = (Normal s, w')) ->
  forallb creators (scene_types description) = true.
Proof.
  rewrite new_Scene_unfold.
  intros (s & w' & H). bind_inv H. clear H.
  apply forallb_forall. intros t Ht. unfold scene_types in Ht.
  apply in_flat_map in Ht. destruct Ht as (kv & Hkv & Ht).
  enough (G : Forall (fun kv0 => forallb creators (desc_types (snd kv0)) = true)
                description).
  { rewrite Forall_forall in G. specialize (G kv Hkv).
    rewrite forallb_forall in G. apply G. exact Ht. }
  revert E.
  apply (foldM_prefix _
           (fun pre (_ : Dict.t Entity) (_ : World) =>
              Forall (fun kv0 => forallb creators (desc_types (snd kv0)) = true) pre)).
  - intros pre x post b w1 b' w1' El HQ Hf. bind_inv Hf.
    apply Forall_app. split; [exact HQ|]. constructor; [|constructor].
    eapply construChildrenRecurse_known. exact E.
  - constructor.
Qed.

(** X7.  On a description that does not name the component type
    [constructor], the constructor of the recursive revision returns a
    scene exactly when every component type the description names, at any
    depth, is one the component creator has registered. *)
Theorem rec_new_Scene_succeeds_iff (creators : string -> bool)
    (description : ISceneDesc) (w : World) :
  existsb (String.eqb "constructor") (scene_types description) = false ->
  (exists s w', SceneRec.new_Scene creators description w = (Normal s, w'))
  <-> forallb creators (scene_types description) = true.
Proof.
  intros _. split.
  - apply rec_new_Scene_succeeds_iff_aux.
  - intros Hall. rewrite new_Scene_unfold. unfold bind at 1.
    destruct (@foldM_total _ _
                (fun scenes kv =>
                   bind (SceneRec.construChildrenRecurse creators (snd kv))
                        (fun entity => ret (Dict.set (fst kv) entity scenes)))
                (fun _ _ _ => True) description) with (b := @nil (string * Entity))
        (w := w) as (sc & w' & Hfold & _).
    + intros pre x post b w0 El _.
      destruct (@construChildrenRecurse_total creators (snd x)) with (w := w0)
        as (e & w1 & He).
      { rewrite forallb_forall in Hall |- *. intros t Ht. apply Hall.
        unfold scene_types. apply in_flat_map. exists x.
        split; [rewrite El; apply in_elt | exact Ht]. }
      exists (Dict.set (fst x) e b), w1. unfold bind. rewrite He.
      split; [reflexivity | exact I].
    + exact I.
    + rewrite Hfold. exists (mkScene sc), w'. reflexivity.
Qed.

Lemma rec_new_Scene_succeeds_iff_witness :
  (exists s w',
      SceneRec.new_Scene factory_creators Inputs.three_levels world0 = (Normal s, w'))
  <-> forallb factory_creators (scene_types Inputs.three_levels) = true.
Proof.
  apply (@rec_new_Scene_succeeds_iff factory_creators Inputs.three_levels world0).
  reflexivity.
Defined.

(** X8.  If a description that does not name the component type
    [constructor] names, at any depth, a component type the creator has
    not registered, [create] of the recursive revision returns a promise
    rejected with the [TypeError] of the constructor; no [setup] is called
    and the scene that was active stays the active one. *)
Theorem rec_create_unknown_type (creators : string -> bool)
    (setup : IComponent -> Payload -> option Scene -> SetupResult)
    (description : ISceneDesc) (w : World) :
  existsb (String.eqb "constructor") (scene_types description) = false ->
  forallb creators (scene_types description) = false ->
  fst (SceneRec.create creators setup description w) = Normal (Rejected TypeError) /\
  current (snd (SceneRec.create creators setup description w)) = current w /\
  setups (snd (SceneRec.create creators setup description w)) = setups w.
Proof.
  intros _ Hno.
  destruct (SceneRec.new_Scene creators description w) as [[s|err] w1] eqn:H.
  - exfalso.
    assert (Hall : forallb creators (scene_types description) = true).
    { apply (rec_new_Scene_succeeds_iff_aux creators description w). eauto. }
    congruence.
  - pose proof (new_Scene_same_process _ _ _ H) as (Hc & Hs & _).
    assert (Herr : err = TypeError).
    { rewrite new_Scene_unfold in H. bind_inv H; [discriminate H|].
      inversion H; subst. apply foldM_throw_inv in E.
      destruct E as (x & b0 & w0 & _ & Hf).
      bind_inv Hf; [discriminate Hf|]. inversion Hf; subst.
      eapply construChildrenRecurse_throw. exact E. }
    subst err.
    assert (Hcreate : SceneRec.create creators setup description w
                      = (Normal (Rejected TypeError), w1)).
    { rewrite create_unfold. unfold new_Promise, bind. rewrite H. reflexivity. }
    rewrite Hcreate. simpl. split; [reflexivity | split; assumption].
Qed.

Lemma rec_create_unknown_type_witness :
  fst (SceneRec.create factory_creators Inputs.setup_async unknown_type_desc
         Inputs.old_world) = Normal (Rejected TypeError) /\
  current (snd (SceneRec.create factory_creators Inputs.setup_async
                  unknown_type_desc Inputs.old_world)) = current Inputs.old_world /\
  setups (snd (SceneRec.create factory_creators Inputs.setup_async
                 unknown_type_desc Inputs.old_world)) = setups Inputs.old_world.
Proof.
  apply (@rec_create_unknown_type factory_creators Inputs.setup_async
           unknown_type_desc Inputs.old_world).
  - reflexivity.
  - reflexivity.
Defined.

(** X9.  On a well-formed description whose entity names are ordinary
    keys (none is [__proto__], none is written with digits only), the
    constructor of the recursive revision builds the roots under their
    names and in their order, and every path of child names the
    description has leads, by [getChild], to an entity with the described
    components and the described child names, at any depth. *)
Theorem rec_new_Scene_builds_paths (creators : string -> bool)
    (description : ISceneDesc) (w w' : World) (s : Scene) :
  forallb ordinary_key (scene_names description) = true ->
  wf_scene_desc description = true ->
  SceneRec.new_Scene creators description w = (Normal s, w') ->
  Dict.keys (scenes s) = Dict.keys description /\
  forall root d path d',
    In (root, d) description -> desc_at path d = Some d' ->
    exists e e',
      Dict.get root (scenes s) = Some e /\ entity_at path e = Some e' /\
      map __type (components e') = Dict.keys (desc_components d') /\
      Dict.keys (children e') = Dict.keys (desc_children d').
Proof.
  intros _ Hwf H.
  destruct (@new_Scene_roots creators description w w' s Hwf H) as (Hkeys & Hroots).
  split; [exact Hkeys|]. intros root d path d' Hin Hat.
  rewrite Forall_forall in Hroots.
  destruct (Hroots (root, d) Hin) as (e & He & Hm). simpl in He, Hm.
  destruct (mirrors_entity_at path d e Hm Hat) as (e' & He' & Hm').
  apply mirrors_unfold in Hm'. destruct Hm' as (Hty & Hch & _).
  exists e, e'. repeat split; assumption.
Qed.

Lemma rec_new_Scene_builds_paths_witness :
  Dict.keys (scenes Built.three_levels_rec) = Dict.keys Inputs.three_levels /\
  forall root d path d',
    In (root, d) Inputs.three_levels -> desc_at path d = Some d' ->
    exists e e',
      Dict.get root (scenes Built.three_levels_rec) = Some e /\
      entity_at path e = Some e' /\
      map __type (components e') = Dict.keys (desc_components d') /\
      Dict.keys (children e') = Dict.keys (desc_children d').
Proof.
  apply (@rec_new_Scene_builds_paths factory_creators Inputs.three_levels world0
           (mkWorld None 1 [] []) Built.three_levels_rec); reflexivity.
Defined.

(** ** Lookup, recursive revision *)

(** X10.  On a scene whose entities are stored under ordinary keys, and
    for a name that objects do not inherit from [Object.prototype],
    [findObject] of the recursive revision returns exactly when an entity
    of the scene, at any depth, is stored under that name, and then
    returns such an entity; otherwise it throws the error "Did not find
    the object" followed by the name. *)
Theorem rec_findObject_total (n : string) (s : Scene) :
  forallb ordinary_key (map snd (scene_entities s)) = true ->
  own_name n = true ->
  (In n (map snd (scene_entities s)) ->
   exists e, SceneRec.findObject n s = Normal e /\ In (e, n) (scene_entities s)) /\
  (~ In n (map snd (scene_entities s)) ->
   SceneRec.findObject n s = Throw (Error ("Did not find the object " ++ n))).
Proof.
  intros _ _. split.
  - intros Hin. destruct (SceneRec.findObject n s) as [e|err] eqn:H.
    + exists e. split; [reflexivity | apply rec_findObject_sound; exact H].
    + exfalso.
      assert (Herr : err = Error ("Did not find the object " ++ n)).
      { unfold SceneRec.findObject in H.
        destruct (Dict.get n (scenes s)); [discriminate H|].
        destruct (first_some (fun kv => SceneRec.findRecurse n (snd kv)) (scenes s));
          [discriminate H | inversion H; reflexivity]. }
      subst err. apply rec_findObject_throws_iff in H. contradiction.
  - intros Hno. apply rec_findObject_throws_iff. exact Hno.
Qed.

Lemma rec_findObject_total_witness :
  (In "C" (map snd (scene_entities Built.three_levels_rec)) ->
   exists e, SceneRec.findObject "C" Built.three_levels_rec = Normal e /\
             In (e, "C") (scene_entities Built.three_levels_rec)) /\
  (~ In "C" (map snd (scene_entities Built.three_levels_rec)) ->
   SceneRec.findObject "C" Built.three_levels_rec
   = Throw (Error ("Did not find the object " ++ "C"))).
Proof.
  apply (@rec_findObject_total "C" Built.three_levels_rec); reflexivity.
Defined.

Lemma NoDup_names_unique {A : Type} (l : list (A * string)) (a b : A) (n : string) :
  NoDup (map snd l) -> In (a, n) l -> In (b, n) l -> a = b.
Proof.
  induction l as [|[x k] l IH]; simpl; intros Hnd Ha Hb; [destruct Ha|].
  inversion Hnd as [|? ? Hk Hl]; subst.
  destruct Ha as [Ea|Ha]; destruct Hb as [Eb|Hb].
  - congruence.
  - inversion Ea; subst. exfalso. apply Hk.
    change n with (snd (b, n)). apply in_map. exact Hb.
  - inversion Eb; subst. exfalso. apply Hk.
    change n with (snd (a, n)). apply in_map. exact Ha.
  - apply IH; assumption.
Qed.

(** X11.  In a scene whose entities are stored under ordinary keys and
    where no two entities bear the same name, [findObject] of the
    recursive revision returns, for each name that objects do not inherit
    from [Object.prototype], the entity stored under it, at whatever depth
    it is. *)
Theorem rec_findObject_unique_names (n : string) (s : Scene) (e : Entity) :
  forallb ordinary_key (map snd (scene_entities s)) = true ->
  own_name n = true ->
  NoDup (map snd (scene_entities s)) ->
  In (e, n) (scene_entities s) ->
  SceneRec.findObject n s = Normal e.
Proof.
  intros _ _ Hnd Hin.
  destruct (SceneRec.findObject n s) as [e'|err] eqn:H.
  - apply rec_findObject_sound in H. f_equal.
    apply (NoDup_names_unique _ e' e n Hnd H Hin).
  - exfalso.
    assert (Herr : err = Error ("Did not find the object " ++ n)).
    { unfold SceneRec.findObject in H.
      destruct (Dict.get n (scenes s)); [discriminate H|].
      destruct (first_some (fun kv => SceneRec.findRecurse n (snd kv)) (scenes s));
        [discriminate H | inversion H; reflexivity]. }
    subst err. apply rec_findObject_throws_iff in H. apply H.
    change n with (snd (e, n)). apply in_map. exact Hin.
Qed.

Lemma rec_findObject_unique_names_witness :
  SceneRec.findObject "C" Built.three_levels_rec
  = Normal (mkEntity [mkComponent "Position" 0] []).
Proof.
  apply (@rec_findObject_unique_names "C" Built.three_levels_rec
           (mkEntity [mkComponent "Position" 0] [])).
  - reflexivity.
  - reflexivity.
  - simpl. repeat constructor; simpl; intuition discriminate.
  - simpl. right. right. left. reflexivity.
Defined.

Lemma descendants_unfold (e : Entity) :
  descendants e
  = flat_map (fun kv => (snd kv, fst kv) :: descendants (snd kv)) (children e).
Proof. destruct e; reflexivity. Qed.

Lemma descendants_direct (e c : Entity) (k : string) :
  In (k, c) (children e) -> In (c, k) (descendants e).
Proof.
  intros Hc. rewrite descendants_unfold. apply in_flat_map.
  exists (k, c). split; [exact Hc | left; reflexivity].
Qed.

(** The children of an entity of the scene are entities of the scene. *)
Lemma descendants_child (p : Entity) :
  forall e n c k, In (e, n) (descendants p) -> In (k, c) (children e) ->
                  In (c, k) (descendants p).
Proof.
  induction p as [cs ch IH] using Entity_induction.
  intros e n c k He Hc. simpl in He |- *. apply in_flat_map in He.
  destruct He as (kv & Hkv & He). apply in_flat_map. exists kv.
  split; [exact Hkv|]. right. destruct He as [He|He].
  - inversion He; subst. apply descendants_direct. exact Hc.
  - rewrite Forall_forall in IH. apply (IH kv Hkv e n c k He Hc).
Qed.

Lemma scene_entities_child (s : Scene) (e : Entity) (n : string) (c : Entity)
    (k : string) :
  In (e, n) (scene_entities s) -> In (k, c) (children e) ->
  In (c, k) (scene_entities s).
Proof.
  unfold scene_entities. intros He Hc. apply in_flat_map in He.
  destruct He as (kv & Hkv & He). apply in_flat_map. exists kv.
  split; [exact Hkv|]. right. destruct He as [He|He].
  - inversion He; subst. apply descendants_direct. exact Hc.
  - apply (descendants_child (snd kv) e n c k He Hc).
Qed.

(** X12.  In a scene whose entities are stored under ordinary keys and
    where no two entities bear the same name, and for names that objects
    do not inherit from [Object.prototype], looking an entity up and
    taking its child of some name gives the entity that looking that name
    up gives: [findObject(p).getChild(k)] is [findObject(k)]. *)
Theorem rec_findObject_getChild (s : Scene) (pn k : string) (p c : Entity) :
  forallb ordinary_key (map snd (scene_entities s)) = true ->
  own_name pn = true ->
  own_name k = true ->
  NoDup (map snd (scene_entities s)) ->
  SceneRec.findObject pn s = Normal p ->
  getChild k p = Some c ->
  SceneRec.findObject k s = Normal c.
Proof.
  intros _ _ _ Hnd Hp Hc. apply rec_findObject_sound in Hp.
  apply get_In in Hc.
  pose proof (scene_entities_child s p pn c k Hp Hc) as Hin.
  destruct (SceneRec.findObject k s) as [e'|err] eqn:H.
  - apply rec_findObject_sound in H. f_equal.
    apply (NoDup_names_unique _ e' c k Hnd H Hin).
  - exfalso.
    assert (Herr : err = Error ("Did not find the object " ++ k)).
    { unfold SceneRec.findObject in H.
      destruct (Dict.get k (scenes s)); [discriminate H|].
      destruct (first_some (fun kv => SceneRec.findRecurse k (snd kv)) (scenes s));
        [discriminate H | inversion H; reflexivity]. }
    subst err. apply rec_findObject_throws_iff in H. apply H.
    change k with (snd (c, k)). apply in_map. exact Hin.
Qed.

Lemma rec_findObject_getChild_witness :
  SceneRec.findObject "B" Inputs.parent_child_scene
  = Normal (mkEntity [mkComponent "Position" 1] []).
Proof.
  apply (@rec_findObject_getChild Inputs.parent_child_scene "A" "B"
           (mkEntity [mkComponent "Position" 0]
              [("B", mkEntity [mkComponent "Position" 1] [])])
           (mkEntity [mkComponent "Position" 1] [])).
  - reflexivity.
  - reflexivity.
  - reflexivity.
  - simpl. repeat constructor; simpl; intuition discriminate.
  - reflexivity.
  - reflexivity.
Defined.

(** ** Traversal, recursive revision *)

(** X13.  With a walker that returns a promise on every entity, [walk] of
    the recursive revision calls it exactly once on every root and on
    every entity below a root, at every depth, parents before children,
    and changes nothing else in the process. *)
Theorem rec_walk_visits_every_entity (fn : Entity -> string -> VisitResult)
    (s : Scene) (w : World) :
  (forall e n, exists p, fn e n = VPromise p) ->
  visits (snd (SceneRec.walk fn s w)) = visits w ++ scene_entities s.
Proof.
  intros Hfn. apply rec_walk_visits_all. exact Hfn.
Qed.

Lemma rec_walk_visits_every_entity_witness :
  visits (snd (SceneRec.walk Inputs.walker_by_name Built.three_levels_rec world0))
  = visits world0 ++ scene_entities Built.three_levels_rec.
Proof.
  apply (@rec_walk_visits_every_entity Inputs.walker_by_name
           Built.three_levels_rec world0).
  intros e n. unfold Inputs.walker_by_name.
  destruct (String.eqb n "A"); [eauto|]. destruct (String.eqb n "B"); eauto.
Defined.

Lemma new_Promise_normal (executor : M Promise) (w : World) :
  exists p w', new_Promise executor w = (Normal p, w').
Proof.
  unfold new_Promise. destruct (executor w) as [[p|e] w']; eauto.
Qed.

(** X14.  [walk] of the recursive revision never throws and its promise is
    never rejected, whatever the walker does.  If the walker throws on a
    root, the promise of [walk] stays pending for ever. *)
Theorem rec_walk_never_fails (fn : Entity -> string -> VisitResult)
    (s : Scene) (w : World) :
  exists ps,
    fst (SceneRec.walk fn s w) = Normal (AfterAll ps) /\
    (forall st, status st (AfterAll ps) <> Failed) /\
    (forall k r err, In (k, r) (scenes s) -> fn r k = VThrow err ->
                     forall st, status st (AfterAll ps) = Pending).
Proof.
  unfold SceneRec.walk.
  destruct (@foldM_total _ _
              (fun promises kv =>
                 bind (new_Promise
                         (bind (call_fn fn (snd kv) (fst kv))
                            (fun p0 =>
                               bind (foldM (fun ps ckv =>
                                              bind (SceneRec.walkChildrenRecurse fn
                                                      (snd ckv) (fst ckv))
                                                   (fun q => ret (ps ++ [q])))
                                           (children (snd kv)) [])
                                    (fun ps => ret (AfterAny (p0 :: ps))))))
                      (fun p => ret (promises ++ [p])))
              (fun pre ps _ =>
                 forall k r err, In (k, r) pre -> fn r k = VThrow err ->
                                 In (Rejected err) ps)
              (scenes s)) with (b := @nil Promise) (w := w)
    as (ps & w' & Hfold & Hps).
  - intros pre [k r] post b w0 _ HQ. simpl fst. simpl snd.
    match goal with
    | |- context [new_Promise ?ex] =>
        destruct (new_Promise_normal ex w0) as (p & w1 & Hp);
        pose proof (new_Promise_inv ex w0 Hp) as (r0 & Hex & Hr0)
    end.
    exists (b ++ [p]), w1. unfold bind at 1. rewrite Hp.
    split; [reflexivity|].
    intros k' r' err Hin Hthrow. apply in_app_or in Hin. apply in_or_app.
    destruct Hin as [Hin|[Hin|[]]]; [left; eapply HQ; eauto|].
    inversion Hin; subst k' r'. right. left.
    unfold bind at 1 in Hex. unfold call_fn in Hex. rewrite Hthrow in Hex.
    inversion Hex; subst. inversion Hr0. reflexivity.
  - intros k r err [].
  - exists ps. rewrite new_Promise_fst. unfold bind at 1. rewrite Hfold.
    simpl fst.
    split; [reflexivity|]. split.
    + intros st. simpl.
      destruct (forallb (fun q => is_fulfilled (status st q)) ps); discriminate.
    + intros k r err Hin Hthrow st.
      apply status_AfterAll_pending with (q := Rejected err);
        [eapply Hps; eauto | reflexivity].
Qed.

(** ** The configuration pass, recursive revision: which setups are called *)




Section SceneRecIssued.

Variable setup : IComponent -> Payload -> option Scene -> SetupResult.

(** No [setup] throws. *)
Hypothesis no_throw : forall c desc cur err, setup c desc cur <> SThrow err.






End SceneRecIssued.


(** ** The configuration pass, recursive revision: what the promise awaits *)



(** X17.  The promise of [create] of the recursive revision awaits the
    setups of the components of the roots: if the [setup] of one component
    of a root hands back a promise, the promise of [create] is completed
    only when that promise is. *)
Theorem rec_create_awaits_root_setups (creators : string -> bool)
    (setup : IComponent -> Payload -> option Scene -> SetupResult)
    (description : ISceneDesc) (w wc : World) (scene : Scene)
    (kv : string * IEntityDesc) (t : string) (cfg : Payload)
    (e : Entity) (c : IComponent) (n : nat) (st : nat -> Status) (p : Promise) :
  SceneRec.new_Scene creators description w = (Normal scene, wc) ->
  In kv description ->
  In (t, cfg) (desc_components (snd kv)) ->
  Dict.get (fst kv) (scenes scene) = Some e ->
  getComponent t e = Normal (Some c) ->
  setup c cfg (Some scene) = SPromise n ->
  fst (SceneRec.create creators setup description w) = Normal p ->
  status st p = Fulfilled ->
  st n = Fulfilled.
Proof.
  intros H Hkv Hcfg He Hc Hasync Hp Hst.
  destruct (@create_after_construction creators setup description w wc scene H)
    as (Hs & Hcr).
  rewrite Hcr in Hp. clear Hcr.
  destruct (foldM (create_turn setup) description []
              (mkWorld (Some scene) (nextId wc) (setups wc) (visits wc)))
    as [[ps|err] w'] eqn:E; simpl in Hp; inversion Hp; subst p;
    [|discriminate Hst].
  assert (Hin : In (External n) ps).
  { revert E.
    apply (foldM_pushes (create_turn setup) (sees scene (setups w)) description kv
             (External n) Hkv).
    - intros x b w1 r w1' _ HP. apply create_turn_sees. exact HP.
    - intros b x w1 b' w1' _. apply create_turn_grows.
    - intros b w1 b' w1' HP Hturn. eapply create_turn_pushes_at; eauto.
    - exact Hs. }
  simpl in Hst.
  destruct (forallb (fun q => is_fulfilled (status st q)) ps) eqn:Hall;
    [|discriminate Hst].
  rewrite forallb_forall in Hall. specialize (Hall _ Hin). simpl in Hall.
  destruct (st n); [discriminate Hall | reflexivity | discriminate Hall].
Qed.

Lemma rec_create_awaits_root_setups_witness :
  Inputs2.all_fulfilled 1 = Fulfilled.
Proof.
  apply (@rec_create_awaits_root_setups factory_creators Inputs2.setup_one_missing
           Inputs2.two_textures Inputs.old_world
           (mkWorld (Some Inputs.old_scene) 2 [] []) Inputs2.two_textures_scene
           ("B", mkEntityDesc [("Texture", "missing.png")] [])
           "Texture" "missing.png"
           (mkEntity [mkComponent "Texture" 1] []) (mkComponent "Texture" 1) 1
           Inputs2.all_fulfilled (AfterAll [External 0; External 1])).
  - reflexivity.
  - right. left. reflexivity.
  - left. reflexivity.
  - reflexivity.
  - reflexivity.
  - reflexivity.
  - reflexivity.
  - reflexivity.
Defined.

(** [bind_inv] with the names of the value, the world and the equation. *)
Tactic Notation "bind_inv" hyp(H) "as" ident(a) ident(w1) ident(E) :=
  unfold bind in H at 1;
  match type of H with
  | (match ?c ?w with _ => _ end) = _ =>
      let err := fresh "err" in
      destruct (c w) as [[a|err] w1] eqn:E; [|try discriminate H]
  end.

(** ** [scene.ts]: construction *)

(** X18.  On a well-formed description in which the names of the roots
    and of their children are ordinary keys (none is [__proto__], none is
    written with digits only), the constructor of [scene.ts] builds the
    roots under their names and in their order, each with the described
    components, and under each described child name an entity with the
    components described for that child and no children. *)
Theorem flat_new_Scene_one_level (creators : string -> bool)
    (description : ISceneDesc) (w w' : World) (s : Scene) :
  forallb ordinary_key (top_names description) = true ->
  wf_scene_desc description = true ->
  SceneFlat.new_Scene creators description w = (Normal s, w') ->
  Dict.keys (scenes s) = Dict.keys description /\
  Forall (fun kv => exists e, Dict.get (fst kv) (scenes s) = Some e
                              /\ mirrors_one_level (snd kv) e) description.
Proof.
  intros _ Hwf H. apply wf_scene_desc_unfold in Hwf. destruct Hwf as (Hnd & Hwf).
  unfold SceneFlat.new_Scene in H. bind_inv H as sc w0 E. inversion H; subst s w0.
  clear H.
  simpl. revert E.
  apply (foldM_prefix _
           (fun pre (sc : Dict.t Entity) (_ : World) =>
              Dict.keys sc = Dict.keys pre /\
              Forall (fun kv => exists e, Dict.get (fst kv) sc = Some e
                                          /\ mirrors_one_level (snd kv) e) pre)).
  - intros pre x post b w1 b' w1' Ed (Q1 & Q2) Hf.
    assert (Hx : In x description) by (rewrite Ed; apply in_elt).
    rewrite Forall_forall in Hwf. pose proof (Hwf x Hx) as Hwfx.
    apply wf_desc_unfold in Hwfx. destruct Hwfx as (_ & Hndch & _).
    bind_inv Hf as e1 w2 E1. apply addComponents_inv in E1.
    destruct E1 as (added & Hcomp & Hty & Hch & _).
    simpl in Hcomp, Hch.
    bind_inv Hf as e2 w3 E2. inversion Hf; subst b' w1'. clear Hf.
    assert (Hm : mirrors_one_level (snd x) e2).
    { enough (G : components e2 = added /\
                  Dict.keys (children e2) = Dict.keys (desc_children (snd x)) /\
                  Forall (fun kv =>
                            exists c, getChild (fst kv) e2 = Some c /\
                                      map __type (components c)
                                      = Dict.keys (desc_components (snd kv)) /\
                                      children c = []) (desc_children (snd x))).
      { destruct G as (P1 & P2 & P3). unfold mirrors_one_level.
        rewrite P1. split; [exact Hty|]. split; assumption. }
      revert E2.
      apply (foldM_prefix _
               (fun pre1 (e0 : Entity) (_ : World) =>
                  components e0 = added /\
                  Dict.keys (children e0) = Dict.keys pre1 /\
                  Forall (fun kv =>
                            exists c, getChild (fst kv) e0 = Some c /\
                                      map __type (components c)
                                      = Dict.keys (desc_components (snd kv)) /\
                                      children c = []) pre1)).
      - intros pre1 y post1 b1 w4 b1' w4' Ech (P1 & P2 & P3) Hy.
        bind_inv Hy as myChild w5 E3. inversion Hy; subst b1' w4'. clear Hy.
        apply addComponents_inv in E3.
        destruct E3 as (added1 & Hcomp1 & Hty1 & Hch1 & _).
        simpl in Hcomp1, Hch1.
        assert (Hfresh : ~ In (fst y) (Dict.keys pre1)).
        { rewrite Ech in Hndch. unfold Dict.keys in Hndch. rewrite map_app in Hndch.
          simpl in Hndch. apply NoDup_remove_2 in Hndch.
          intros Hin. apply Hndch. apply in_or_app. left. exact Hin. }
        unfold addChild, getChild. simpl. split; [exact P1|]. split.
        + rewrite keys_set_new by (rewrite P2; exact Hfresh).
          rewrite P2. unfold Dict.keys. rewrite map_app. reflexivity.
        + apply Forall_app. split.
          * rewrite Forall_forall in P3 |- *. intros kv Hkv.
            destruct (P3 kv Hkv) as (c & Hc & Hmc). exists c. split; [|exact Hmc].
            unfold getChild in Hc. rewrite get_set_other; [exact Hc|].
            intros Eq. apply Hfresh. rewrite <- Eq.
            unfold Dict.keys. apply in_map. exact Hkv.
          * constructor; [|constructor].
            exists myChild. split; [apply get_set_same|].
            rewrite Hcomp1. split; [exact Hty1 | exact Hch1].
      - rewrite Hcomp, Hch. simpl. repeat split. constructor. }
    assert (Hfresh : ~ In (fst x) (Dict.keys pre)).
    { rewrite Ed in Hnd. unfold Dict.keys in Hnd. rewrite map_app in Hnd.
      simpl in Hnd. apply NoDup_remove_2 in Hnd.
      intros Hin. apply Hnd. apply in_or_app. left. exact Hin. }
    split.
    + rewrite keys_set_new by (rewrite Q1; exact Hfresh).
      rewrite Q1. unfold Dict.keys. rewrite map_app. reflexivity.
    + apply Forall_app. split.
      * rewrite Forall_forall in Q2 |- *. intros kv Hkv.
        destruct (Q2 kv Hkv) as (c & Hc & Hmc). exists c. split; [|exact Hmc].
        rewrite get_set_other; [exact Hc|].
        intros Eq. apply Hfresh. rewrite <- Eq.
        unfold Dict.keys. apply in_map. exact Hkv.
      * constructor; [|constructor].
        exists e2. split; [apply get_set_same | exact Hm].
  - split; [reflexivity | constructor].
Qed.

Lemma flat_new_Scene_one_level_witness :
  Dict.keys (scenes Built.three_levels_flat) = Dict.keys Inputs.three_levels /\
  Forall (fun kv => exists e,
              Dict.get (fst kv) (scenes Built.three_levels_flat) = Some e
              /\ mirrors_one_level (snd kv) e) Inputs.three_levels.
Proof.
  apply (@flat_new_Scene_one_level factory_creators Inputs.three_levels world0
           world0 Built.three_levels_flat); reflexivity.
Defined.

(** ** [scene.ts]: lookup *)

Lemma last_some_None {A B : Type} (f : A -> option B) (l : list A) :
  forall found,
    last_some f l found = None <-> found = None /\ forall x, In x l -> f x = None.
Proof.
  unfold last_some. induction l as [|x l IH]; intros found; simpl.
  - split; [intros H; split; [exact H | intros x []] | intros [H _]; exact H].
  - rewrite IH. split.
    + intros [H1 H2]. destruct (f x) eqn:E; [discriminate H1|].
      split; [exact H1|]. intros y [<-|Hy]; [exact E | apply H2; exact Hy].
    + intros [H1 H2]. split.
      * rewrite (H2 x (or_introl eq_refl)). exact H1.
      * intros y Hy. apply H2. right. exact Hy.
Qed.

Lemma last_some_last {A B : Type} (f : A -> option B) (l1 l2 : list A) (x : A)
    (b : B) (found : option B) :
  f x = Some b -> (forall y, In y l2 -> f y = None) ->
  last_some f (l1 ++ x :: l2) found = Some b.
Proof.
  intros Hx Hl2. unfold last_some. rewrite fold_left_app. simpl. rewrite Hx.
  clear Hx. induction l2 as [|y l2 IH]; simpl; [reflexivity|].
  rewrite (Hl2 y (or_introl eq_refl)). apply IH.
  intros z Hz. apply Hl2. right. exact Hz.
Qed.

(** X19.  [findObject] of [scene.ts] never throws: it returns [undefined]
    exactly when the name is neither that of a root nor that of a direct
    child of a root. *)
Theorem flat_findObject_undefined_iff (n : string) (s : Scene) :
  SceneFlat.findObject n s = None
  <-> Dict.get n (scenes s) = None /\
      forall kv, In kv (scenes s) -> getChild n (snd kv) = None.
Proof.
  unfold SceneFlat.findObject.
  destruct (Dict.get n (scenes s)) as [e|].
  - split; [discriminate | intros [H _]; discriminate H].
  - rewrite last_some_None. tauto.
Qed.

(** X20.  When no root bears the name, [findObject] of [scene.ts] returns
    the child of that name of the last root that has one. *)
Theorem flat_findObject_last_root (n : string) (s : Scene)
    (l1 l2 : list (string * Entity)) (k : string) (r c : Entity) :
  Dict.get n (scenes s) = None ->
  scenes s = l1 ++ (k, r) :: l2 ->
  getChild n r = Some c ->
  (forall kv, In kv l2 -> getChild n (snd kv) = None) ->
  SceneFlat.findObject n s = Some c.
Proof.
  intros Hroot Hs Hc Hl2. unfold SceneFlat.findObject. rewrite Hroot, Hs.
  apply (last_some_last (fun kv => getChild n (snd kv)) l1 l2 (k, r) None Hc Hl2).
Qed.

Lemma flat_findObject_last_root_witness :
  SceneFlat.findObject "x" Built.two_parents
  = Some (mkEntity [mkComponent "Motion" 1] []).
Proof.
  apply (@flat_findObject_last_root "x" Built.two_parents
           [("A", mkEntity [] [("x", mkEntity [mkComponent "Position" 0] [])])] []
           "B" (mkEntity [] [("x", mkEntity [mkComponent "Motion" 1] [])])
           (mkEntity [mkComponent "Motion" 1] [])).
  - reflexivity.
  - reflexivity.
  - reflexivity.
  - intros kv [].
Defined.

(** ** [scene.ts]: configuration pass and traversal *)

(** X21.  When [create] of [scene.ts] has constructed the scene, that scene
    is the active one before the first [setup] and at the end: every call
    of [setup] finds it in [Scene.current]. *)
Theorem flat_create_sets_current_first (creators : string -> bool)
    (setup : IComponent -> Payload -> option Scene -> SetupResult)
    (description : ISceneDesc) (w wc : World) (scene : Scene) :
  SceneFlat.new_Scene creators description w = (Normal scene, wc) ->
  current (snd (SceneFlat.create creators setup description w)) = Some scene /\
  exists calls,
    setups (snd (SceneFlat.create creators setup description w)) = setups w ++ calls /\
    Forall (fun c => sc_current c = Some scene) calls.
Proof.
  intros H.
  apply (@flat_create_activates_built_scene creators setup description w wc scene H).
Qed.

Lemma flat_create_sets_current_first_witness :
  current (snd (SceneFlat.create factory_creators Inputs.setup_async
                  Inputs.parent_child Inputs.old_world))
  = Some Inputs.parent_child_scene /\
  exists calls,
    setups (snd (SceneFlat.create factory_creators Inputs.setup_async
                   Inputs.parent_child Inputs.old_world))
    = setups Inputs.old_world ++ calls /\
    Forall (fun c => sc_current c = Some Inputs.parent_child_scene) calls.
Proof.
  apply (@flat_create_sets_current_first factory_creators Inputs.setup_async
           Inputs.parent_child Inputs.old_world
           (mkWorld (Some Inputs.old_scene) 2 [] []) Inputs.parent_child_scene).
  reflexivity.
Defined.

Section SceneFlatJoin.

Variable setup : IComponent -> Payload -> option Scene -> SetupResult.
Variable before : list SetupCall.

Lemma setup_component_normal_inv (x : option Entity) (type : string)
    (desc : Payload) (w w' : World) (p : Promise) :
  setup_component setup x type desc w = (Normal p, w') ->
  exists call, setups w' = setups w ++ [call] /\
               forall n, sc_result call = SPromise n -> p = External n.
Proof.
  unfold setup_component. destruct x as [e|]; [|intros H; discriminate H].
  destruct (getComponent type e) as [[c|]|err]; try (intros H; discriminate H).
  unfold call_setup. intros H.
  exists (mkSetupCall c desc (current w) (setup c desc (current w))).
  destruct (setup c desc (current w)) as [|m|err] eqn:E; inversion H; subst; simpl.
  - split; [reflexivity | intros n Hn; discriminate Hn].
  - split; [reflexivity | intros n Hn; inversion Hn; reflexivity].
Qed.

Lemma joined_push (ps : list Promise) (p : Promise) (w w' : World) (call : SetupCall) :
  joined before ps w ->
  setups w' = setups w ++ [call] ->
  (forall n, sc_result call = SPromise n -> p = External n) ->
  joined before (ps ++ [p]) w'.
Proof.
  intros (calls & Hs & Hj) Hw Hp. exists (calls ++ [call]). split.
  - rewrite Hw, Hs, app_assoc. reflexivity.
  - intros n Hn. unfold issued_promises in Hn. rewrite flat_map_app in Hn.
    apply in_app_or in Hn. apply in_or_app. destruct Hn as [Hn|Hn].
    + left. apply Hj. exact Hn.
    + right. simpl in Hn. rewrite app_nil_r in Hn.
      destruct (sc_result call) as [|m|err] eqn:E; simpl in Hn.
      * destruct Hn.
      * destruct Hn as [<-|[]]. rewrite (Hp m eq_refl). left. reflexivity.
      * destruct Hn.
Qed.

Lemma flat_component_turn_joined (obj type : string) (desc : Payload)
    (ps ps' : list Promise) (w w' : World) :
  joined before ps w ->
  bind (SceneFlat.current_findObject obj)
    (fun e => bind (setup_component setup e type desc)
                (fun p => ret (ps ++ [p]))) w = (Normal ps', w') ->
  joined before ps' w'.
Proof.
  intros Hj H. bind_inv H as e w1 E1.
  apply flat_current_findObject_inv in E1. subst w1.
  bind_inv H as p w2 E2. inversion H; subst ps' w'.
  destruct (setup_component_normal_inv _ _ _ _ E2) as (call & Hw & Hp).
  eapply joined_push; eassumption.
Qed.

Lemma flat_child_component_turn_joined (obj child type : string) (desc : Payload)
    (ps ps' : list Promise) (w w' : World) :
  joined before ps w ->
  bind (SceneFlat.current_findObject obj)
    (fun e => bind (SceneFlat.getChild_of e child)
                (fun c => bind (setup_component setup c type desc)
                            (fun p => ret (ps ++ [p])))) w = (Normal ps', w') ->
  joined before ps' w'.
Proof.
  intros Hj H. bind_inv H as e w1 E1.
  apply flat_current_findObject_inv in E1. subst w1.
  bind_inv H as c w2 E2. apply flat_getChild_of_inv in E2. subst w2.
  bind_inv H as p w3 E3. inversion H; subst ps' w'.
  destruct (setup_component_normal_inv _ _ _ _ E3) as (call & Hw & Hp).
  eapply joined_push; eassumption.
Qed.

End SceneFlatJoin.

(** X22.  The promise of [create] of [scene.ts] awaits every [setup] that
    [create] called: when it is completed, so is every promise a [setup]
    handed back during the build. *)
Theorem flat_create_awaits_issued (creators : string -> bool)
    (setup : IComponent -> Payload -> option Scene -> SetupResult)
    (description : ISceneDesc) (w : World) (p : Promise) (st : nat -> Status)
    (calls : list SetupCall) (n : nat) :
  fst (SceneFlat.create creators setup description w) = Normal p ->
  status st p = Fulfilled ->
  setups (snd (SceneFlat.create creators setup description w)) = setups w ++ calls ->
  In n (issued_promises calls) ->
  st n = Fulfilled.
Proof.
  intros Hp Hst Hcalls Hn. unfold SceneFlat.create in Hp, Hcalls.
  rewrite new_Promise_fst in Hp. rewrite new_Promise_snd in Hcalls.
  match type of Hcalls with
  | context [snd (?ex w)] => destruct (ex w) as [[q|err] w'] eqn:Hex
  end; simpl in Hp, Hcalls; inversion Hp; subst p; [|discriminate Hst].
  bind_inv Hex as scene wc Hnew.
  apply flat_new_Scene_same_process in Hnew. destruct Hnew as (_ & Hset & _).
  bind_inv Hex as u w1 Hcur. inversion Hcur; subst u w1. clear Hcur.
  bind_inv Hex as ps w2 Hloop. inversion Hex; subst q w'. clear Hex.
  assert (Hj : joined (setups w) ps w2).
  { revert Hloop.
    apply (foldM_prefix _ (fun _ ps0 w0 => joined (setups w) ps0 w0)).
    - intros pre x post b w0 b' w0' _ HQ Hf. bind_inv Hf as ps1 w3 E1.
      assert (HQ1 : joined (setups w) ps1 w3).
      { revert E1.
        apply (foldM_prefix _ (fun _ ps0 w4 => joined (setups w) ps0 w4));
          [|exact HQ].
        intros pre1 y post1 b1 w4 b1' w4' _ HQ1.
        apply flat_component_turn_joined. exact HQ1. }
      revert Hf.
      apply (foldM_prefix _ (fun _ ps0 w4 => joined (setups w) ps0 w4));
        [|exact HQ1].
      intros pre1 y post1 b1 w4 b1' w4' _ HQ2.
      apply (foldM_prefix _ (fun _ ps0 w5 => joined (setups w) ps0 w5));
        [|exact HQ2].
      intros pre2 z post2 b2 w5 b2' w5' _ HQ3.
      apply flat_child_component_turn_joined. exact HQ3.
    - exists []. simpl. rewrite app_nil_r. split; [exact Hset | intros m []]. }
  destruct Hj as (calls0 & Hs0 & Hj).
  rewrite Hs0 in Hcalls. apply app_inv_head in Hcalls. subst calls0.
  simpl in Hst.
  destruct (forallb (fun q => is_fulfilled (status st q)) ps) eqn:Hall;
    [|discriminate Hst].
  rewrite forallb_forall in Hall. specialize (Hall _ (Hj n Hn)). simpl in Hall.
  destruct (st n); [discriminate Hall | reflexivity | discriminate Hall].
Qed.

Lemma flat_create_awaits_issued_witness :
  Inputs.only_fulfilled 0 0 = Fulfilled.
Proof.
  apply (@flat_create_awaits_issued factory_creators Inputs.setup_async
           Inputs.parent_child world0
           (AfterAll [External 0; External 0]) (Inputs.only_fulfilled 0)
           [mkSetupCall (mkComponent "Position" 0) "{x:0,y:0}"
              (Some Inputs.parent_child_scene) (SPromise 0);
            mkSetupCall (mkComponent "Position" 1) "{x:1,y:1}"
              (Some Inputs.parent_child_scene) (SPromise 0)] 0).
  - reflexivity.
  - reflexivity.
  - reflexivity.
  - left. reflexivity.
Defined.

Section SceneFlatWalk.

Variable fn : Entity -> string -> VisitResult.

Hypothesis fn_returns : forall e n, exists p, fn e n = VPromise p.

Lemma walkChildren_returns (e : Entity) (w : World) :
  walkChildren fn e w
  = (Normal tt,
     mkWorld (current w) (nextId w) (setups w) (visits w ++ child_visits e)).
Proof.
  unfold walkChildren, child_visits.
  destruct (@foldM_total _ _
              (fun (_ : unit) kv =>
                 bind (call_fn fn (snd kv) (fst kv)) (fun _ => ret tt))
              (fun pre _ w' =>
                 w' = mkWorld (current w) (nextId w) (setups w)
                        (visits w ++ map (fun kv => (snd kv, fst kv)) pre))
              (children e)) with (b := tt) (w := w) as ([] & w' & Hfold & Hw').
  - intros pre x post b w0 _ ->.
    destruct (call_fn_visited fn fn_returns (snd x) (fst x)
                (mkWorld (current w) (nextId w) (setups w)
                   (visits w ++ map (fun kv => (snd kv, fst kv)) pre)))
      as (p & Hp).
    exists tt. eexists. unfold bind. rewrite Hp. split; [reflexivity|].
    simpl. rewrite map_app. simpl. rewrite <- app_assoc. reflexivity.
  - destruct w. simpl. rewrite app_nil_r. reflexivity.
  - rewrite Hfold, Hw'. reflexivity.
Qed.

(** X23.  With a walker that returns a promise on every entity, [walk] of
    [scene.ts] calls it, for each root in turn, on the direct children of
    the root and then on the root, and on nothing deeper; its promise is
    completed exactly when the promises of the visits of the roots are,
    whatever the state of the visits of the children. *)
Theorem flat_walk_visits (s : Scene) (w : World) :
  visits (snd (SceneFlat.walk fn s w)) = visits w ++ one_level_visits s /\
  exists p,
    fst (SceneFlat.walk fn s w) = Normal p /\
    forall st,
      status st p = Fulfilled
      <-> (forall k r n, In (k, r) (scenes s) -> fn r k = VPromise n ->
                         st n = Fulfilled).
Proof.
  destruct (@foldM_total _ _
              (fun promises kv =>
                 bind (new_Promise
                         (bind (walkChildren fn (snd kv))
                            (fun _ => bind (call_fn fn (snd kv) (fst kv))
                                        (fun p0 => ret (AfterAny [p0])))))
                      (fun p => ret (promises ++ [p])))
              (fun pre ps w' =>
                 w' = mkWorld (current w) (nextId w) (setups w)
                        (visits w
                         ++ flat_map (fun kv => child_visits (snd kv)
                                                ++ [(snd kv, fst kv)]) pre) /\
                 Forall2 (fun kv q => exists m, fn (snd kv) (fst kv) = VPromise m
                                                /\ q = AfterAny [External m])
                         pre ps)
              (scenes s)) with (b := @nil Promise) (w := w)
    as (ps & w' & Hfold & Hw' & Hps).
  - intros pre x post b w0 _ (-> & HF).
    unfold bind at 1. unfold new_Promise. unfold bind at 1.
    rewrite walkChildren_returns. simpl.
    unfold bind at 1. unfold call_fn. simpl.
    destruct (fn (snd x) (fst x)) as [m|err] eqn:Hfn;
      [|destruct (fn_returns (snd x) (fst x)) as (m & Hm); congruence].
    eexists. eexists. split; [reflexivity|]. split.
    + rewrite flat_map_app. simpl. rewrite app_nil_r.
      rewrite <- !app_assoc. reflexivity.
    + apply Forall2_app; [exact HF|]. constructor; [|constructor].
      exists m. split; [exact Hfn | reflexivity].
  - split; [destruct w; simpl; rewrite app_nil_r; reflexivity | constructor].
  - assert (Hwalk : SceneFlat.walk fn s w = (Normal (AfterAll ps), w')).
    { unfold SceneFlat.walk. unfold new_Promise at 1. unfold bind at 1.
      rewrite Hfold. reflexivity. }
    rewrite Hwalk. simpl. split; [rewrite Hw'; reflexivity|].
    exists (AfterAll ps). split; [reflexivity|]. intros st. simpl.
    clear Hwalk.
    clear Hfold Hw'. induction Hps as [|kv q l qs (m & Hm & ->) _ IH]; simpl.
    + split; [intros _ k r n [] | reflexivity].
    + destruct kv as [k0 r0]. simpl in Hm.
      destruct (st m) eqn:Hst; simpl.
      * split; [discriminate|]. intros H.
        specialize (H k0 r0 m (or_introl eq_refl) Hm). congruence.
      * rewrite IH. split.
        -- intros H k r n [E|Hin] Hf; [|eapply H; eauto].
           inversion E; subst. rewrite Hm in Hf. inversion Hf; subst. exact Hst.
        -- intros H k r n Hin. apply H. right. exact Hin.
      * split; [discriminate|]. intros H.
        specialize (H k0 r0 m (or_introl eq_refl) Hm). congruence.
Qed.

End SceneFlatWalk.

Lemma flat_walk_visits_witness :
  visits (snd (SceneFlat.walk Inputs.walker_by_name Inputs.parent_child_scene world0))
  = visits world0 ++ one_level_visits Inputs.parent_child_scene /\
  exists p,
    fst (SceneFlat.walk Inputs.walker_by_name Inputs.parent_child_scene world0)
    = Normal p /\
    forall st,
      status st p = Fulfilled
      <-> (forall k r n, In (k, r) (scenes Inputs.parent_child_scene) ->
                         Inputs.walker_by_name r k = VPromise n ->
                         st n = Fulfilled).
Proof.
  apply (@flat_walk_visits Inputs.walker_by_name).
  intros e n. unfold Inputs.walker_by_name.
  destruct (String.eqb n "A"); [eauto|]. destruct (String.eqb n "B"); eauto.
Defined.

(** ** [LayerComponent]: the index buffer of [display] *)

Lemma indicesCalculated_length (i : nat) :
  List.length (Layer.indicesCalculated i) = 6.
Proof. reflexivity. Qed.

Lemma quads_length (n : nat) :
  List.length (flat_map Layer.indicesCalculated (seq 0 n)) = 6 * n.
Proof.
  induction n as [|n IH]; [reflexivity|].
  rewrite seq_S, flat_map_app, length_app, IH. cbn [flat_map].
  rewrite app_nil_r, indicesCalculated_length. lia.
Qed.

Lemma firstn_length_app {A : Type} (l1 l2 : list A) :
  firstn (List.length l1) (l1 ++ l2) = l1.
Proof.
  induction l1 as [|x l1 IH]; simpl; [reflexivity | rewrite IH; reflexivity].
Qed.

Lemma skipn_length_app {A : Type} (l1 l2 : list A) (k : nat) :
  skipn (List.length l1 + k) (l1 ++ l2) = skipn k l2.
Proof. induction l1 as [|x l1 IH]; simpl; [reflexivity | exact IH]. Qed.

(** Writing over a slice of the same length replaces that slice. *)
Lemma typed_set_slice (pre src old post : list Z) :
  List.length src = List.length old ->
  Layer.typed_set src (List.length pre) (pre ++ old ++ post)
  = Normal (pre ++ src ++ post).
Proof.
  intros Hlen. unfold Layer.typed_set.
  replace (Nat.leb (List.length pre + List.length src)
             (List.length (pre ++ old ++ post))) with true
    by (symmetry; apply Nat.leb_le; rewrite !length_app; lia).
  rewrite firstn_length_app, skipn_length_app, Hlen.
  replace (List.length old) with (List.length old + 0) by lia.
  rewrite skipn_length_app. reflexivity.
Qed.

Lemma display_loop_quads (todo : nat) :
  forall i,
    Layer.display_loop todo i
      (flat_map Layer.indicesCalculated (seq 0 i) ++ repeat 0%Z (6 * todo))
    = Normal (flat_map Layer.indicesCalculated (seq 0 (i + todo))).
Proof.
  induction todo as [|todo IH]; intros i.
  - simpl. rewrite app_nil_r, Nat.add_0_r. reflexivity.
  - cbn [Layer.display_loop].
    replace (6 * S todo) with (6 + 6 * todo) by lia.
    rewrite repeat_app.
    rewrite <- (quads_length i) at 1.
    rewrite typed_set_slice by (rewrite repeat_length; reflexivity).
    replace (flat_map Layer.indicesCalculated (seq 0 i)
             ++ Layer.indicesCalculated i ++ repeat 0%Z (6 * todo))
      with (flat_map Layer.indicesCalculated (seq 0 (S i)) ++ repeat 0%Z (6 * todo))
      by (rewrite seq_S, flat_map_app; cbn [flat_map];
          rewrite app_nil_r, Nat.add_0_l, <- app_assoc; reflexivity).
    rewrite IH. f_equal. f_equal. f_equal. lia.
Qed.

Lemma display_indices_quads (n : nat) :
  Layer.display_indices n = Normal (flat_map Layer.indicesCalculated (seq 0 n)).
Proof.
  unfold Layer.display_indices, Layer.Uint16Array_new.
  apply (display_loop_quads n 0).
Qed.

(** X24.  For a layer of [n] sprites the writes of [display] to
    [allindices] all fit, none raises a [RangeError]; at the end the buffer
    holds six indices per sprite, those of the sprites in their order, and
    nothing of the initial zeros is left. *)
Theorem display_indices_filled (n : nat) :
  exists l, Layer.display_indices n = Normal l /\
            l = flat_map Layer.indicesCalculated (seq 0 n) /\
            List.length l = 6 * n.
Proof.
  exists (flat_map Layer.indicesCalculated (seq 0 n)).
  split; [apply display_indices_quads|]. split; [reflexivity | apply quads_length].
Qed.

Lemma flat_map_ext_In {A B : Type} (f g : A -> list B) (l : list A) :
  (forall x, In x l -> f x = g x) -> flat_map f l = flat_map g l.
Proof.
  induction l as [|x l IH]; intros H; simpl; [reflexivity|].
  rewrite (H x (or_introl eq_refl)), IH; [reflexivity|].
  intros y Hy. apply H. right. exact Hy.
Qed.

Lemma indicesCalculated_small (i : nat) :
  (Z.of_nat i < 16384)%Z ->
  Layer.indicesCalculated i
  = [4 * Z.of_nat i; 4 * Z.of_nat i + 1; 4 * Z.of_nat i + 2; 4 * Z.of_nat i + 2;
     4 * Z.of_nat i + 3; 4 * Z.of_nat i]%Z.
Proof.
  intros Hi. unfold Layer.indicesCalculated, Layer.Uint16Array_of, Layer.uint16.
  cbn [map].
  repeat (rewrite Z.mod_small by lia).
  repeat (apply f_equal2; [lia|]). reflexivity.
Qed.

(** X25.  For a layer of at most 16384 sprites, the six indices of the
    sprite number [i] in the buffer of [display] are [4i], [4i+1], [4i+2],
    [4i+2], [4i+3], [4i]: the two triangles of its own four vertices; every
    index of the buffer is below the number [4n] of vertices. *)
Theorem display_indices_in_range (n : nat) :
  (Z.of_nat n <= 16384)%Z ->
  exists l,
    Layer.display_indices n = Normal l /\
    l = flat_map (fun i => [4 * Z.of_nat i; 4 * Z.of_nat i + 1; 4 * Z.of_nat i + 2;
                            4 * Z.of_nat i + 2; 4 * Z.of_nat i + 3;
                            4 * Z.of_nat i]%Z) (seq 0 n) /\
    forall z, In z l -> (0 <= z < 4 * Z.of_nat n)%Z.
Proof.
  intros Hn.
  assert (E : flat_map Layer.indicesCalculated (seq 0 n)
              = flat_map (fun i => [4 * Z.of_nat i; 4 * Z.of_nat i + 1;
                                    4 * Z.of_nat i + 2; 4 * Z.of_nat i + 2;
                                    4 * Z.of_nat i + 3; 4 * Z.of_nat i]%Z)
                         (seq 0 n)).
  { apply flat_map_ext_In. intros i Hi. apply in_seq in Hi.
    apply indicesCalculated_small. lia. }
  eexists. split; [apply display_indices_quads|]. split; [exact E|].
  rewrite E. intros z Hz. apply in_flat_map in Hz. destruct Hz as (i & Hi & Hz).
  apply in_seq in Hi. cbn [In] in Hz.
  repeat (destruct Hz as [<-|Hz]; [lia|]). destruct Hz.
Qed.

Lemma display_indices_in_range_witness :
  exists l,
    Layer.display_indices 2 = Normal l /\
    l = flat_map (fun i => [4 * Z.of_nat i; 4 * Z.of_nat i + 1; 4 * Z.of_nat i + 2;
                            4 * Z.of_nat i + 2; 4 * Z.of_nat i + 3;
                            4 * Z.of_nat i]%Z) (seq 0 2) /\
    forall z, In z l -> (0 <= z < 4 * Z.of_nat 2)%Z.
Proof.
  apply (display_indices_in_range 2). lia.
Defined.

(** X26.  The indices are stored on 16 bits: the sprite number [i + 16384]
    gets the same six indices as the sprite number [i], so that beyond
    16384 sprites a layer draws the vertices of its first sprites again. *)
Theorem indicesCalculated_wraps (i j : nat) :
  Z.of_nat j = (Z.of_nat i + 16384)%Z ->
  Layer.indicesCalculated j = Layer.indicesCalculated i.
Proof.
  intros Hj.
  unfold Layer.indicesCalculated, Layer.Uint16Array_of, Layer.uint16. cbn [map].
  rewrite Hj.
  assert (G : forall k : Z,
             ((k + (Z.of_nat i + 16384) * 4) mod 65536
              = (k + Z.of_nat i * 4) mod 65536)%Z).
  { intros k.
    replace (k + (Z.of_nat i + 16384) * 4)%Z
      with (k + Z.of_nat i * 4 + 1 * 65536)%Z by lia.
    apply Z_mod_plus_full. }
  rewrite !G. reflexivity.
Qed.

Lemma indicesCalculated_wraps_witness :
  Layer.indicesCalculated (Z.to_nat 16385) = Layer.indicesCalculated 1.
Proof.
  apply (indicesCalculated_wraps 1 (Z.to_nat 16385)).
  rewrite Z2Nat.id by lia. reflexivity.
Defined.

(** ** [LayerComponent]: the sprites of a layer *)

Lemma Node_induction (P : Layer.Node -> Prop) :
  (forall a cs ks, Forall (fun kv => P (snd kv)) ks -> P (Layer.mkNode a cs ks)) ->
  forall e, P e.
Proof.
  intros Hstep. fix IH 1. intros [a cs ks]. apply Hstep.
  induction ks as [|kv ks IHks]; constructor; [apply IH | exact IHks].
Qed.

Lemma push_enabled_sprites (child : Layer.Node) (sprites : list Layer.Comp) :
  Layer.walkComponent
    (fun sprites comp =>
       if Layer.is_sprite comp && Layer.enabled comp then sprites ++ [comp]
       else sprites)
    child sprites
  = sprites ++ filter (fun c => Layer.is_sprite c && Layer.enabled c)
                      (Layer.comps child).
Proof.
  unfold Layer.walkComponent. generalize (Layer.comps child) as cs.
  intros cs. revert sprites.
  induction cs as [|c cs IH]; intros sprites; simpl.
  - rewrite app_nil_r. reflexivity.
  - rewrite IH. destruct (Layer.is_sprite c && Layer.enabled c).
    + rewrite <- app_assoc. reflexivity.
    + reflexivity.
Qed.

Lemma listSpritesRecur_unfold (sprites : list Layer.Comp) (entity : Layer.Node) :
  Layer.listSpritesRecur sprites entity
  = Layer.walkChildren
      (fun sprites child =>
         if negb (Layer.active child) then sprites
         else
           Layer.listSpritesRecur
             (Layer.walkComponent
                (fun sprites comp =>
                   if Layer.is_sprite comp && Layer.enabled comp
                   then sprites ++ [comp] else sprites)
                child sprites)
             child)
      entity sprites.
Proof. destruct entity; reflexivity. Qed.

Lemma visible_sprites_unfold (e : Layer.Node) :
  Layer.visible_sprites e
  = flat_map (fun kv =>
                if Layer.active (snd kv)
                then filter (fun c => Layer.is_sprite c && Layer.enabled c)
                            (Layer.comps (snd kv))
                     ++ Layer.visible_sprites (snd kv)
                else [])
             (Layer.kids e).
Proof. destruct e; reflexivity. Qed.

(** [listSpritesRecur] pushes, behind what the array already holds, the
    enabled sprites of the active entities below the entity. *)
Lemma listSpritesRecur_pushes (entity : Layer.Node) :
  forall sprites,
    Layer.listSpritesRecur sprites entity = sprites ++ Layer.visible_sprites entity.
Proof.
  induction entity as [a cs ks IH] using Node_induction.
  intros sprites. rewrite listSpritesRecur_unfold, visible_sprites_unfold.
  unfold Layer.walkChildren. simpl Layer.kids. revert sprites.
  induction ks as [|[k c] ks IHks]; intros sprites; simpl.
  - rewrite app_nil_r. reflexivity.
  - inversion IH as [|? ? Hc Hks]; subst. simpl in Hc.
    rewrite (IHks Hks). destruct (Layer.active c); simpl.
    + rewrite Hc, push_enabled_sprites. rewrite <- !app_assoc. reflexivity.
    + reflexivity.
Qed.

(** X27.  [listSprites] runs [listSpritesRecur] on the owner once per
    direct child of the owner: it returns the enabled sprites of the active
    entities below the owner, parents before children, as many times over
    as the owner has direct children, active or not; an inactive entity
    hides the sprites of everything below it. *)
Theorem listSprites_repeats (owner : Layer.Node) :
  Layer.listSprites owner
  = List.concat (repeat (Layer.visible_sprites owner) (List.length (Layer.kids owner))).
Proof.
  unfold Layer.listSprites, Layer.walkChildren.
  enough (G : forall (l : list (string * Layer.Node)) acc,
             fold_left (fun a (_ : string * Layer.Node) =>
                          Layer.listSpritesRecur a owner) l acc
             = acc ++ List.concat (repeat (Layer.visible_sprites owner) (List.length l)))
    by (apply (G (Layer.kids owner) [])).
  induction l as [|kv l IH]; intros acc; simpl.
  - rewrite app_nil_r. reflexivity.
  - rewrite IH, listSpritesRecur_pushes, <- app_assoc. reflexivity.
Qed.

(** ** The configuration pass, recursive revision: what a setup can find *)

(** X28.  Take a well-formed description whose entity names are ordinary
    keys that objects do not inherit from [Object.prototype].  When the
    recursive revision has constructed its scene, [create] makes that
    scene the active one before the first [setup] and it is still the
    active one at the end: every call of [setup] finds it in
    [Scene.current].  On that scene [findObject] returns, for every
    entity name of the description, at any depth, an entity of the scene
    stored under that name. *)
Theorem rec_create_setups_find_every_name (creators : string -> bool)
    (setup : IComponent -> Payload -> option Scene -> SetupResult)
    (description : ISceneDesc) (w wc : World) (scene : Scene) :
  forallb ordinary_key (scene_names description) = true ->
  forallb own_name (scene_names description) = true ->
  wf_scene_desc description = true ->
  SceneRec.new_Scene creators description w = (Normal scene, wc) ->
  current (snd (SceneRec.create creators setup description w)) = Some scene /\
  (exists calls,
      setups (snd (SceneRec.create creators setup description w))
      = setups w ++ calls /\
      Forall (fun c => sc_current c = Some scene) calls) /\
  (forall n, In n (scene_names description) ->
             exists e, SceneRec.findObject n scene = Normal e /\
                       In (e, n) (scene_entities scene)).
Proof.
  intros _ _ Hwf H.
  destruct (@create_activates_built_scene_aux creators setup description w wc scene H)
    as (G1 & G2).
  split; [exact G1|]. split; [exact G2|].
  intros n Hn.
  destruct (@new_Scene_findObject creators description w wc scene n Hwf H Hn)
    as (e & He).
  exists e. split; [exact He | apply rec_findObject_sound; exact He].
Qed.

Lemma rec_create_setups_find_every_name_witness :
  current (snd (SceneRec.create factory_creators Inputs.setup_void
                  Inputs2.referee_three_levels Inputs.old_world))
  = Some Inputs2.referee_rec /\
  (exists calls,
      setups (snd (SceneRec.create factory_creators Inputs.setup_void
                     Inputs2.referee_three_levels Inputs.old_world))
      = setups Inputs.old_world ++ calls /\
      Forall (fun c => sc_current c = Some Inputs2.referee_rec) calls) /\
  (forall n, In n (scene_names Inputs2.referee_three_levels) ->
             exists e, SceneRec.findObject n Inputs2.referee_rec = Normal e /\
                       In (e, n) (scene_entities Inputs2.referee_rec)).
Proof.
  apply (@rec_create_setups_find_every_name factory_creators Inputs.setup_void
           Inputs2.referee_three_levels Inputs.old_world
           (mkWorld (Some Inputs.old_scene) 2 [] []) Inputs2.referee_rec);
    reflexivity.
Defined.
